(** * AI PDF-to-Excel converter: the job queue, the page-range parser
      and the rich-cell editor of [App.tsx], embedded in Rocq.

    Definitions, source file by source file:
    - [JsNumber], [JsString]: the fragment of JavaScript numbers and
      strings that [parsePageRange] relies on;
    - [PageRange]: [parsePageRange];
    - [Types]: the records of [types.ts];
    - [Sheets]: [convertRawSheetsToRich], [handleCellChange],
      [handleStyleChange] of [App.tsx], [handleCellClick] and
      [isCellSelected] of [DataTable.tsx];
    - [Queue]: the handlers of [App] that read or replace [jobs],
      [activeJobsCount] and [selectedJobIds], [processJob] as the sequence
      of its state updates and awaited steps, and the application as a
      transition system over these;
    - [Examples]: concrete files, jobs and sheets;
    - [Tokens], [Editor], [SelectAll], [Thumbnails], [Provenance]: what
      the further properties of the parser, the editor and the queue are
      stated with, and [handleKeyDown] of [DataTable.tsx] and the effect
      on the select-all box of [App.tsx];
    - [Gemini]: [extractDataFromPdfImages] of [geminiService.ts];
    - [Excel], [Pdf]: [readExcelData], [generatePdfThumbnail] and
      [convertPdfToImages] of [App.tsx];
    - [FileUpload]: [processFiles] and [handleDrop] of [FileUpload.tsx];
    - [Workbook]: the sheet names of [createStyledWorkbook];
    - [Scenarios]: concrete runs.

    Properties: facts about the parser, the style change, [processJob]
    and the reachable states of the application, then the claims C1 to
    C10 about them, then the further properties X1 to X29. *)

From Stdlib Require Import ZArith Ascii String.
From stdpp Require Import base tactics option list sorting gmap strings pretty.

Local Open Scope Z_scope.

(** ** JavaScript numbers, as far as [parsePageRange] uses them

    Every number that [parsePageRange] handles is an integer-valued IEEE-754
    double, an infinity or [NaN].  [Num z] stands for the double whose
    value is the integer [z]; [toNumber] rounds a mathematical integer to
    the nearest double (ties to even), which is what [parseInt] and [i++]
    do once 53 bits no longer suffice. *)
Module JsNumber.

Inductive number :=
  | NaN
  | Num (z : Z)
  | Inf (negative : bool).

Definition isNaN (x : number) : bool :=
  match x with NaN => true | _ => false end.

(** Round a non-negative integer to 53 significant bits, ties to even. *)
Definition round53 (v : Z) : Z :=
  if v <? 2 ^ 53 then v
  else
    let e := Z.log2 v - 52 in
    let q := v / 2 ^ e in
    let r := v mod 2 ^ e in
    let half := 2 ^ (e - 1) in
    if (r <? half) || ((r =? half) && Z.even q) then q * 2 ^ e
    else (q + 1) * 2 ^ e.

Definition toNumber (z : Z) : number :=
  let m := round53 (Z.abs z) in
  if 2 ^ 1024 <=? m then Inf (z <? 0) else Num (Z.sgn z * m).

(** [x <= y] *)
Definition le (x y : number) : bool :=
  match x, y with
  | NaN, _ | _, NaN => false
  | Num a, Num b => a <=? b
  | Inf true, _ => true
  | _, Inf false => true
  | Inf false, _ => false
  | _, Inf true => false
  end.

(** [x > y] *)
Definition gt (x y : number) : bool :=
  match x, y with
  | NaN, _ | _, NaN => false
  | _, _ => negb (le x y)
  end.

(** [x + 1], the value that [i++] stores. *)
Definition incr (x : number) : number :=
  match x with
  | Num z => toNumber (z + 1)
  | _ => x
  end.

End JsNumber.

(** ** JavaScript strings

    A string is a sequence of code units; the model covers the code units
    below 256, one [ascii] each. *)
Module JsString.

Local Open Scope char_scope.

(** WhiteSpace and LineTerminator code units below 256: TAB, LF, VT, FF,
    CR, SP and NBSP. *)
Definition isWhiteSpace (c : ascii) : bool :=
  let n := nat_of_ascii c in
  ((9 <=? n)%nat && (n <=? 13)%nat) || (n =? 32)%nat || (n =? 160)%nat.

Fixpoint trimStart (s : string) : string :=
  match s with
  | String c r => if isWhiteSpace c then trimStart r else s
  | EmptyString => EmptyString
  end.

Definition trimEnd (s : string) : string :=
  String.rev (trimStart (String.rev s)).

Definition trim (s : string) : string := trimEnd (trimStart s).

(** [s.split(sep)] for a one-character separator. *)
Fixpoint split (sep : ascii) (s : string) : list string :=
  match s with
  | EmptyString => [EmptyString]
  | String c r =>
      if Ascii.eqb c sep then EmptyString :: split sep r
      else
        match split sep r with
        | p :: ps => String c p :: ps
        | [] => [String c EmptyString]
        end
  end.

(** [s.includes(c)] for a one-character needle. *)
Fixpoint includes (c : ascii) (s : string) : bool :=
  match s with
  | EmptyString => false
  | String d r => Ascii.eqb d c || includes c r
  end.

Definition digit (c : ascii) : option Z :=
  let n := nat_of_ascii c in
  if (48 <=? n)%nat && (n <=? 57)%nat then Some (Z.of_nat n - 48) else None.

(** The longest prefix of decimal digits, most significant first. *)
Fixpoint leadingDigits (s : string) : list Z :=
  match s with
  | String c r =>
      match digit c with
      | Some d => d :: leadingDigits r
      | None => []
      end
  | EmptyString => []
  end.

Definition digitsValue (ds : list Z) : Z :=
  foldl (fun acc d => 10 * acc + d) 0 ds.

(** [parseInt(s, 10)]: skip leading white space, read an optional sign and
    the longest run of decimal digits; no digit gives [NaN].  The value is
    converted to a Number by rounding to the nearest double.  (ECMAScript
    lets an engine replace the digits after the 20th by zeros; up to 20
    significant digits the result below is the mandated one.) *)
Definition parseInt (s : string) : JsNumber.number :=
  let s1 := trimStart s in
  let '(negative, s2) :=
    match s1 with
    | String "-" r => (true, r)
    | String "+" r => (false, r)
    | _ => (false, s1)
    end in
  match leadingDigits s2 with
  | [] => JsNumber.NaN
  | ds => JsNumber.toNumber ((if negative then -1 else 1) * digitsValue ds)
  end.

(** [s.toLowerCase()] on code units below 256. *)
Definition lowerChar (c : ascii) : ascii :=
  let n := nat_of_ascii c in
  if ((65 <=? n)%nat && (n <=? 90)%nat)
     || ((192 <=? n)%nat && (n <=? 222)%nat && negb (n =? 215)%nat)
  then ascii_of_nat (n + 32) else c.

Fixpoint toLowerCase (s : string) : string :=
  match s with
  | EmptyString => EmptyString
  | String c r => String (lowerChar c) (toLowerCase r)
  end.

(** [s.includes(needle)] for a string needle. *)
Fixpoint includesString (needle s : string) : bool :=
  String.prefix needle s
  || match s with
     | EmptyString => false
     | String _ r => includesString needle r
     end.

End JsString.

(** ** [parsePageRange] *)
Module PageRange.
Import JsNumber JsString.

(** [pages.add(i)] on a [Set<number>]: insertion order, no duplicates. *)
Definition Set_add (i : Z) (pages : list Z) : list Z :=
  if decide (i ∈ pages) then pages else pages ++ [i].

(** [if (i > 0 && i <= maxPages) pages.add(i)] *)
Definition addIfInBounds (i : number) (maxPages : Z) (pages : list Z) : list Z :=
  match i with
  | Num z => if gt i (Num 0) && le i (Num maxPages) then Set_add z pages else pages
  | _ => pages
  end.

(** [for (let i = start; i <= end; i++) { ... }].  The loop has no bound
    of its own, so the model counts iterations: [None] means that [fuel]
    iterations did not reach the exit. *)
Fixpoint forRange (fuel : nat) (i end_ : number) (maxPages : Z) (pages : list Z)
  : option (list Z) :=
  if le i end_ then
    match fuel with
    | O => None
    | S fuel' => forRange fuel' (incr i) end_ maxPages (addIfInBounds i maxPages pages)
    end
  else Some pages.

(** The body of [for (const part of parts)]. *)
Definition addPart (fuel : nat) (maxPages : Z) (part : string) (pages : list Z)
  : option (list Z) :=
  if includes "-" part then
    match (fun s => parseInt (trim s)) <$> split "-" part with
    | start :: end_ :: _ =>
        if negb (isNaN start) && negb (isNaN end_)
        then forRange fuel start end_ maxPages pages
        else Some pages
    | _ => Some pages
    end
  else
    let page := parseInt (trim part) in
    Some (if negb (isNaN page) then addIfInBounds page maxPages pages else pages).

Fixpoint addParts (fuel : nat) (maxPages : Z) (parts : list string) (pages : list Z)
  : option (list Z) :=
  match parts with
  | [] => Some pages
  | part :: parts' =>
      pages' ← addPart fuel maxPages part pages;
      addParts fuel maxPages parts' pages'
  end.

(** What the loops maintain about [pages]: distinct numbers of
    [1..maxPages]. *)
Definition pagesOk (maxPages : Z) (pages : list Z) : Prop :=
  NoDup pages ∧ Forall (fun p => 1 ≤ p ≤ maxPages) pages.

(** [Array.from(pages).sort((a, b) => a - b)] *)
Definition sortAscending (pages : list Z) : list Z := merge_sort Z.le pages.

Definition parsePageRange (fuel : nat) (rangeStr : string) (maxPages : Z)
  : option (list Z) :=
  if String.eqb (trim rangeStr) "" then
    Some (seqZ 1 maxPages)
  else
    sortAscending <$> addParts fuel maxPages (split "," rangeStr) [].

End PageRange.

(** ** The records of [types.ts] *)
Module Types.

Inductive Align := align_left | align_center | align_right.

(** [CellStyle]: every field is optional; [None] is an absent (or
    [undefined]) field, which no reader of a style tells apart. *)
Record CellStyle := {
  bold : option bool;
  italic : option bool;
  underline : option bool;
  strikethrough : option bool;
  color : option string;
  align : option Align
}.

Record CellData := {
  value : string;
  style : option CellStyle
}.

Record SheetData := {
  sheetName : string;
  data : list (list CellData)
}.

Inductive ProcessJobStatus := queued | processing | success | error.

Inductive ConversionMode := pdf_to_excel | excel_to_pdf.

Inductive Orientation := portrait | landscape.

Record PdfOptions := {
  orientation : Orientation;
  fontSize : Z;
  autoWidth : bool
}.

(** A browser [File]: the three attributes the queue reads, and a handle
    standing for the content. *)
Record File := {
  name : string;
  lastModified : Z;
  size : Z;
  content : nat
}.

Record ProcessJob := {
  id : string;
  file : option File;
  fileName : string;
  fileSize : Z;
  status : ProcessJobStatus;
  conversionMode : ConversionMode;
  extractedSheets : option (list SheetData);
  errorMessage : option string;
  thumbnailUrls : option (list string);
  currentThumbnailIndex : option JsNumber.number;
  pdfPageCount : option Z;
  pageRange : option string;
  progressMessage : option string;
  pdfOptions : option PdfOptions
}.

Global Instance Align_eq_dec : EqDecision Align.
Proof. solve_decision. Defined.
Global Instance CellStyle_eq_dec : EqDecision CellStyle.
Proof. solve_decision. Defined.
Global Instance CellData_eq_dec : EqDecision CellData.
Proof. solve_decision. Defined.
Global Instance SheetData_eq_dec : EqDecision SheetData.
Proof. solve_decision. Defined.
Global Instance ProcessJobStatus_eq_dec : EqDecision ProcessJobStatus.
Proof. solve_decision. Defined.
Global Instance ConversionMode_eq_dec : EqDecision ConversionMode.
Proof. solve_decision. Defined.

(** The fields that an object spread [{ ...job, field: v, ... }] of the
    source overrides. *)
Inductive Field :=
  | file_ (v : option File)
  | status_ (v : ProcessJobStatus)
  | extractedSheets_ (v : option (list SheetData))
  | errorMessage_ (v : option string)
  | thumbnailUrls_ (v : option (list string))
  | currentThumbnailIndex_ (v : option JsNumber.number)
  | pdfPageCount_ (v : option Z)
  | pageRange_ (v : option string)
  | progressMessage_ (v : option string)
  | pdfOptions_ (v : option PdfOptions).

Definition assign (j : ProcessJob) (f : Field) : ProcessJob :=
  let '{| id := i; file := fl; fileName := fn; fileSize := fs; status := st;
          conversionMode := cm; extractedSheets := es; errorMessage := em;
          thumbnailUrls := tu; currentThumbnailIndex := ti; pdfPageCount := pc;
          pageRange := pr; progressMessage := pm; pdfOptions := po |} := j in
  match f with
  | file_ v => Build_ProcessJob i v fn fs st cm es em tu ti pc pr pm po
  | status_ v => Build_ProcessJob i fl fn fs v cm es em tu ti pc pr pm po
  | extractedSheets_ v => Build_ProcessJob i fl fn fs st cm v em tu ti pc pr pm po
  | errorMessage_ v => Build_ProcessJob i fl fn fs st cm es v tu ti pc pr pm po
  | thumbnailUrls_ v => Build_ProcessJob i fl fn fs st cm es em v ti pc pr pm po
  | currentThumbnailIndex_ v => Build_ProcessJob i fl fn fs st cm es em tu v pc pr pm po
  | pdfPageCount_ v => Build_ProcessJob i fl fn fs st cm es em tu ti v pr pm po
  | pageRange_ v => Build_ProcessJob i fl fn fs st cm es em tu ti pc v pm po
  | progressMessage_ v => Build_ProcessJob i fl fn fs st cm es em tu ti pc pr v po
  | pdfOptions_ v => Build_ProcessJob i fl fn fs st cm es em tu ti pc pr pm v
  end.

(** [{ ...j, f1, f2, ... }] *)
Definition spread (j : ProcessJob) (fields : list Field) : ProcessJob :=
  foldl assign j fields.

End Types.

(** ** The rich-cell model and its editor ([App.tsx], [DataTable.tsx]) *)
Module Sheets.
Import Types.

(** [Partial<CellStyle>]: per field, [None] when the patch does not name
    the field, [Some v] when it does; [Some None] is a patch such as
    [{ color: undefined }], which the colour picker sends to remove a
    colour. *)
Module Partial.
Record CellStyle := {
  bold : option (option bool);
  italic : option (option bool);
  underline : option (option bool);
  strikethrough : option (option bool);
  color : option (option string);
  align : option (option Align)
}.
End Partial.

Record RawSheet := {
  rawSheetName : string;
  rawData : list (list string)
}.

(** The empty style [{}]. *)
Definition emptyStyle : CellStyle :=
  {| bold := None; italic := None; underline := None; strikethrough := None;
     color := None; align := None |}.

Definition convertRawSheetsToRich (rawSheets : list RawSheet) : list SheetData :=
  map (fun sheet =>
         {| sheetName := rawSheetName sheet;
            data := map (fun row => map (fun cellValue =>
                       {| value := cellValue; style := Some emptyStyle |}) row)
                    (rawData sheet) |})
      rawSheets.

(** A cell selection of the editor; [null] is [None]. *)
Record CellRef := { row : nat; col : nat }.
Record Rect := { start : CellRef; end_ : CellRef }.
Definition Selection := option Rect.

(** What a handler does with the staged copy: it returns the next
    [editedData], or a [TypeError] escapes from it. *)
Inductive Completion (A : Type) :=
  | Normal (a : A)
  | TypeError.
Arguments Normal {A} a.
Arguments TypeError {A}.

Definition overrideField {T} (current : option T) (patch : option (option T)) : option T :=
  match patch with
  | Some v => v
  | None => current
  end.

(** [{ ...currentStyle, ...style }] *)
Definition mergeStyle (currentStyle : CellStyle) (style : Partial.CellStyle) : CellStyle :=
  {| bold := overrideField (bold currentStyle) (Partial.bold style);
     italic := overrideField (italic currentStyle) (Partial.italic style);
     underline := overrideField (underline currentStyle) (Partial.underline style);
     strikethrough := overrideField (strikethrough currentStyle) (Partial.strikethrough style);
     color := overrideField (color currentStyle) (Partial.color style);
     align := overrideField (align currentStyle) (Partial.align style) |}.

(** The cell after
    [const currentStyle = cell.style || {}; cell.style = { ...currentStyle, ...style }]. *)
Definition restyle (style : Partial.CellStyle) (cell : CellData) : CellData :=
  {| value := value cell;
     style := Some (mergeStyle (default emptyStyle (Types.style cell)) style) |}.

(** One pass through the body of the inner loop, on [newSheets]; [None]
    when [newSheets[sheetIndex].data[r][c]] reads through [undefined]. *)
Definition styleCell (sheetIndex : nat) (style : Partial.CellStyle)
    (newSheets : list SheetData) (r c : nat) : option (list SheetData) :=
  sheet ← newSheets !! sheetIndex;
  cells ← data sheet !! r;
  cell ← cells !! c;
  Some (<[sheetIndex :=
          {| sheetName := sheetName sheet;
             data := <[r := <[c := restyle style cell]> cells]> (data sheet) |}]>
        newSheets).

(** [for (let c = from; c <= to; c++)], as the columns still to visit. *)
Fixpoint styleCols (sheetIndex : nat) (style : Partial.CellStyle) (r : nat)
    (cols : list nat) (newSheets : list SheetData) : option (list SheetData) :=
  match cols with
  | [] => Some newSheets
  | c :: cols' =>
      newSheets' ← styleCell sheetIndex style newSheets r c;
      styleCols sheetIndex style r cols' newSheets'
  end.

Fixpoint styleRows (sheetIndex : nat) (style : Partial.CellStyle)
    (rows cols : list nat) (newSheets : list SheetData) : option (list SheetData) :=
  match rows with
  | [] => Some newSheets
  | r :: rows' =>
      newSheets' ← styleCols sheetIndex style r cols newSheets;
      styleRows sheetIndex style rows' cols newSheets'
  end.

(** The indices [from, from + 1, ..., to] that a [for] loop with the test
    [i <= to] visits. *)
Definition fromTo (from to : nat) : list nat := seq from (S to - from).

(** [handleStyleChange]: the value of [editedData] after the call.
    [JSON.parse(JSON.stringify(prevData))] copies the sheets; on values
    of this model the copy equals the original. *)
Definition handleStyleChange (sheetIndex : nat) (selection : Selection)
    (style : Partial.CellStyle) (editedData : option (list SheetData))
  : Completion (option (list SheetData)) :=
  match selection with
  | None => Normal editedData
  | Some sel =>
      match editedData with
      | None => Normal None
      | Some prevData =>
          match styleRows sheetIndex style
                  (fromTo (row (start sel)) (row (end_ sel)))
                  (fromTo (col (start sel)) (col (end_ sel))) prevData with
          | Some newSheets => Normal (Some newSheets)
          | None => TypeError
          end
      end
  end.

(** [handleCellChange] *)
Definition handleCellChange (sheetIndex rowIndex cellIndex : nat) (value : string)
    (editedData : option (list SheetData)) : Completion (option (list SheetData)) :=
  match editedData with
  | None => Normal None
  | Some prevData =>
      match
        sheet ← prevData !! sheetIndex;
        cells ← data sheet !! rowIndex;
        cell ← cells !! cellIndex;
        Some (<[sheetIndex :=
                {| sheetName := sheetName sheet;
                   data := <[rowIndex :=
                              <[cellIndex := {| value := value; style := Types.style cell |}]>
                              cells]> (data sheet) |}]> prevData)
      with
      | Some newSheets => Normal (Some newSheets)
      | None => TypeError
      end
  end.

(** [isCellSelected] of [DataTable.tsx]. *)
Definition isCellSelected (selection : Selection) (rowIndex cellIndex : nat) : bool :=
  match selection with
  | None => false
  | Some sel =>
      (row (start sel) <=? rowIndex)%nat && (rowIndex <=? row (end_ sel))%nat &&
      (col (start sel) <=? cellIndex)%nat && (cellIndex <=? col (end_ sel))%nat
  end.

(** The cell in which the editor has its input ([DataTable.tsx]). *)
Record ActiveCell := {
  sheetIndex : nat;
  rowIndex : nat;
  cellIndex : nat
}.

(** [handleCellClick]: the next [activeCell] and [selection].  A plain
    click selects the clicked cell; a click with the shift key held
    selects the rectangle between the active cell and the clicked cell. *)
Definition handleCellClick (activeSheetIndex : nat) (shiftKey : bool)
    (activeCell : option ActiveCell) (rowIndex cellIndex : nat)
  : option ActiveCell * Selection :=
  match shiftKey, activeCell with
  | true, Some active =>
      (activeCell,
       Some {| start := {| row := Nat.min (Sheets.rowIndex active) rowIndex;
                           col := Nat.min (Sheets.cellIndex active) cellIndex |};
               end_ := {| row := Nat.max (Sheets.rowIndex active) rowIndex;
                          col := Nat.max (Sheets.cellIndex active) cellIndex |} |})
  | _, _ =>
      (Some {| sheetIndex := activeSheetIndex; rowIndex := rowIndex;
               cellIndex := cellIndex |},
       Some {| start := {| row := rowIndex; col := cellIndex |};
               end_ := {| row := rowIndex; col := cellIndex |} |})
  end.

(** The cell at a position of a sheet, if there is one. *)
Definition cellAt (sheets : list SheetData) (sheetIndex r c : nat) : option CellData :=
  sheet ← sheets !! sheetIndex; cells ← data sheet !! r; cells !! c.

(** [sheets] with [restyle style] applied to the cells of sheet
    [sheetIndex] that [inside] picks, and nothing else changed: what a
    style change is meant to produce. *)
Definition restyleWhere (inside : nat -> nat -> bool) (sheetIndex : nat)
    (style : Partial.CellStyle) (sheets : list SheetData) : list SheetData :=
  imap (fun i sheet =>
          if decide (i = sheetIndex) then
            {| sheetName := sheetName sheet;
               data := imap (fun r cells =>
                               imap (fun c cell =>
                                       if inside r c then restyle style cell else cell)
                                    cells)
                            (data sheet) |}
          else sheet)
       sheets.

Definition visitedIn (visited : list (nat * nat)) (r c : nat) : bool :=
  bool_decide ((r, c) ∈ visited).

End Sheets.

(** ** The job queue of [App] *)
Module Queue.
Import Types Sheets PageRange.

Definition MAX_CONCURRENT_JOBS : Z := 3.
Definition ITEMS_PER_PAGE : nat := 10.
Definition DEFAULT_PDF_OPTIONS : PdfOptions :=
  {| orientation := portrait; fontSize := 10; autoWidth := true |}.

(** *** Restoring the persisted queue (the initializer of [jobs]) *)

(** What [localStorage.getItem('pdf-to-excel-queue')] and [JSON.parse]
    give: no (or an empty) item, an item on which parsing or [map] throws,
    or the saved jobs. *)
Inductive StoredQueue :=
  | NoItem
  | Unreadable
  | Saved (savedJobs : list ProcessJob).

Definition interruptedMessage : string :=
  "Processing was interrupted. Please re-upload to retry.".

Definition restoreJob (job : ProcessJob) : ProcessJob :=
  match status job with
  | processing | queued =>
      spread job [status_ error; errorMessage_ (Some interruptedMessage); file_ None]
  | _ => spread job [file_ None]
  end.

Definition restoreQueue (stored : StoredQueue) : list ProcessJob :=
  match stored with
  | Saved savedJobs => restoreJob <$> savedJobs
  | NoItem | Unreadable => []
  end.

(** What the effect on [jobs] stores: [jobs.map(({ file, ...rest }) => rest)]. *)
Definition persistQueue (jobs : list ProcessJob) : StoredQueue :=
  Saved ((fun job => spread job [file_ None]) <$> jobs).

(** *** Updates of [jobs] *)

(** [prev.map(j => j.id === jobId ? { ...j, fields } : j)] *)
Definition updateJob (jobId : string) (fields : list Field) (prev : list ProcessJob)
  : list ProcessJob :=
  (fun j => if decide (id j = jobId) then spread j fields else j) <$> prev.

Definition isActive (job : ProcessJob) : bool :=
  match status job with
  | queued | processing => true
  | success | error => false
  end.

(** *** [processJob]

    [processJob] is an [async] function: it runs up to its first [await]
    inside the caller, and the rest of it runs later, interleaved with
    everything else.  It is embedded as the sequence of things it does, in
    order: the state updates it queues and the pipeline steps it awaits.
    The outcome of every awaited step is given by [Pipelines]. *)

Inductive PipelineCall :=
  | ConvertPdfToImages (f : File) (pageRange : string)
  | ExtractDataFromPdfImages (images : list string)
  | ReadExcelData (f : File).

Inductive Event :=
  | setJobs (jobId : string) (fields : list Field)
  | setActiveJobsCount (delta : Z)
  | await (call : PipelineCall).

(** A thrown value: an [Error] with its message, or anything else. *)
Inductive Thrown :=
  | ErrorObject (message : string)
  | OtherValue.

Inductive Settled (A : Type) :=
  | Resolved (a : A)
  | Rejected (e : Thrown).
Arguments Resolved {A} a.
Arguments Rejected {A} e.

Record Pipelines := {
  (** the messages passed to [onProgress], then the images or a rejection *)
  convertPdfToImages : File -> string -> list string * Settled (list string);
  extractDataFromPdfImages : list string -> Settled (list RawSheet);
  readExcelData : File -> Settled (list RawSheet)
}.

(** The events of a block so far, and how it completed. *)
Definition Async (A : Type) : Type := list Event * Settled A.

Definition ret {A} (a : A) : Async A := ([], Resolved a).

Definition bind {A B} (m : Async A) (k : A -> Async B) : Async B :=
  match m with
  | (t, Resolved a) => let '(t', r) := k a in (t ++ t', r)
  | (t, Rejected e) => (t, Rejected e)
  end.

Definition emit (e : Event) : Async unit := ([e], Resolved tt).

Definition throw {A} (e : Thrown) : Async A := ([], Rejected e).

Notation "'get' x <- m ; k" := (bind m (fun x => k))
  (at level 10, x name, m at level 100, k at level 200).
Notation "'perform' m ; k" := (bind m (fun _ => k))
  (at level 10, m at level 100, k at level 200).

(** [try { body } catch (error) { handler(error) }] *)
Definition tryCatch {A} (body : Async A) (handler : Thrown -> Async A) : Async A :=
  match body with
  | (t, Resolved a) => (t, Resolved a)
  | (t, Rejected e) => let '(t', r) := handler e in (t ++ t', r)
  end.

(** [try { body } finally { finalizer }] *)
Definition tryFinally {A} (body : Async A) (finalizer : Async unit) : Async A :=
  let '(t, r) := body in
  match finalizer with
  | (t', Resolved _) => (t ++ t', r)
  | (t', Rejected e) => (t ++ t', Rejected e)
  end.

(** [error instanceof Error ? error.message : fallback] *)
Definition messageOf (e : Thrown) (fallback : string) : string :=
  match e with
  | ErrorObject message => message
  | OtherValue => fallback
  end.

Section processJob.
Context (P : Pipelines).

Definition awaitConvertPdfToImages (jobId : string) (f : File) (range : string)
  : Async (list string) :=
  let '(messages, outcome) := convertPdfToImages P f range in
  (await (ConvertPdfToImages f range)
     :: ((fun message => setJobs jobId [progressMessage_ (Some message)]) <$> messages),
   outcome).

Definition awaitExtractDataFromPdfImages (images : list string) : Async (list RawSheet) :=
  ([await (ExtractDataFromPdfImages images)], extractDataFromPdfImages P images).

Definition awaitReadExcelData (f : File) : Async (list RawSheet) :=
  ([await (ReadExcelData f)], readExcelData P f).

(** The [try] block. *)
Definition convert (jobToProcess : ProcessJob) (f : File) : Async unit :=
  let jobId := id jobToProcess in
  match Types.conversionMode jobToProcess with
  | pdf_to_excel =>
      get images <- awaitConvertPdfToImages jobId f (default "" (pageRange jobToProcess));
      perform emit (setJobs jobId
                      [progressMessage_
                         (Some ("AI is analyzing " +:+ pretty (length images)
                                +:+ " page(s)..."))]);
      get rawSheets <- awaitExtractDataFromPdfImages images;
      let sheets := convertRawSheetsToRich rawSheets in
      emit (setJobs jobId
              [status_ success; extractedSheets_ (Some sheets); progressMessage_ None])
  | excel_to_pdf =>
      perform emit (setJobs jobId [progressMessage_ (Some "Reading spreadsheet...")]);
      get rawSheets <- awaitReadExcelData f;
      if decide (length rawSheets = 0%nat)
      then throw (ErrorObject "Excel file contains no data.")
      else
        let sheets := convertRawSheetsToRich rawSheets in
        emit (setJobs jobId
                [status_ success; extractedSheets_ (Some sheets); progressMessage_ None])
  end.

(** The [catch] block. *)
Definition fail (jobId : string) (e : Thrown) : Async unit :=
  let message := messageOf e "An unexpected error occurred." in
  emit (setJobs jobId
          [status_ error; errorMessage_ (Some message); progressMessage_ None]).

Definition processJob (jobToProcess : ProcessJob) : list Event :=
  match file jobToProcess with
  | None =>
      [setJobs (id jobToProcess)
         [status_ error;
          errorMessage_ (Some "File not available. Please re-upload to process.")]]
  | Some f =>
      let jobId := id jobToProcess in
      fst (perform emit (setActiveJobsCount 1);
           tryFinally
             (tryCatch (convert jobToProcess f) (fail jobId))
             (emit (setActiveJobsCount (-1))))
  end.

End processJob.

(** The part of a run that happens inside the caller: everything up to
    and including the first awaited call; and the part that happens later. *)
Fixpoint untilAwait (t : list Event) : list Event * list Event :=
  match t with
  | [] => ([], [])
  | await c :: rest => ([await c], rest)
  | e :: rest => let '(now, later) := untilAwait rest in (e :: now, later)
  end.

(** *** The state of [App]

    The state variables that the queue handlers read or write.
    [inFlight] is not a variable of the source: it holds, for every call
    of [processJob] that is suspended at an [await], what that call still
    has to do. *)
Record App := {
  conversionMode : ConversionMode;
  jobs : list ProcessJob;
  activeJobsCount : Z;
  searchQuery : string;
  selectedJobIds : gset string;
  currentPage : nat;
  inFlight : list (list Event)
}.

Definition withJobs (f : list ProcessJob -> list ProcessJob) (s : App) : App :=
  {| conversionMode := conversionMode s; jobs := f (jobs s);
     activeJobsCount := activeJobsCount s; searchQuery := searchQuery s;
     selectedJobIds := selectedJobIds s; currentPage := currentPage s;
     inFlight := inFlight s |}.

Definition withActiveJobsCount (f : Z -> Z) (s : App) : App :=
  {| conversionMode := conversionMode s; jobs := jobs s;
     activeJobsCount := f (activeJobsCount s); searchQuery := searchQuery s;
     selectedJobIds := selectedJobIds s; currentPage := currentPage s;
     inFlight := inFlight s |}.

Definition withSelectedJobIds (f : gset string -> gset string) (s : App) : App :=
  {| conversionMode := conversionMode s; jobs := jobs s;
     activeJobsCount := activeJobsCount s; searchQuery := searchQuery s;
     selectedJobIds := f (selectedJobIds s); currentPage := currentPage s;
     inFlight := inFlight s |}.

Definition withCurrentPage (f : nat -> nat) (s : App) : App :=
  {| conversionMode := conversionMode s; jobs := jobs s;
     activeJobsCount := activeJobsCount s; searchQuery := searchQuery s;
     selectedJobIds := selectedJobIds s; currentPage := f (currentPage s);
     inFlight := inFlight s |}.

Definition withSearchQuery (q : string) (s : App) : App :=
  {| conversionMode := conversionMode s; jobs := jobs s;
     activeJobsCount := activeJobsCount s; searchQuery := q;
     selectedJobIds := selectedJobIds s; currentPage := currentPage s;
     inFlight := inFlight s |}.

Definition withConversionMode (mode : ConversionMode) (s : App) : App :=
  {| conversionMode := mode; jobs := jobs s;
     activeJobsCount := activeJobsCount s; searchQuery := searchQuery s;
     selectedJobIds := selectedJobIds s; currentPage := currentPage s;
     inFlight := inFlight s |}.

Definition withInFlight (f : list (list Event) -> list (list Event)) (s : App) : App :=
  {| conversionMode := conversionMode s; jobs := jobs s;
     activeJobsCount := activeJobsCount s; searchQuery := searchQuery s;
     selectedJobIds := selectedJobIds s; currentPage := currentPage s;
     inFlight := f (inFlight s) |}.

(** The state after the first render. *)
Definition initialApp (stored : StoredQueue) : App :=
  {| conversionMode := pdf_to_excel; jobs := restoreQueue stored;
     activeJobsCount := 0; searchQuery := ""; selectedJobIds := ∅;
     currentPage := 1; inFlight := [] |}.

(** *** Adding and clearing jobs *)

Definition newJob (mode : ConversionMode) (f : File) : ProcessJob :=
  {| id := name f +:+ "-" +:+ pretty (lastModified f) +:+ "-" +:+ pretty (size f);
     file := Some f;
     fileName := name f;
     fileSize := size f;
     status := queued;
     Types.conversionMode := mode;
     extractedSheets := None;
     errorMessage := None;
     thumbnailUrls := None;
     currentThumbnailIndex := Some (JsNumber.Num 0);
     pdfPageCount := None;
     pageRange := Some "";
     progressMessage := Some "";
     pdfOptions := match mode with
                   | excel_to_pdf => Some DEFAULT_PDF_OPTIONS
                   | pdf_to_excel => None
                   end |}.

Definition handleFileSelect (files : list File) (s : App) : App :=
  let newJobs := newJob (conversionMode s) <$> files in
  withSelectedJobIds (fun _ => ∅)
    (withJobs (fun prevJobs =>
                 let activeJobs := filter (fun job => isActive job = true) prevJobs in
                 activeJobs ++ newJobs) s).

(** The update that a finished [generatePdfThumbnail] queues. *)
Definition thumbnailsGenerated (jobId : string) (urls : option (list string))
    (pageCount : Z) (s : App) : App :=
  withJobs (updateJob jobId [thumbnailUrls_ urls; pdfPageCount_ (Some pageCount)]) s.

Definition handleClearCompleted (s : App) : App :=
  withSelectedJobIds (fun _ => ∅)
    (withJobs (filter (fun job => isActive job = true)) s).

Definition handleClearAll (s : App) : App :=
  withCurrentPage (fun _ => 1%nat)
    (withSelectedJobIds (fun _ => ∅)
       (withSearchQuery "" (withJobs (fun _ => []) s))).

Definition switchConversionMode (mode : ConversionMode) (s : App) : App :=
  if decide (mode = conversionMode s) then s
  else withConversionMode mode (handleClearAll s).

(** *** The scheduler effect *)

Definition applyEvent (s : App) (e : Event) : App :=
  match e with
  | setJobs jobId fields => withJobs (updateJob jobId fields) s
  | setActiveJobsCount delta => withActiveJobsCount (fun prev => prev + delta) s
  | await _ => s
  end.

(** The call [processJob(job)] made by the effect: the call runs to its
    first [await]; what is left of it is then in flight. *)
Definition dispatch (P : Pipelines) (s : App) (job : ProcessJob) : App :=
  let '(now, later) := untilAwait (processJob P job) in
  let s' := foldl applyEvent s now in
  match later with
  | [] => s'
  | _ => withInFlight (fun running => running ++ [later]) s'
  end.

Definition admitted (jobsToStart : list ProcessJob) (j : ProcessJob) : bool :=
  bool_decide (Exists (fun js => id js = id j) jobsToStart).

Definition schedulerEffect (P : Pipelines) (s : App) : App :=
  let availableSlots := MAX_CONCURRENT_JOBS - activeJobsCount s in
  if availableSlots <=? 0 then s
  else
    let jobsToStart :=
      take (Z.to_nat availableSlots)
           (filter (fun job => status job = queued) (jobs s)) in
    if decide (0 < length jobsToStart)%nat then
      let s1 :=
        withJobs (fmap (fun j =>
                          if admitted jobsToStart j then spread j [status_ processing]
                          else j)) s in
      foldl (dispatch P) s1 jobsToStart
    else s.

(** A suspended [processJob] goes on by one event. *)
Definition resume (k : nat) (s : App) : App :=
  match inFlight s !! k with
  | Some (e :: rest) =>
      let s' := applyEvent s e in
      match rest with
      | [] => withInFlight (delete k) s'
      | _ => withInFlight (<[k := rest]>) s'
      end
  | Some [] => withInFlight (delete k) s
  | None => s
  end.

(** *** Downloads *)

(** The libraries that write the output: [jsPDF] with [autoTable], and
    [XLSX.writeFile] on the workbook of [createStyledWorkbook].  Each call
    returns or throws. *)
Record Writers := {
  autoTable : SheetData -> PdfOptions -> Settled unit;
  save : Settled unit;
  writeFile : list SheetData -> Settled unit;
  (** the message of the [TypeError] for a property read on [undefined] *)
  typeErrorMessage : string
}.

Definition doubleQuote : string := String (ascii_of_nat 34) EmptyString.

(** [`${pageRange}`] *)
Definition showPageRange (pageRange : option string) : string :=
  default "undefined" pageRange.

(** [pageRange || ''] *)
Definition orEmpty (pageRange : option string) : string := default "" pageRange.

(** [sheets.filter((_, index) => selectedSheetNumbers.includes(index + 1))] *)
Definition selectSheets (selectedSheetNumbers : list Z) (sheets : list SheetData)
  : list SheetData :=
  omap (fun '(index, sheet) =>
          if decide (Z.of_nat index + 1 ∈ selectedSheetNumbers) then Some sheet else None)
       (imap pair sheets).

(** [sheetsToProcess.forEach(...)]: [sheet.data[0].map] throws on a sheet
    without rows. *)
Fixpoint writeSheets (W : Writers) (options : PdfOptions) (sheetsToProcess : list SheetData)
  : Settled unit :=
  match sheetsToProcess with
  | [] => Resolved tt
  | sheet :: rest =>
      match data sheet with
      | [] => Rejected (ErrorObject (typeErrorMessage W))
      | _ :: _ =>
          match autoTable W sheet options with
          | Resolved _ => writeSheets W options rest
          | Rejected e => Rejected e
          end
      end
  end.

(** [downloadPdfFromSheets]: [None] when [parsePageRange] does not return
    within [fuel] iterations; otherwise whether the call returned or threw. *)
Definition downloadPdfFromSheets (fuel : nat) (W : Writers) (sheets : list SheetData)
    (options : PdfOptions) (pageRange : option string) : option (Settled unit) :=
  let totalSheets := Z.of_nat (length sheets) in
  selectedSheetNumbers ← parsePageRange fuel (orEmpty pageRange) totalSheets;
  let sheetsToProcess := selectSheets selectedSheetNumbers sheets in
  if decide (length sheetsToProcess = 0%nat) then
    Some (Rejected (ErrorObject
            ("No sheets match the specified range: " +:+ doubleQuote
             +:+ showPageRange pageRange +:+ doubleQuote
             +:+ ". Please check your input.")))
  else
    Some (match writeSheets W options sheetsToProcess with
          | Resolved _ => save W
          | Rejected e => Rejected e
          end).

(** The [try] block of [handleDownload]. *)
Definition generateOutput (fuel : nat) (W : Writers) (job : ProcessJob)
    (sheets : list SheetData) : option (Settled unit) :=
  match Types.conversionMode job with
  | pdf_to_excel => Some (writeFile W sheets)
  | excel_to_pdf =>
      downloadPdfFromSheets fuel W sheets
        (default DEFAULT_PDF_OPTIONS (pdfOptions job)) (pageRange job)
  end.

(** [handleDownload(job)] *)
Definition handleDownload (fuel : nat) (W : Writers) (job : ProcessJob) (s : App)
  : option App :=
  match extractedSheets job with
  | None => Some s
  | Some sheets =>
      attempt ← generateOutput fuel W job sheets;
      match attempt with
      | Resolved _ => Some s
      | Rejected e =>
          let message := messageOf e "Failed to generate the output file." in
          Some (withJobs (updateJob (id job)
                            [status_ error; errorMessage_ (Some message)]) s)
      end
  end.

(** *** Retry and the other per-job handlers *)

Definition handleRetry (jobId : string) (s : App) : App :=
  withJobs (updateJob jobId
              [status_ queued; errorMessage_ None; extractedSheets_ None]) s.

(** The retry button of a job row is rendered for [job.status === 'error']
    and carries [disabled={!job.file}]. *)
Definition retryButtonRendered (job : ProcessJob) : bool :=
  bool_decide (status job = error).
Definition retryButtonDisabled (job : ProcessJob) : bool :=
  bool_decide (file job = None).

Definition handlePageRangeChange (jobId range : string) (s : App) : App :=
  withJobs (updateJob jobId [pageRange_ (Some range)]) s.

Inductive Direction := next | prev.

(** [(i + 1) % n] and [(i - 1 + n) % n], on a cursor that may be missing. *)
Definition cycle (direction : Direction) (index : option JsNumber.number) (n : Z)
  : JsNumber.number :=
  match index with
  | Some (JsNumber.Num i) =>
      match direction with
      | next => JsNumber.Num (Z.rem (i + 1) n)
      | prev => JsNumber.Num (Z.rem (i - 1 + n) n)
      end
  | _ => JsNumber.NaN
  end.

Definition handleThumbnailCycle (jobId : string) (direction : Direction) (s : App) : App :=
  withJobs (fmap (fun job =>
      match thumbnailUrls job with
      | Some urls =>
          if decide (id job = jobId ∧ (1 < length urls)%nat) then
            spread job [currentThumbnailIndex_
                          (Some (cycle direction (currentThumbnailIndex job)
                                   (Z.of_nat (length urls))))]
          else job
      | None => job
      end)) s.

(** [handleSaveChanges], for the job on view and the staged sheets. *)
Definition handleSaveChanges (viewingId : string) (editedData : list SheetData) (s : App)
  : App :=
  withJobs (updateJob viewingId [extractedSheets_ (Some editedData)]) s.

Definition handleSavePdfOptions (jobId : string) (newOptions : PdfOptions) (s : App) : App :=
  withJobs (updateJob jobId [pdfOptions_ (Some newOptions)]) s.

(** *** The filtered and paginated view *)

Definition filteredJobs (s : App) : list ProcessJob :=
  filter (fun job =>
            JsString.includesString (JsString.toLowerCase (searchQuery s))
                                    (JsString.toLowerCase (fileName job)) = true
            ∧ Types.conversionMode job = conversionMode s)
         (jobs s).

Definition paginatedJobs (s : App) : list ProcessJob :=
  let startIndex := ((currentPage s - 1) * ITEMS_PER_PAGE)%nat in
  take ITEMS_PER_PAGE (drop startIndex (filteredJobs s)).

(** [Math.ceil(filteredJobs.length / ITEMS_PER_PAGE)] *)
Definition totalPages (s : App) : nat :=
  ((length (filteredJobs s) + ITEMS_PER_PAGE - 1) / ITEMS_PER_PAGE)%nat.

(** The effect that steps back from a page that became empty. *)
Definition pageEffect (s : App) : App :=
  if decide ((1 < currentPage s)%nat ∧ length (paginatedJobs s) = 0%nat)
  then withCurrentPage (fun prev => Nat.max 1 (prev - 1)) s
  else s.

(** Typing in the search box, with the effect that returns to page 1. *)
Definition setSearchQuery (q : string) (s : App) : App :=
  withCurrentPage (fun _ => 1%nat) (withSearchQuery q s).

(** *** Job selection *)

Definition handleToggleSelection (jobId : string) (s : App) : App :=
  withSelectedJobIds (fun prev =>
    if decide (jobId ∈ prev) then prev ∖ {[jobId]} else prev ∪ {[jobId]}) s.

Definition toggleSelectAll (paginatedJobs : list ProcessJob) (selectedJobIds : gset string)
  : gset string :=
  let paginatedJobIds : gset string := list_to_set (id <$> paginatedJobs) in
  let selectedOnPage := filter (fun i => i ∈ paginatedJobIds) (elements selectedJobIds) in
  if decide (length selectedOnPage = length paginatedJobs ∧ (0 < length paginatedJobs)%nat)
  then selectedJobIds ∖ paginatedJobIds
  else selectedJobIds ∪ paginatedJobIds.

Definition handleToggleSelectAll (s : App) : App :=
  withSelectedJobIds (toggleSelectAll (paginatedJobs s)) s.

(** The effect that drops the selected ids that are no longer in the queue. *)
Definition selectionEffect (s : App) : App :=
  let jobIds : gset string := list_to_set (id <$> jobs s) in
  let newSelectedIds := filter (fun i => i ∈ jobIds) (selectedJobIds s) in
  if decide (base.size newSelectedIds = base.size (selectedJobIds s)) then s
  else withSelectedJobIds (fun _ => newSelectedIds) s.

Definition handleDeleteSelected (s : App) : App :=
  withSelectedJobIds (fun _ => ∅)
    (withJobs (filter (fun job => id job ∉ selectedJobIds s)) s).

(** [jobs.find(j => j.id === id)] *)
Definition findJob (jobId : string) (jobs : list ProcessJob) : option ProcessJob :=
  snd <$> list_find (fun j => id j = jobId) jobs.

(** [job?.status === 'error' && job?.file], for [job = jobs.find(...)] *)
Definition retryable (jobs : list ProcessJob) (jobId : string) : bool :=
  match findJob jobId jobs with
  | Some job => bool_decide (status job = error) && bool_decide (is_Some (file job))
  | None => false
  end.

Definition handleRetrySelected (s : App) : App :=
  let jobsToRetryIds :=
    filter (fun i => retryable (jobs s) i = true) (elements (selectedJobIds s)) in
  let s' :=
    if decide (0 < length jobsToRetryIds)%nat then
      withJobs (fmap (fun job =>
                        if decide (id job ∈ jobsToRetryIds)
                        then spread job [status_ queued; errorMessage_ None;
                                         extractedSheets_ None]
                        else job)) s
    else s in
  withSelectedJobIds (fun _ => ∅) s'.

(** *** The application as a transition system

    One action is one event that React handles in one piece: a handler
    called from the rendered page, one run of an effect, or one step of a
    suspended [processJob].  A handler is reachable only through the
    control that calls it, so an action whose control is not rendered or
    is disabled leaves the state as it is.

    [ClickDownload k] and [ClickRetry k] are the buttons of row [k] of the
    visible page.  [SchedulerEffect P] carries the outcomes that the
    pipeline steps of the calls it starts will have, [ClickDownload k W]
    the outcomes of the writing libraries.  [Resume k] lets the [k]-th
    suspended call of [processJob] go on.  [SaveChanges] carries the job
    on view and the staged sheets of the viewer. *)
Inductive Action :=
  | FileSelect (files : list File)
  | ThumbnailsGenerated (jobId : string) (urls : option (list string)) (pageCount : Z)
  | ClearCompleted
  | ClearAll
  | SwitchConversionMode (mode : ConversionMode)
  | SchedulerEffect (P : Pipelines)
  | Resume (k : nat)
  | ClickDownload (k : nat) (W : Writers) (fuel : nat)
  | ClickRetry (k : nat)
  | PageRangeChange (jobId range : string)
  | ThumbnailCycle (jobId : string) (direction : Direction)
  | SaveChanges (viewingId : string) (editedData : list SheetData)
  | SavePdfOptions (jobId : string) (newOptions : PdfOptions)
  | SearchQuery (q : string)
  | PreviousPage
  | NextPage
  | PageEffect
  | ToggleSelection (jobId : string)
  | ToggleSelectAll
  | ClearSelection
  | SelectionEffect
  | DeleteSelected
  | RetrySelected
  | DownloadSelected.

(** [<FileUpload disabled={activeJobsCount > 0} />] passes on a non-empty
    list of accepted files. *)
Definition uploadEnabled (files : list File) (s : App) : bool :=
  negb (0 <? activeJobsCount s) && bool_decide (files ≠ []).

(** [canRetrySelected] *)
Definition canRetrySelected (s : App) : bool :=
  bool_decide (Exists (fun j => id j ∈ selectedJobIds s ∧ status j = error ∧ is_Some (file j))
                      (jobs s)).

(** The bar with the select-all box is rendered when something is
    selected and the filtered view is not empty. *)
Definition selectionBarRendered (s : App) : bool :=
  bool_decide (0 < base.size (selectedJobIds s))%nat
  && bool_decide (0 < length (filteredJobs s))%nat.

(** The state after an action; [None] when the handler does not return
    (see [downloadPdfFromSheets]). *)
Definition step (a : Action) (s : App) : option App :=
  match a with
  | FileSelect files =>
      Some (if uploadEnabled files s then handleFileSelect files s else s)
  | ThumbnailsGenerated jobId urls pageCount =>
      Some (thumbnailsGenerated jobId urls pageCount s)
  | ClearCompleted => Some (handleClearCompleted s)
  | ClearAll => Some (handleClearAll s)
  | SwitchConversionMode mode => Some (switchConversionMode mode s)
  | SchedulerEffect P => Some (schedulerEffect P s)
  | Resume k => Some (resume k s)
  | ClickDownload k W fuel =>
      match paginatedJobs s !! k with
      | Some job =>
          if bool_decide (status job = success) then handleDownload fuel W job s
          else Some s
      | None => Some s
      end
  | ClickRetry k =>
      match paginatedJobs s !! k with
      | Some job =>
          Some (if retryButtonRendered job && negb (retryButtonDisabled job)
                then handleRetry (id job) s else s)
      | None => Some s
      end
  | PageRangeChange jobId range => Some (handlePageRangeChange jobId range s)
  | ThumbnailCycle jobId direction => Some (handleThumbnailCycle jobId direction s)
  | SaveChanges viewingId editedData => Some (handleSaveChanges viewingId editedData s)
  | SavePdfOptions jobId newOptions => Some (handleSavePdfOptions jobId newOptions s)
  | SearchQuery q => Some (setSearchQuery q s)
  | PreviousPage =>
      Some (if decide (currentPage s = 1%nat) then s
            else withCurrentPage (fun p => (p - 1)%nat) s)
  | NextPage =>
      Some (if decide (currentPage s = totalPages s) then s
            else withCurrentPage (fun p => (p + 1)%nat) s)
  | PageEffect => Some (pageEffect s)
  | ToggleSelection jobId => Some (handleToggleSelection jobId s)
  | ToggleSelectAll =>
      Some (if selectionBarRendered s then handleToggleSelectAll s else s)
  | ClearSelection => Some (withSelectedJobIds (fun _ => ∅) s)
  | SelectionEffect => Some (selectionEffect s)
  | DeleteSelected => Some (handleDeleteSelected s)
  | RetrySelected => Some (if canRetrySelected s then handleRetrySelected s else s)
  | DownloadSelected =>
      (* [handleDownloadSelected] writes a zip file and, when it gets to
         its end, clears the selection *)
      Some (withSelectedJobIds (fun _ => ∅) s)
  end.

(** The states that the application can be in. *)
Inductive reachable : App -> Prop :=
  | reachable_initial stored : reachable (initialApp stored)
  | reachable_step s a s' : reachable s -> step a s = Some s' -> reachable s'.

Fixpoint run (actions : list Action) (s : App) : option App :=
  match actions with
  | [] => Some s
  | a :: rest => s' ← step a s; run rest s'
  end.

(** The number of jobs shown as processing. *)
Definition processingCount (jobs : list ProcessJob) : Z :=
  Z.of_nat (length (filter (fun j => status j = processing) jobs)).

(** *** What the queue maintains *)

Definition isCounter (e : Event) : bool :=
  match e with setActiveJobsCount _ => true | _ => false end.

Definition isAwait (e : Event) : bool :=
  match e with await _ => true | _ => false end.

(** Fields that neither touch the file handle nor make a job active. *)
Definition settlingField (f : Field) : bool :=
  match f with
  | file_ _ | status_ queued | status_ processing => false
  | _ => true
  end.

Definition settling (e : Event) : bool :=
  match e with
  | setJobs _ fields => forallb settlingField fields
  | _ => true
  end.

(** What is left of a [processJob] call that holds a slot: some work that
    leaves the counter alone, then the decrement. *)
Definition holdsSlot (t : list Event) : Prop :=
  ∃ work, t = work ++ [setActiveJobsCount (-1)]
          ∧ Forall (fun e => isCounter e = false) work.

(** Either no job has its file (and none is active), or every job has it. *)
Definition uniformFiles (jobs : list ProcessJob) : Prop :=
  Forall (fun j => file j = None ∧ isActive j = false) jobs
  ∨ Forall (fun j => is_Some (file j)) jobs.

(** No job of [after] has status [st] unless a job of [before] with its
    id had it. *)
Definition noneEnters (st : ProcessJobStatus) (before after : list ProcessJob) : Prop :=
  ∀ j', j' ∈ after → status j' = st →
        ∃ j, j ∈ before ∧ id j = id j' ∧ status j = st.

(** The two actions that retry. *)
Definition isRetry (a : Action) : bool :=
  match a with
  | ClickRetry _ | RetrySelected => true
  | _ => false
  end.

(** [{ ...job, status: 'queued', errorMessage: null, extractedSheets: null }] *)
Definition requeued (job : ProcessJob) : ProcessJob :=
  spread job [status_ queued; errorMessage_ None; extractedSheets_ None].

(** The job whose status a suspended [processJob] will set next, if it
    is to set one. *)
Definition setsStatus (f : Field) : bool :=
  match f with status_ _ => true | _ => false end.

Definition terminalFor (e : Event) : option string :=
  match e with
  | setJobs jobId fields => if existsb setsStatus fields then Some jobId else None
  | _ => None
  end.

Fixpoint target (t : list Event) : option string :=
  match t with
  | [] => None
  | e :: rest =>
      match terminalFor e with
      | Some jobId => Some jobId
      | None => target rest
      end
  end.

(** Every job shown as processing is awaited by a call in flight. *)
Definition accounted (s : App) : Prop :=
  ∀ j, j ∈ jobs s → status j = processing →
       ∃ k t, inFlight s !! k = Some t ∧ target t = Some (id j).

Record invariant (s : App) : Prop := {
  inv_counter : activeJobsCount s = Z.of_nat (length (inFlight s));
  inv_ceiling : activeJobsCount s ≤ MAX_CONCURRENT_JOBS;
  inv_slots : Forall holdsSlot (inFlight s);
  inv_settling : Forall (Forall (fun e => settling e = true)) (inFlight s);
  inv_files : uniformFiles (jobs s)
}.

End Queue.

(** ** Concrete files, jobs and sheets *)
Module Examples.
Import Types Sheets Queue.

(** Four files that agree on name, modification time and size, such as
    copies of one document dropped from four folders. *)
Definition copy (n : nat) : File :=
  {| name := "report.pdf"; lastModified := 1700000000000; size := 48211; content := n |}.
Definition copies : list File := [copy 0; copy 1; copy 2; copy 3].

Definition table : RawSheet :=
  {| rawSheetName := "Table 1"; rawData := [["Item"; "Price"]; ["Tea"; "3"]] |}.

(** Pipelines in which every step succeeds. *)
Definition succeeding : Pipelines :=
  {| convertPdfToImages := fun _ _ => (["Converting page 1 of 1..."], Resolved ["image"]);
     extractDataFromPdfImages := fun _ => Resolved [table];
     readExcelData := fun _ => Resolved [table] |}.

(** Pipelines in which the extraction service fails. *)
Definition failing : Pipelines :=
  {| convertPdfToImages := fun _ _ => ([], Resolved ["image"]);
     extractDataFromPdfImages :=
       fun _ => Rejected (ErrorObject "No tables were detected in the document.");
     readExcelData := fun _ => Rejected OtherValue |}.

Definition writers : Writers :=
  {| autoTable := fun _ _ => Resolved tt;
     save := Resolved tt;
     writeFile := fun _ => Resolved tt;
     typeErrorMessage := "Cannot read properties of undefined (reading 'map')" |}.

Definition cell (text : string) : CellData := {| value := text; style := Some emptyStyle |}.

Definition sheet (title : string) : SheetData :=
  {| sheetName := title; data := [[cell "Item"; cell "Price"]; [cell "Tea"; cell "3"]] |}.

(** A finished spreadsheet job with three sheets and the sheet filter "5". *)
Definition workbook : ProcessJob :=
  {| id := "book.xlsx-1700000000000-9000";
     file := Some {| name := "book.xlsx"; lastModified := 1700000000000;
                     size := 9000; content := 7 |};
     fileName := "book.xlsx"; fileSize := 9000; status := success;
     Types.conversionMode := excel_to_pdf;
     extractedSheets := Some [sheet "Q1"; sheet "Q2"; sheet "Q3"];
     errorMessage := None; thumbnailUrls := None;
     currentThumbnailIndex := Some (JsNumber.Num 0); pdfPageCount := None;
     pageRange := Some "5"; progressMessage := None;
     pdfOptions := Some DEFAULT_PDF_OPTIONS |}.

Definition withWorkbook : App :=
  {| conversionMode := excel_to_pdf; jobs := [workbook]; activeJobsCount := 0;
     searchQuery := ""; selectedJobIds := ∅; currentPage := 1; inFlight := [] |}.

(** The selection that holds the workbook job and nothing else. *)
Definition workbookSelected : gset string := {[id workbook]}.

(** A job as it was saved while it was being processed. *)
Definition savedProcessing : ProcessJob :=
  {| id := "report.pdf-1700000000000-48211"; file := None;
     fileName := "report.pdf"; fileSize := 48211; status := processing;
     Types.conversionMode := pdf_to_excel; extractedSheets := None;
     errorMessage := None; thumbnailUrls := None;
     currentThumbnailIndex := Some (JsNumber.Num 0); pdfPageCount := Some 2;
     pageRange := Some ""; progressMessage := Some "Converting page 1 of 2...";
     pdfOptions := None |}.

(** A ragged sheet: the second row is shorter than the first. *)
Definition ragged : SheetData :=
  {| sheetName := "Table 1"; data := [[cell "Item"; cell "Price"]; [cell "Tea"]] |}.

(** The rectangle that a click on row 0, column 1 and a shift-click on
    row 1, column 0 select. *)
Definition twoByTwo : Rect :=
  {| start := {| row := 0; col := 0 |}; end_ := {| row := 1; col := 1 |} |}.

Definition boldPatch : Partial.CellStyle :=
  {| Partial.bold := Some (Some true); Partial.italic := None; Partial.underline := None;
     Partial.strikethrough := None; Partial.color := None; Partial.align := None |}.

Definition white : CellStyle :=
  {| bold := None; italic := None; underline := None; strikethrough := None;
     color := Some "#fff"; align := None |}.

Definition whiteCell : CellData := {| value := "Tea"; style := Some white |}.

Definition oneCell : Rect :=
  {| start := {| row := 0; col := 0 |}; end_ := {| row := 0; col := 0 |} |}.

End Examples.


(** ** What a token of a range expression names *)
Module Tokens.
Import JsNumber JsString PageRange.

(** The two numbers of a token that contains a dash, as
    [part.split('-').map(s => parseInt(s.trim(), 10))] gives them. *)
Definition rangeBounds (part : string) : option (number * number) :=
  match (fun s => parseInt (trim s)) <$> split "-" part with
  | start :: end_ :: _ => Some (start, end_)
  | _ => None
  end.

(** The pages that a token names: the numbers from start to end of a
    range, or the one number of a token without a dash. *)
Definition names (part : string) (p : Z) : Prop :=
  if includes "-" part
  then ∃ a b, rangeBounds part = Some (Num a, Num b) ∧ a ≤ p ≤ b
  else parseInt (trim part) = Num p.

(** A range token whose loop comes to an end: it is skipped, or it ends
    below [2^53]. *)
Definition bounded (part : string) : bool :=
  if includes "-" part then
    match rangeBounds part with
    | Some (start, end_) =>
        isNaN start || isNaN end_ || negb (le start end_)
        || match end_ with Num b => b <? 2 ^ 53 | _ => false end
    | None => true
    end
  else true.

(** A number that a loop counter cannot leave: [2^53] or more. *)
Definition big (x : number) : Prop :=
  x = Inf false ∨ ∃ i, x = Num i ∧ 2 ^ 53 ≤ i.

End Tokens.

(** ** The editor: one edited cell, and the keyboard *)
Module Editor.
Import Types Sheets.

(** [sheets] with the text of the cell at [rowIndex], [cellIndex] of
    sheet [sheetIndex] replaced and nothing else changed: what a cell
    change is meant to produce. *)
Definition retextAt (sheetIndex rowIndex cellIndex : nat) (text : string)
    (sheets : list SheetData) : list SheetData :=
  imap (fun i sheet =>
          if decide (i = sheetIndex) then
            {| sheetName := sheetName sheet;
               data := imap (fun r cells =>
                               imap (fun c cell =>
                                       if decide (r = rowIndex ∧ c = cellIndex)
                                       then {| value := text; style := Types.style cell |}
                                       else cell)
                                    cells)
                            (data sheet) |}
          else sheet)
       sheets.

(** The raw sheet that reading the text of every cell gives back, as
    [row.map(cell => cell.value)] does for the PDF output. *)
Definition textOf (sheet : SheetData) : RawSheet :=
  {| rawSheetName := sheetName sheet; rawData := map (map value) (data sheet) |}.

(** The keys that [handleKeyDown] of [DataTable.tsx] tells apart. *)
Inductive Key := ArrowUp | ArrowDown | ArrowLeft | ArrowRight | Tab | OtherKey.

(** The [switch] of [handleKeyDown]: [nextRow] and [nextCell].
    [totalRows] is the number of rows of the active sheet, [totalCols]
    the length of its first row. *)
Definition nextPosition (totalRows totalCols : Z) (key : Key) (shiftKey : bool)
    (rowIndex cellIndex : Z) : Z * Z :=
  match key with
  | ArrowUp => (Z.max 0 (rowIndex - 1), cellIndex)
  | ArrowDown => (Z.min (totalRows - 1) (rowIndex + 1), cellIndex)
  | ArrowLeft => (rowIndex, Z.max 0 (cellIndex - 1))
  | ArrowRight => (rowIndex, Z.min (totalCols - 1) (cellIndex + 1))
  | Tab =>
      if shiftKey then
        if 0 <? cellIndex then (rowIndex, cellIndex - 1)
        else if 0 <? rowIndex then (rowIndex - 1, totalCols - 1)
        else (rowIndex, cellIndex)
      else
        if cellIndex <? totalCols - 1 then (rowIndex, cellIndex + 1)
        else if rowIndex <? totalRows - 1 then (rowIndex + 1, 0)
        else (rowIndex, cellIndex)
  | OtherKey => (rowIndex, cellIndex)
  end.

(** [handleKeyDown]: the row and column of the cell that becomes the
    active cell and the selection, or [None] when both stay as they are. *)
Definition handleKeyDown (totalRows totalCols : Z) (key : Key) (shiftKey : bool)
    (rowIndex cellIndex : Z) : option (Z * Z) :=
  match key with
  | OtherKey => None
  | _ =>
      let '(nextRow, nextCell) :=
        nextPosition totalRows totalCols key shiftKey rowIndex cellIndex in
      if decide (nextRow ≠ rowIndex ∨ nextCell ≠ cellIndex)
      then Some (nextRow, nextCell)
      else None
  end.

End Editor.

(** ** The select-all box of the selection bar *)
Module SelectAll.
Import Types Queue.

(** The two properties that the effect on [selectedJobIds] and
    [paginatedJobs] writes to the box, when the box is rendered. *)
Record Checkbox := {
  checked : bool;
  indeterminate : bool
}.

Definition selectAllCheckboxEffect (paginatedJobs : list ProcessJob)
    (selectedJobIds : gset string) : Checkbox :=
  let paginatedJobIds : gset string := list_to_set (id <$> paginatedJobs) in
  if decide (base.size paginatedJobIds = 0%nat) then
    {| checked := false; indeterminate := false |}
  else
    let selectedOnPageCount :=
      length (filter (fun i => i ∈ paginatedJobIds) (elements selectedJobIds)) in
    if decide (selectedOnPageCount = 0%nat) then
      {| checked := false; indeterminate := false |}
    else if decide (selectedOnPageCount = length paginatedJobs) then
      {| checked := true; indeterminate := false |}
    else
      {| checked := false; indeterminate := true |}.

End SelectAll.

(** ** The thumbnail cursor *)
Module Thumbnails.
Import Types Queue.

(** The cursor of a job points at one of its thumbnails. *)
Definition cursorInRange (job : ProcessJob) : Prop :=
  ∀ urls, thumbnailUrls job = Some urls →
    ∃ i, currentThumbnailIndex job = Some (JsNumber.Num i)
         ∧ 0 ≤ i < Z.of_nat (length urls).

End Thumbnails.

(** ** What the queue never changes, and what it keeps present *)
Module Provenance.
Import Types Sheets Queue.

(** Two versions of one job: the same id, file, file name, file size and
    conversion mode. *)
Definition sameSource (j j' : ProcessJob) : Prop :=
  id j' = id j ∧ file j' = file j ∧ fileName j' = fileName j
  ∧ fileSize j' = fileSize j ∧ Types.conversionMode j' = Types.conversionMode j.

Definition keepsFile (f : Field) : bool :=
  match f with file_ _ => false | _ => true end.

(** The raw sheets that a pipeline of [P] hands to [processJob] for a
    job: those that the extraction of a PDF job resolves with, or the
    sheets, not none, that reading a spreadsheet resolves with. *)
Definition produced (P : Pipelines) (job : ProcessJob) (rawSheets : list RawSheet) : Prop :=
  match Types.conversionMode job with
  | pdf_to_excel => ∃ images, extractDataFromPdfImages P images = Resolved rawSheets
  | excel_to_pdf => rawSheets ≠ [] ∧ ∃ f, readExcelData P f = Resolved rawSheets
  end.

(** A job that is shown as converted has its result sheets. *)
Definition presentable (j : ProcessJob) : Prop :=
  status j = success → is_Some (extractedSheets j).

(** A state update after which a presentable job is presentable. *)
Definition keepsPresentable (e : Event) : Prop :=
  match e with
  | setJobs _ fields => ∀ j, presentable j → presentable (spread j fields)
  | _ => True
  end.

Definition resultsPresent (s : App) : Prop :=
  Forall presentable (jobs s)
  ∧ Forall (Forall keepsPresentable) (inFlight s).

(** Every job is of the mode on show, or the queue is the one restored
    at start-up, in which no job has its file. *)
Definition oneMode (s : App) : Prop :=
  Forall (fun j => Types.conversionMode j = conversionMode s) (jobs s)
  ∨ (conversionMode s = pdf_to_excel ∧ Forall (fun j => file j = None) (jobs s)).

(** [canDownloadSelected], and the jobs that [handleDownloadSelected]
    puts into the zip file. *)
Definition canDownloadSelected (s : App) : bool :=
  bool_decide (Exists (fun j => id j ∈ selectedJobIds s ∧ status j = success) (jobs s)).

Definition jobsToDownload (s : App) : list ProcessJob :=
  filter (fun j => id j ∈ selectedJobIds s ∧ status j = success
                   ∧ is_Some (extractedSheets j))
         (jobs s).

End Provenance.

(** ** The extraction service ([geminiService.ts]) *)
Module Gemini.
Import Sheets Queue.

(** What [extractDataFromPdfImages] reads of the response of
    [ai.models.generateContent]: [candidates?.[0]?.finishReason] and
    [text]. *)
Record Response := {
  finishReason : option string;
  text : option string
}.

(** An element of [result.sheets], as the filter types it:
    [{data?: any[][]}], with the name that the caller reads. *)
Record ParsedSheet := {
  parsedName : string;
  parsedData : option (list (list string))
}.

(** What [JSON.parse(jsonString)] gives, as far as the checks tell
    results apart: it throws; the result is [null], on which
    [result.sheets] throws a [TypeError]; [result.sheets] is missing or
    not an array; or it is an array. *)
Inductive Parsed :=
  | Malformed
  | NullResult (typeErrorMessage : string)
  | WithoutSheets
  | WithSheets (sheets : list ParsedSheet).

(** [sheet.data && sheet.data.length > 1 && sheet.data[0] && sheet.data[0].length > 0] *)
Definition isValidSheet (sheet : ParsedSheet) : bool :=
  match parsedData sheet with
  | Some (header :: _ :: _) => bool_decide (0 < length header)%nat
  | _ => false
  end.

Definition toRawSheet (sheet : ParsedSheet) : RawSheet :=
  {| rawSheetName := parsedName sheet; rawData := default [] (parsedData sheet) |}.

Section Service.
Context (generateContent : list string -> Settled Response)
        (JSON_parse : string -> Parsed).

(** The outer [try] block after the awaited call. *)
Definition validate (response : Response) : Settled (list RawSheet) :=
  if bool_decide (finishReason response = Some "SAFETY") then
    Rejected (ErrorObject "The response was blocked for safety reasons. The document may contain sensitive content.")
  else
    match text response with
    | None | Some EmptyString =>
        Rejected (ErrorObject "The AI returned an empty response. No data could be extracted.")
    | Some jsonString =>
        match JSON_parse jsonString with
        | Malformed =>
            Rejected (ErrorObject "The AI returned a malformed data structure that could not be read.")
        | NullResult typeErrorMessage => Rejected (ErrorObject typeErrorMessage)
        | WithoutSheets =>
            Rejected (ErrorObject "The AI response was missing the expected 'sheets' data structure.")
        | WithSheets sheets =>
            if decide (length sheets = 0%nat) then
              Rejected (ErrorObject "No tables were detected in the document.")
            else
              let validSheets := filter (fun sheet => isValidSheet sheet = true) sheets in
              if decide (length validSheets = 0%nat) then
                Rejected (ErrorObject "The detected tables appear to be empty or contain only headers.")
              else Resolved (toRawSheet <$> validSheets)
        end
    end.

(** [extractDataFromPdfImages]: the [try] block, and the [catch] block
    that throws an [Error] again and anything else as a new [Error]. *)
Definition extractDataFromPdfImages (images : list string) : Settled (list RawSheet) :=
  let attempt :=
    match generateContent images with
    | Resolved response => validate response
    | Rejected e => Rejected e
    end in
  match attempt with
  | Resolved validSheets => Resolved validSheets
  | Rejected (ErrorObject message) => Rejected (ErrorObject message)
  | Rejected OtherValue =>
      Rejected (ErrorObject "An unknown error occurred during data extraction.")
  end.

End Service.

(** A table: a header row with a cell, and at least one more row. *)
Definition isTable {A} (rows : list (list A)) : Prop :=
  ∃ header second rest, rows = header :: second :: rest ∧ header ≠ [].

End Gemini.

(** ** Reading a spreadsheet ([readExcelData] of [App.tsx]) *)
Module Excel.
Import Sheets Queue.

(** How reading the file ends: [onerror] is called with an event, or
    [onload] runs, where [XLSX.read] and [sheet_to_aoa] give the sheets
    of the workbook in the order of [SheetNames], or one of them throws. *)
Inductive ReadOutcome :=
  | ReadError
  | Loaded (workbook : Settled (list RawSheet)).

(** [readExcelData]: how the promise settles.  The event that [onerror]
    rejects with is not an [Error]. *)
Definition readExcelData (read : ReadOutcome) : Settled (list RawSheet) :=
  match read with
  | ReadError => Rejected OtherValue
  | Loaded (Resolved sheets) =>
      Resolved (filter (fun s => (0 < length (rawData s))%nat) sheets)
  | Loaded (Rejected error) => Rejected error
  end.

End Excel.

(** ** Reading a PDF file: thumbnails and page images ([App.tsx]) *)
Module Pdf.
Import JsNumber PageRange Types Queue.

(** How [FileReader.readAsArrayBuffer] ends: [onerror], [onload] without
    a result, or [onload] with the bytes. *)
Inductive ReadOutcome := ReadError | NoResult | Bytes.

(** What the [catch] blocks tell apart in a thrown value:
    [error instanceof Error && error.name === 'PasswordException'], or
    anything else. *)
Inductive Failure := PasswordException | OtherFailure.

(** An opened document: [numPages], and how drawing a page ends.  The
    steps [pdf.getPage], [canvas.getContext] and [page.render] return and
    [canvas.toDataURL] gives the URL, or one of them throws.
    [thumbnailOf i safeMode] is the drawing at scale 0.5, [safeMode]
    being the second attempt with [disableFontFace] and [useSystemFonts];
    [imageOf i] is the drawing at scale 2. *)
Record Document := {
  numPages : Z;
  thumbnailOf : Z -> bool -> option string;
  imageOf : Z -> Failure + string
}.

Record ThumbnailResult := {
  urls : option (list string);
  pageCount : Z
}.

(** The body of the loop of [generatePdfThumbnail]: the first attempt,
    and the attempt in safe mode when the first throws. *)
Definition renderThumbnail (pdf : Document) (i : Z) : option string :=
  match thumbnailOf pdf i false with
  | Some url => Some url
  | None => thumbnailOf pdf i true
  end.

(** [generatePdfThumbnail]: the value that the promise resolves with. *)
Definition generatePdfThumbnail (read : ReadOutcome) (opened : Failure + Document)
  : ThumbnailResult :=
  match read, opened with
  | Bytes, inr pdf =>
      let pageCount := numPages pdf in
      let MAX_THUMBNAILS := Z.min 5 pageCount in
      let urls := omap (renderThumbnail pdf) (seqZ 1 MAX_THUMBNAILS) in
      {| urls := if decide (0 < length urls)%nat then Some urls else None;
         pageCount := pageCount |}
  | _, _ => {| urls := None; pageCount := 0 |}
  end.

(** [`Converting page ${i + 1} of ${pagesToConvert.length}...`] *)
Definition progress (i n : nat) : string :=
  "Converting page " +:+ pretty (i + 1)%nat +:+ " of " +:+ pretty n +:+ "...".

(** [dataUrl.split(',')[1]]; a data URL has a comma. *)
Definition payload (dataUrl : string) : string :=
  default "" (JsString.split "," dataUrl !! 1%nat).

(** The loop of [convertPdfToImages] from index [i] on: the messages
    passed to [onProgress], and the images or what was thrown. *)
Fixpoint renderPages (pdf : Document) (n i : nat) (pages : list Z) (images : list string)
  : list string * (Failure + list string) :=
  match pages with
  | [] => ([], inr images)
  | pageNum :: rest =>
      match imageOf pdf pageNum with
      | inl failure => ([progress i n], inl failure)
      | inr dataUrl =>
          let '(messages, outcome) :=
            renderPages pdf n (S i) rest (images ++ [payload dataUrl]) in
          (progress i n :: messages, outcome)
      end
  end.

(** The [catch] block of [convertPdfToImages]. *)
Definition conversionError (failure : Failure) : Thrown :=
  match failure with
  | PasswordException =>
      ErrorObject "The PDF is password-protected and cannot be processed."
  | OtherFailure =>
      ErrorObject "Failed to convert PDF to images. The file might be corrupted."
  end.

(** [convertPdfToImages]: the messages passed to [onProgress] and how the
    promise settles; [None] when [parsePageRange] does not return within
    [fuel] iterations. *)
Definition convertPdfToImages (fuel : nat) (read : ReadOutcome)
    (opened : Failure + Document) (pageRange : string)
  : option (list string * Settled (list string)) :=
  match read with
  | ReadError => Some ([], Rejected (ErrorObject "Failed to read the PDF file."))
  | NoResult => Some ([], Rejected (ErrorObject "Failed to read file."))
  | Bytes =>
      match opened with
      | inl failure => Some ([], Rejected (conversionError failure))
      | inr pdf =>
          pagesToConvert ← parsePageRange fuel pageRange (numPages pdf);
          if decide (length pagesToConvert = 0%nat) then
            Some (["No pages selected for conversion."], Resolved [])
          else
            let '(messages, outcome) :=
              renderPages pdf (length pagesToConvert) 0 pagesToConvert [] in
            Some (messages,
                  match outcome with
                  | inl failure => Rejected (conversionError failure)
                  | inr images => Resolved images
                  end)
      end
  end.

End Pdf.

(** ** The upload box ([FileUpload.tsx]) *)
Module FileUpload.
Import JsString Types.

(** A [File] of the browser with its [type], the MIME type. *)
Record TypedFile := {
  theFile : File;
  mimeType : string
}.

(** [accept.split(',').map(t => t.trim())] *)
Definition acceptedTypes (accept : string) : list string :=
  trim <$> split "," accept.

(** ['.' + file.name.split('.').pop()?.toLowerCase()] *)
Definition extension (file : TypedFile) : string :=
  "." +:+ toLowerCase (List.last (split "." (name (theFile file))) "").

Definition isFileValid (accept : string) (file : TypedFile) : bool :=
  bool_decide (mimeType file ∈ acceptedTypes accept)
  || bool_decide (extension file ∈ acceptedTypes accept).

(** The loop that fills [validFiles] and [invalidFiles]. *)
Definition sortFiles (accept : string) (files : list TypedFile)
  : list TypedFile * list TypedFile :=
  foldl (fun '(validFiles, invalidFiles) file =>
           if isFileValid accept file then (validFiles ++ [file], invalidFiles)
           else (validFiles, invalidFiles ++ [file]))
        ([], []) files.

Definition ignoredMessage (fileTypeDescription : string) (invalidFiles : list TypedFile)
  : string :=
  let invalidFileNames :=
    String.concat ", " (take 3 ((fun f => name (theFile f)) <$> invalidFiles)) in
  let additionalFilesCount :=
    if decide (3 < length invalidFiles)%nat
    then " and " +:+ pretty (length invalidFiles - 3)%nat +:+ " more"
    else "" in
  "Ignored non-" +:+ fileTypeDescription +:+ " files: " +:+ invalidFileNames
  +:+ additionalFilesCount.

(** [processFiles]: the next [validationError], and the argument of
    [onFileSelect] when it is called. *)
Definition processFiles (accept fileTypeDescription : string)
    (fileList : option (list TypedFile)) (validationError : option string)
  : option string * option (list File) :=
  match fileList with
  | None => (validationError, None)
  | Some files =>
      let '(validFiles, invalidFiles) := sortFiles accept files in
      (if decide (0 < length invalidFiles)%nat
       then Some (ignoredMessage fileTypeDescription invalidFiles)
       else None,
       if decide (0 < length validFiles)%nat then Some (theFile <$> validFiles) else None)
  end.

(** [handleDrop], for the files of [e.dataTransfer]. *)
Definition handleDrop (disabled : bool) (accept fileTypeDescription : string)
    (files : list TypedFile) (validationError : option string)
  : option string * option (list File) :=
  if disabled then (validationError, None)
  else processFiles accept fileTypeDescription (Some files) None.

End FileUpload.

(** ** Sheet names of the workbook ([createStyledWorkbook]) *)
Module Workbook.

Local Open Scope char_scope.

(** The class [[/\\?*:[\]]] of the regular expression. *)
Definition isForbidden (c : ascii) : bool :=
  existsb (Ascii.eqb c) ["/"; "\"; "?"; "*"; ":"; "["; "]"].

(** [s.replace(/[/\\?*:[\]]/g, '')] *)
Fixpoint removeForbidden (s : string) : string :=
  match s with
  | EmptyString => EmptyString
  | String c r =>
      if isForbidden c then removeForbidden r else String c (removeForbidden r)
  end.

(** [sheet.sheetName.replace(/[/\\?*:[\]]/g, '').substring(0, 31)] *)
Definition sanitizedSheetName (sheetName : string) : string :=
  String.substring 0 31 (removeForbidden sheetName).

End Workbook.

(** ** Concrete runs of the queue, a service and a document *)
Module Scenarios.
Import Types Sheets Queue Gemini Pdf.

(** One PDF file has been added to the empty queue. *)
Definition oneQueued : App := handleFileSelect [Examples.copy 0] (initialApp NoItem).

(** The scheduler effect has started its conversion. *)
Definition started : App := schedulerEffect Examples.succeeding oneQueued.

(** What the call in flight still has to do. *)
Definition pending : list Event := default [] (inFlight started !! 0%nat).

(** The job as the scheduler effect leaves it. *)
Definition startedJob : ProcessJob :=
  spread (newJob pdf_to_excel (Examples.copy 0)) [status_ processing].

(** Adding the file, starting the conversion and letting it run to its
    end. *)
Definition conversion : list Action :=
  [FileSelect [Examples.copy 0]; SchedulerEffect Examples.succeeding;
   Resume 0; Resume 0; Resume 0; Resume 0; Resume 0; Resume 0].

(** The queued job with three thumbnails. *)
Definition withThumbnails : App :=
  thumbnailsGenerated (id (newJob pdf_to_excel (Examples.copy 0)))
    (Some ["page 1"; "page 2"; "page 3"]) 3 oneQueued.

(** A model that answers with one table, whatever it is asked. *)
Definition answer : Response :=
  {| finishReason := Some "STOP"; text := Some "{ sheets: [ Table 1 ] }" |}.

Definition parsedAnswer : Parsed :=
  WithSheets [ {| parsedName := "Table 1";
                  parsedData := Some [["Item"; "Price"]; ["Tea"; "3"]] |} ].

Definition service : Pipelines :=
  {| Queue.convertPdfToImages := fun _ _ => ([], Resolved ["image"]);
     Queue.extractDataFromPdfImages :=
       Gemini.extractDataFromPdfImages (fun _ => Resolved answer) (fun _ => parsedAnswer);
     readExcelData := fun _ => Rejected OtherValue |}.

(** A document of three pages, each of which can be drawn. *)
Definition document : Document :=
  {| numPages := 3;
     thumbnailOf := fun _ _ => Some "data:image/jpeg;base64,AAAA";
     imageOf := fun _ => inr "data:image/jpeg;base64,BBBB" |}.

(** A spreadsheet that cannot be read. *)
Definition unreadable : Pipelines :=
  {| Queue.convertPdfToImages := fun _ _ => ([], Resolved ["image"]);
     Queue.extractDataFromPdfImages := fun _ => Resolved [Examples.table];
     Queue.readExcelData := fun _ => Excel.readExcelData Excel.ReadError |}.

End Scenarios.

(** * Properties *)

(** ** The page-range parser *)
Section PageRangeFacts.
Import JsNumber JsString PageRange.

Lemma Set_add_ok maxPages i pages :
  1 ≤ i ≤ maxPages → pagesOk maxPages pages → pagesOk maxPages (Set_add i pages).
Proof.
  intros Hi [Hnd Hall]. unfold Set_add.
  destruct (decide (i ∈ pages)) as [|Hni]; [done|]. split.
  - apply NoDup_app. split_and!; [done| |apply NoDup_singleton].
    intros x Hx ->%list_elem_of_singleton. done.
  - apply Forall_app. split; [done|]. by apply Forall_singleton.
Qed.

Lemma addIfInBounds_ok maxPages i pages :
  pagesOk maxPages pages → pagesOk maxPages (addIfInBounds i maxPages pages).
Proof.
  intros Hok. destruct i as [|z|b]; simpl; try done.
  destruct (negb (z <=? 0) && (z <=? maxPages)) eqn:Hb; [|done].
  apply andb_true_iff in Hb as [H1%negb_true_iff%Z.leb_gt H2%Z.leb_le].
  apply Set_add_ok; [lia|done].
Qed.

Lemma forRange_ok fuel : ∀ i end_ maxPages pages pages',
  pagesOk maxPages pages →
  forRange fuel i end_ maxPages pages = Some pages' →
  pagesOk maxPages pages'.
Proof.
  induction fuel as [|fuel IH]; intros i end_ maxPages pages pages' Hok; simpl.
  - destruct (le i end_); [done|]. by intros [= <-].
  - destruct (le i end_); [|by intros [= <-]].
    apply IH. by apply addIfInBounds_ok.
Qed.

Lemma addPart_ok fuel maxPages part pages pages' :
  pagesOk maxPages pages →
  addPart fuel maxPages part pages = Some pages' →
  pagesOk maxPages pages'.
Proof.
  intros Hok. unfold addPart. destruct (includes "-" part).
  - destruct (_ <$> split "-" part) as [|start [|end_ ?]]; try by intros [= <-].
    destruct (negb (isNaN start) && negb (isNaN end_)); [|by intros [= <-]].
    by apply forRange_ok.
  - intros [= <-]. destruct (negb _); [|done]. by apply addIfInBounds_ok.
Qed.

Lemma addParts_ok fuel maxPages parts : ∀ pages pages',
  pagesOk maxPages pages →
  addParts fuel maxPages parts pages = Some pages' →
  pagesOk maxPages pages'.
Proof.
  induction parts as [|part parts IH]; intros pages pages' Hok; simpl.
  - by intros [= <-].
  - destruct (addPart fuel maxPages part pages) as [pages1|] eqn:Hp; [|done].
    simpl. apply IH. by eapply addPart_ok.
Qed.

(** A list in non-strict order without repetition is in strict order. *)
Lemma Sorted_le_NoDup_lt (l : list Z) :
  Sorted Z.le l → NoDup l → StronglySorted Z.lt l.
Proof.
  intros Hs%(Sorted_StronglySorted _). induction Hs as [|x l Hs IH Hx]; intros Hnd.
  - constructor.
  - apply NoDup_cons in Hnd as [Hx' Hnd]. constructor; [by apply IH|].
    apply Forall_forall. intros y Hy.
    rewrite Forall_forall in Hx. specialize (Hx y Hy).
    assert (x ≠ y) by (intros ->; done). lia.
Qed.

Lemma sortAscending_ok maxPages pages :
  pagesOk maxPages pages →
  StronglySorted Z.lt (sortAscending pages)
  ∧ Forall (fun p => 1 ≤ p ≤ maxPages) (sortAscending pages).
Proof.
  intros [Hnd Hall]. unfold sortAscending.
  pose proof (merge_sort_Permutation Z.le pages) as Hperm. split.
  - apply Sorted_le_NoDup_lt; [apply (Sorted_merge_sort _)|by rewrite Hperm].
  - by rewrite Hperm.
Qed.

Lemma seqZ_strictly_ascending m n : StronglySorted Z.lt (seqZ m n).
Proof.
  destruct (decide (n ≤ 0)) as [|Hn]; [rewrite seqZ_nil by done; constructor|].
  rewrite <-(Z2Nat.id n) by lia. generalize (Z.to_nat n) as k. clear. intros k. revert m.
  induction k as [|k IH]; intros m.
  - rewrite seqZ_nil by done. constructor.
  - rewrite seqZ_cons by lia. constructor.
    + replace (Z.pred (Z.of_nat (S k))) with (Z.of_nat k) by lia. apply IH.
    + apply Forall_seqZ. lia.
Qed.

(** Whenever [parsePageRange] returns, it returns pages of
    [1..maxPages] in strictly ascending order. *)
Lemma parsePageRange_sound fuel rangeStr maxPages pages :
  parsePageRange fuel rangeStr maxPages = Some pages →
  StronglySorted Z.lt pages ∧ Forall (fun p => 1 ≤ p ≤ maxPages) pages.
Proof.
  unfold parsePageRange. destruct (String.eqb _ _).
  - intros [= <-]. split; [apply seqZ_strictly_ascending|].
    apply Forall_seqZ. lia.
  - destruct (addParts _ _ _ _) as [raw|] eqn:Hraw; [|done]. intros [= <-].
    apply sortAscending_ok. eapply addParts_ok; [|done].
    split; [constructor|constructor].
Qed.

(** Empty and white-space-only text selects every page. *)
Lemma parsePageRange_blank fuel rangeStr maxPages :
  trim rangeStr = "" → parsePageRange fuel rangeStr maxPages = Some (seqZ 1 maxPages).
Proof. intros H. unfold parsePageRange. by rewrite H. Qed.

(** More fuel does not change a result. *)
Lemma forRange_more_fuel fuel : ∀ fuel' i end_ maxPages pages pages',
  (fuel ≤ fuel')%nat →
  forRange fuel i end_ maxPages pages = Some pages' →
  forRange fuel' i end_ maxPages pages = Some pages'.
Proof.
  induction fuel as [|fuel IH]; intros fuel' i end_ maxPages pages pages' Hle; simpl.
  - destruct (le i end_) eqn:Hie; [done|]. intros [= <-].
    destruct fuel'; simpl; by rewrite Hie.
  - destruct fuel' as [|fuel']; [lia|]. simpl.
    destruct (le i end_); [|done]. apply IH. lia.
Qed.

(** Below [2^53] the increment is exact. *)
Lemma incr_exact i : 0 ≤ i < 2 ^ 53 → incr (Num i) = Num (i + 1).
Proof.
  intros Hi. destruct (decide (i + 1 < 2 ^ 53)) as [Hlt|Hge].
  - unfold incr, toNumber, round53. rewrite Z.abs_eq by lia.
    destruct (Z.ltb_spec (i + 1) (2 ^ 53)); [|lia].
    destruct (Z.leb_spec (2 ^ 1024) (i + 1)).
    + assert (2 ^ 53 < 2 ^ 1024) by (apply Z.pow_lt_mono_r; lia). lia.
    + f_equal. rewrite Z.sgn_pos by lia. lia.
  - assert (i = 2 ^ 53 - 1) as -> by lia. by vm_compute.
Qed.

(** A range that ends below [2^53] is walked through in
    [end - start + 1] iterations. *)
Lemma forRange_returns n : ∀ i e maxPages pages,
  0 ≤ i → e < 2 ^ 53 → (Z.to_nat (e - i + 1) ≤ n)%nat →
  ∃ pages', forRange n (Num i) (Num e) maxPages pages = Some pages'.
Proof.
  induction n as [|n IH]; intros i e maxPages pages Hi He Hn; cbn [forRange le].
  - destruct (Z.leb_spec i e); [lia|]. eauto.
  - destruct (Z.leb_spec i e); [|eauto].
    rewrite incr_exact by lia. apply IH; lia.
Qed.

(** At [2^53] the increment no longer changes the counter. *)
Lemma incr_sticks i :
  0 ≤ i ≤ 2 ^ 53 → ∃ i', incr (Num i) = Num i' ∧ 0 ≤ i' ≤ 2 ^ 53.
Proof.
  intros Hi. destruct (decide (i + 1 < 2 ^ 53)) as [Hlt|Hge].
  - exists (i + 1). split; [|lia]. unfold incr, toNumber, round53.
    rewrite Z.abs_eq by lia.
    destruct (Z.ltb_spec (i + 1) (2 ^ 53)); [|lia].
    destruct (Z.leb_spec (2 ^ 1024) (i + 1)).
    + assert (2 ^ 53 < 2 ^ 1024) by (apply Z.pow_lt_mono_r; lia). lia.
    + f_equal. rewrite Z.sgn_pos by lia. lia.
  - exists (2 ^ 53). split; [|lia].
    assert (i = 2 ^ 53 - 1 ∨ i = 2 ^ 53) as [->| ->] by lia; by vm_compute.
Qed.

Lemma forRange_stuck fuel : ∀ i maxPages pages,
  0 ≤ i ≤ 2 ^ 53 → forRange fuel (Num i) (Num (2 ^ 53)) maxPages pages = None.
Proof.
  induction fuel as [|fuel IH]; intros i maxPages pages Hi; cbn [forRange le].
  - destruct (Z.leb_spec i (2 ^ 53)); [done|lia].
  - destruct (Z.leb_spec i (2 ^ 53)); [|lia].
    destruct (incr_sticks i Hi) as (i' & -> & Hi'). by apply IH.
Qed.

End PageRangeFacts.


(** ** Style changes on the rich-cell model *)
Section SheetsFacts.
Import Types Sheets.

Lemma restyle_idempotent style cell : restyle style (restyle style cell) = restyle style cell.
Proof.
  unfold restyle. simpl. f_equal. f_equal.
  unfold mergeStyle, overrideField. simpl.
  destruct style as [[?|] [?|] [?|] [?|] [?|] [?|]]; reflexivity.
Qed.

Lemma imap_same {A} (f : nat → A → A) (l : list A) :
  (∀ i x, l !! i = Some x → f i x = x) → imap f l = l.
Proof.
  intros H. apply list_eq. intros i. rewrite list_lookup_imap.
  destruct (l !! i) as [x|] eqn:Hx; simpl; [|done]. by rewrite (H i x).
Qed.

Lemma restyleWhere_ext inside inside' sheetIndex style sheets :
  (∀ r c, inside r c = inside' r c) →
  restyleWhere inside sheetIndex style sheets = restyleWhere inside' sheetIndex style sheets.
Proof.
  intros H. unfold restyleWhere. apply imap_ext. intros i sheet _.
  destruct (decide (i = sheetIndex)); [|done]. f_equal.
  apply imap_ext. intros r cells _. apply imap_ext. intros c cell _. by rewrite H.
Qed.

Lemma restyleWhere_nowhere sheetIndex style sheets :
  restyleWhere (visitedIn []) sheetIndex style sheets = sheets.
Proof.
  unfold restyleWhere. apply imap_same. intros i [nm dt] _.
  destruct (decide (i = sheetIndex)); [|done]. simpl. f_equal.
  apply imap_same. intros r cells _. apply imap_same. intros c cell _.
  done.
Qed.

Lemma cellAt_restyleWhere inside sheetIndex style sheets i r c :
  cellAt (restyleWhere inside sheetIndex style sheets) i r c
  = (fun cell => if bool_decide (i = sheetIndex) && inside r c
                 then restyle style cell else cell) <$> cellAt sheets i r c.
Proof.
  unfold cellAt, restyleWhere. rewrite list_lookup_imap.
  destruct (sheets !! i) as [sheet|]; simpl; [|done].
  destruct (decide (i = sheetIndex)) as [->|Hne]; simpl.
  - rewrite list_lookup_imap. destruct (data sheet !! r) as [cells|]; simpl; [|done].
    rewrite list_lookup_imap. rewrite bool_decide_eq_true_2 by done. done.
  - rewrite bool_decide_eq_false_2 by done. simpl.
    destruct (data sheet !! r) as [cells|]; simpl; [|done].
    by destruct (cells !! c).
Qed.

Lemma restyleWhere_lookup inside sheetIndex style sheets i :
  restyleWhere inside sheetIndex style sheets !! i
  = (fun sheet =>
       if decide (i = sheetIndex) then
         {| sheetName := sheetName sheet;
            data := imap (fun r cells =>
                            imap (fun c cell =>
                                    if inside r c then restyle style cell else cell)
                                 cells)
                         (data sheet) |}
       else sheet) <$> sheets !! i.
Proof. unfold restyleWhere. by rewrite list_lookup_imap. Qed.

Lemma restyleWhere_length inside sheetIndex style sheets :
  length (restyleWhere inside sheetIndex style sheets) = length sheets.
Proof. unfold restyleWhere. by rewrite length_imap. Qed.

(** One pass of the loop body restyles one more cell. *)
Lemma styleCell_restyleWhere visited sheetIndex style sheets r c :
  is_Some (cellAt sheets sheetIndex r c) →
  styleCell sheetIndex style (restyleWhere (visitedIn visited) sheetIndex style sheets) r c
  = Some (restyleWhere (visitedIn ((r, c) :: visited)) sheetIndex style sheets).
Proof.
  intros [cell0 Hcell]. unfold cellAt in Hcell.
  destruct (sheets !! sheetIndex) as [sheet|] eqn:Hsheet; simpl in Hcell; [|done].
  destruct (data sheet !! r) as [cells|] eqn:Hcells; simpl in Hcell; [|done].
  unfold styleCell. rewrite restyleWhere_lookup, Hsheet. simpl.
  rewrite decide_True by done. simpl.
  rewrite list_lookup_imap, Hcells. simpl.
  rewrite list_lookup_imap, Hcell. simpl. f_equal.
  apply list_eq. intros i. rewrite restyleWhere_lookup.
  destruct (decide (i = sheetIndex)) as [->|Hne].
  - rewrite list_lookup_insert_eq
      by (rewrite restyleWhere_length; by eapply lookup_lt_Some).
    rewrite Hsheet. simpl. f_equal. f_equal.
    apply list_eq. intros r'. rewrite list_lookup_imap.
    destruct (decide (r' = r)) as [->|Hr].
    + rewrite list_lookup_insert_eq
        by (rewrite length_imap; by eapply lookup_lt_Some).
      rewrite Hcells. simpl. f_equal.
      apply list_eq. intros c'. rewrite list_lookup_imap.
      destruct (decide (c' = c)) as [->|Hc].
      * rewrite list_lookup_insert_eq
          by (rewrite length_imap; by eapply lookup_lt_Some).
        rewrite Hcell. simpl. f_equal. unfold visitedIn.
        rewrite (bool_decide_eq_true_2 ((r, c) ∈ (r, c) :: visited)) by left.
        case_bool_decide; [apply restyle_idempotent|done].
      * rewrite list_lookup_insert_ne by done. rewrite list_lookup_imap.
        destruct (cells !! c') as [cell'|]; simpl; [|done]. f_equal.
        unfold visitedIn. apply (f_equal (fun b : bool => if b then _ else _)).
        apply bool_decide_ext. rewrite elem_of_cons. naive_solver.
    + rewrite list_lookup_insert_ne by done. rewrite list_lookup_imap.
      destruct (data sheet !! r') as [cells'|]; simpl; [|done]. f_equal.
      apply imap_ext. intros c' cell' _. unfold visitedIn.
      apply (f_equal (fun b : bool => if b then _ else _)).
      apply bool_decide_ext. rewrite elem_of_cons. naive_solver.
  - rewrite list_lookup_insert_ne by done. rewrite restyleWhere_lookup.
    destruct (sheets !! i); simpl; [|done]. by rewrite decide_False.
Qed.

Lemma styleCols_restyleWhere sheetIndex style sheets r cols : ∀ visited,
  (∀ c, c ∈ cols → is_Some (cellAt sheets sheetIndex r c)) →
  styleCols sheetIndex style r cols (restyleWhere (visitedIn visited) sheetIndex style sheets)
  = Some (restyleWhere (visitedIn (reverse ((r,.) <$> cols) ++ visited)) sheetIndex style sheets).
Proof.
  induction cols as [|c cols IH]; intros visited Hex; simpl; [done|].
  rewrite styleCell_restyleWhere by (apply Hex; left). simpl.
  rewrite IH by (intros c' Hc'; apply Hex; by right).
  by rewrite reverse_cons, <-app_assoc.
Qed.

Lemma styleRows_restyleWhere sheetIndex style sheets cols rows : ∀ visited,
  (∀ r c, r ∈ rows → c ∈ cols → is_Some (cellAt sheets sheetIndex r c)) →
  ∃ visited',
    styleRows sheetIndex style rows cols (restyleWhere (visitedIn visited) sheetIndex style sheets)
    = Some (restyleWhere (visitedIn visited') sheetIndex style sheets)
    ∧ ∀ r c, (r, c) ∈ visited' ↔ (r ∈ rows ∧ c ∈ cols) ∨ (r, c) ∈ visited.
Proof.
  induction rows as [|r rows IH]; intros visited Hex; simpl.
  - exists visited. split; [done|]. intros r c. rewrite elem_of_nil. naive_solver.
  - rewrite styleCols_restyleWhere by (intros c Hc; apply Hex; [left|done]). simpl.
    destruct (IH (reverse ((r,.) <$> cols) ++ visited)) as (visited' & -> & Hv).
    { intros r' c' Hr' Hc'. apply Hex; [by right|done]. }
    exists visited'. split; [done|]. intros r' c'. rewrite Hv.
    rewrite elem_of_app, elem_of_reverse, list_elem_of_fmap, elem_of_cons.
    split.
    + intros [[??]|[(c0 & [= -> ->] & ?)|?]]; naive_solver.
    + intros [[[->|?] ?]|?]; naive_solver.
Qed.

Lemma elem_of_fromTo from to i : i ∈ fromTo from to ↔ (from ≤ i ≤ to)%nat.
Proof. unfold fromTo. rewrite elem_of_seq. lia. Qed.

(** The loop body throws at a position without a cell. *)
Lemma styleCell_off_grid sheetIndex style sheets r c :
  cellAt sheets sheetIndex r c = None →
  styleCell sheetIndex style sheets r c = None.
Proof.
  unfold cellAt, styleCell. intros Hcell.
  destruct (sheets !! sheetIndex) as [sheet|]; simpl in *; [|done].
  destruct (data sheet !! r) as [cells|]; simpl in *; [|done].
  by destruct (cells !! c).
Qed.

(** A pass of the loop body adds no cell. *)
Lemma styleCell_adds_no_cell sheetIndex style sheets sheets' r c i r' c' :
  styleCell sheetIndex style sheets r c = Some sheets' →
  cellAt sheets i r' c' = None → cellAt sheets' i r' c' = None.
Proof.
  intros Hrun Hcell.
  destruct (cellAt sheets sheetIndex r c) as [cell|] eqn:Hat.
  - rewrite <-(restyleWhere_nowhere sheetIndex style sheets) in Hrun.
    rewrite styleCell_restyleWhere in Hrun by (by eexists).
    injection Hrun as <-. by rewrite cellAt_restyleWhere, Hcell.
  - by rewrite styleCell_off_grid in Hrun.
Qed.

Lemma styleCols_adds_no_cell sheetIndex style r cols i r' c' : ∀ sheets sheets',
  styleCols sheetIndex style r cols sheets = Some sheets' →
  cellAt sheets i r' c' = None → cellAt sheets' i r' c' = None.
Proof.
  induction cols as [|c cols IH]; intros sheets sheets' Hrun Hcell; simpl in Hrun.
  - by injection Hrun as <-.
  - destruct (styleCell sheetIndex style sheets r c) as [sheets1|] eqn:Hone;
      simpl in Hrun; [|done].
    eapply IH; [exact Hrun|]. by eapply styleCell_adds_no_cell.
Qed.

(** The inner loop throws when one of its columns has no cell in the row. *)
Lemma styleCols_off_grid sheetIndex style r cols c : ∀ sheets,
  c ∈ cols → cellAt sheets sheetIndex r c = None →
  styleCols sheetIndex style r cols sheets = None.
Proof.
  induction cols as [|c0 cols IH]; intros sheets Hin Hcell; simpl.
  - by apply elem_of_nil in Hin.
  - destruct (styleCell sheetIndex style sheets r c0) as [sheets1|] eqn:Hone;
      simpl; [|done].
    apply elem_of_cons in Hin as [->|Hin].
    + by rewrite styleCell_off_grid in Hone.
    + apply IH; [done|]. by eapply styleCell_adds_no_cell.
Qed.

(** The outer loop throws when one of its positions has no cell. *)
Lemma styleRows_off_grid sheetIndex style rows cols r c : ∀ sheets,
  r ∈ rows → c ∈ cols → cellAt sheets sheetIndex r c = None →
  styleRows sheetIndex style rows cols sheets = None.
Proof.
  induction rows as [|r0 rows IH]; intros sheets Hr Hc Hcell; simpl.
  - by apply elem_of_nil in Hr.
  - destruct (styleCols sheetIndex style r0 cols sheets) as [sheets1|] eqn:Hrow;
      simpl; [|done].
    apply elem_of_cons in Hr as [->|Hr].
    + by rewrite (styleCols_off_grid _ _ _ _ c) in Hrow.
    + apply IH; [done|done|]. by eapply styleCols_adds_no_cell.
Qed.

End SheetsFacts.

Section StyleChange.
Import Types Sheets.

Lemma mergeStyle_keeps_unnamed currentStyle style :
  (Partial.bold style = None → bold (mergeStyle currentStyle style) = bold currentStyle)
  ∧ (Partial.italic style = None → italic (mergeStyle currentStyle style) = italic currentStyle)
  ∧ (Partial.underline style = None →
     underline (mergeStyle currentStyle style) = underline currentStyle)
  ∧ (Partial.strikethrough style = None →
     strikethrough (mergeStyle currentStyle style) = strikethrough currentStyle)
  ∧ (Partial.color style = None → color (mergeStyle currentStyle style) = color currentStyle)
  ∧ (Partial.align style = None → align (mergeStyle currentStyle style) = align currentStyle).
Proof. unfold mergeStyle; simpl. repeat split; intros ->; reflexivity. Qed.

Lemma handleStyleChange_restyleWhere sheetIndex sel style prevData :
  (∀ r c, isCellSelected (Some sel) r c = true →
          is_Some (cellAt prevData sheetIndex r c)) →
  handleStyleChange sheetIndex (Some sel) style (Some prevData)
  = Normal (Some (restyleWhere (isCellSelected (Some sel)) sheetIndex style prevData)).
Proof.
  intros Hgrid. unfold handleStyleChange.
  rewrite <-(restyleWhere_nowhere sheetIndex style prevData) at 1.
  destruct (styleRows_restyleWhere sheetIndex style prevData
              (fromTo (col (start sel)) (col (end_ sel)))
              (fromTo (row (start sel)) (row (end_ sel))) [])
    as (visited & -> & Hvisited).
  - intros r c Hr%elem_of_fromTo Hc%elem_of_fromTo. apply Hgrid. simpl.
    repeat (apply andb_true_intro; split); apply Nat.leb_le; lia.
  - do 2 f_equal. apply restyleWhere_ext. intros r c. unfold visitedIn. simpl.
    apply eq_true_iff_eq. rewrite bool_decide_eq_true, Hvisited, !elem_of_fromTo, elem_of_nil.
    rewrite !andb_true_iff, !Nat.leb_le. tauto.
Qed.

(** A style change throws whenever the selected rectangle covers a
    position of the addressed sheet that holds no cell, whatever the sheets,
    the rectangle and the patch. *)
Lemma handleStyleChange_off_grid sheetIndex sel style prevData r c :
  isCellSelected (Some sel) r c = true →
  cellAt prevData sheetIndex r c = None →
  handleStyleChange sheetIndex (Some sel) style (Some prevData) = TypeError.
Proof.
  simpl. rewrite !andb_true_iff, !Nat.leb_le. intros [[[??]?]?] Hcell.
  unfold handleStyleChange.
  rewrite (styleRows_off_grid _ _ _ _ r c); [done| | |done];
    apply elem_of_fromTo; lia.
Qed.

End StyleChange.

(** ** The events of [processJob] *)
Section ProcessJobFacts.
Import Types Sheets Queue.

Lemma assign_id j f : id (assign j f) = id j.
Proof. by destruct j, f. Qed.

Lemma spread_id fields : ∀ j, id (spread j fields) = id j.
Proof.
  unfold spread. induction fields as [|f fields IH]; intros j; simpl; [done|].
  by rewrite IH, assign_id.
Qed.

Lemma assign_settling j f :
  settlingField f = true →
  file (assign j f) = file j ∧ (isActive j = false → isActive (assign j f) = false)
  ∧ (∀ st, st = queued ∨ st = processing → status (assign j f) = st → status j = st).
Proof.
  destruct j, f as [| [] | | | | | | | |]; simpl; intros Hs; try done;
    split_and!; try done; intros st [->| ->]; done.
Qed.

Lemma spread_settling fields : ∀ j,
  forallb settlingField fields = true →
  file (spread j fields) = file j ∧ (isActive j = false → isActive (spread j fields) = false)
  ∧ (∀ st, st = queued ∨ st = processing → status (spread j fields) = st → status j = st).
Proof.
  unfold spread. induction fields as [|f fields IH]; intros j; simpl; [done|].
  intros [Hf Hfs]%andb_true_iff.
  destruct (assign_settling j f Hf) as (H1 & H2 & H3).
  destruct (IH (assign j f) Hfs) as (H4 & H5 & H6).
  split_and!; [congruence|auto|]. intros st Hst Hq. eauto.
Qed.

(** A settling update that names the status leaves the job finished. *)
Lemma spread_finished fields : ∀ j,
  forallb settlingField fields = true →
  existsb setsStatus fields = true ∨ isActive j = false →
  isActive (spread j fields) = false.
Proof.
  unfold spread. induction fields as [|f fields IH]; intros j; simpl.
  - by intros _ [?|?].
  - intros [Hf Hfs]%andb_true_iff Hcase. apply IH; [done|].
    destruct (setsStatus f) eqn:Hsets.
    + right. by destruct j, f as [| [] | | | | | | | |].
    + destruct Hcase as [Hex|Hfin]; [by left|].
      right. by destruct j, f as [| [] | | | | | | | |].
Qed.

(** An update that does not name the status keeps it. *)
Lemma spread_status fields : ∀ j,
  existsb setsStatus fields = false → status (spread j fields) = status j.
Proof.
  unfold spread. induction fields as [|f fields IH]; intros j; simpl; [done|].
  intros [Hf Hfs]%orb_false_iff. rewrite IH by done. by destruct j, f.
Qed.

Ltac solve_events :=
  repeat first
    [ apply Forall_nil_2
    | apply Forall_cons_2; [done|]
    | apply Forall_app_2
    | (apply Forall_fmap, Forall_true; done) ].

(** The events of [processJob] on a job with its file: the increment,
    events up to a first awaited call, the rest, and the decrement. *)
Lemma processJob_with_file P job f :
  file job = Some f →
  ∃ pre call post,
    processJob P job
    = setActiveJobsCount 1 :: pre ++ await call :: post ++ [setActiveJobsCount (-1)]
    ∧ Forall (fun e => isCounter e = false ∧ isAwait e = false) pre
    ∧ Forall (fun e => isCounter e = false) post.
Proof.
  intros Hf. unfold processJob. rewrite Hf. unfold convert.
  destruct (Types.conversionMode job).
  - exists [], (ConvertPdfToImages f (default "" (pageRange job))).
    unfold awaitConvertPdfToImages, awaitExtractDataFromPdfImages.
    destruct (convertPdfToImages P f _) as [messages [images|e]]; simpl;
      [destruct (extractDataFromPdfImages P images) as [rawSheets|e]; simpl|];
      (eexists; split; [f_equal; f_equal; rewrite <-?app_assoc; simpl; reflexivity|]);
      (split; [constructor|solve_events]).
  - eexists [_], (ReadExcelData f). unfold awaitReadExcelData.
    destruct (readExcelData P f) as [rawSheets|e]; simpl;
      [destruct (decide (length rawSheets = 0%nat)); simpl|];
      (eexists [_]; split; [reflexivity|]; split; by repeat constructor).
Qed.

Lemma processJob_settling P job :
  Forall (fun e => settling e = true) (processJob P job).
Proof.
  unfold processJob. destruct (file job) as [f|]; [|by repeat constructor].
  unfold convert. destruct (Types.conversionMode job).
  - unfold awaitConvertPdfToImages, awaitExtractDataFromPdfImages.
    destruct (convertPdfToImages P f _) as [messages [images|e]]; simpl;
      [destruct (extractDataFromPdfImages P images) as [rawSheets|e]; simpl|];
      solve_events.
  - unfold awaitReadExcelData.
    destruct (readExcelData P f) as [rawSheets|e]; simpl;
      [destruct (decide (length rawSheets = 0%nat)); simpl|]; solve_events.
Qed.

Lemma untilAwait_split pre call rest :
  Forall (fun e => isAwait e = false) pre →
  untilAwait (pre ++ await call :: rest) = (pre ++ [await call], rest).
Proof.
  induction pre as [|e pre IH]; intros Hpre; simpl; [done|].
  apply Forall_cons in Hpre as [He Hpre]. rewrite IH by done.
  by destruct e.
Qed.

Lemma untilAwait_app t : (untilAwait t).1 ++ (untilAwait t).2 = t.
Proof.
  induction t as [|e t IH]; simpl; [done|].
  destruct e; simpl; try done; destruct (untilAwait t); simpl in *; by rewrite IH.
Qed.

End ProcessJobFacts.

(** ** The scheduler effect and resumed calls keep the invariant *)
Section InvariantFacts.
Import Types Sheets Queue.

Lemma uniformFiles_filter (P : ProcessJob → Prop) `{!∀ x, Decision (P x)} l :
  uniformFiles l → uniformFiles (filter P l).
Proof.
  intros [Hl|Hl]; [left|right]; rewrite Forall_forall in *;
    intros x [_ Hx]%list_elem_of_filter; auto.
Qed.

Lemma uniformFiles_fmap g l :
  (∀ j, file (g j) = file j
        ∧ (file j = None → isActive j = false → isActive (g j) = false)) →
  uniformFiles l → uniformFiles (g <$> l).
Proof.
  intros Hg [H|H]; [left|right]; apply Forall_fmap; eapply Forall_impl; try done.
  - intros j [Hf Ha]. simpl. destruct (Hg j) as [-> Hact]. auto.
  - intros j Hf. simpl. by destruct (Hg j) as [-> _].
Qed.

Lemma uniformFiles_fmap_filed g l :
  Forall (fun j => is_Some (file j)) l → (∀ j, file (g j) = file j) →
  uniformFiles (g <$> l).
Proof.
  intros H Hg. right. apply Forall_fmap. eapply Forall_impl; [done|].
  intros j Hf. simpl. by rewrite Hg.
Qed.

Lemma uniformFiles_filed l j :
  uniformFiles l → j ∈ l → is_Some (file j) ∨ isActive j = true →
  Forall (fun j => is_Some (file j)) l.
Proof.
  intros [H|H] Hj Hfile; [|done]. rewrite Forall_forall in H.
  destruct (H j Hj) as [Hnone Hact]. rewrite Hnone, Hact in Hfile.
  destruct Hfile as [[? [=]]|[=]].
Qed.

Lemma updateJob_keeps jobId fields j :
  forallb settlingField fields = true →
  let g := fun j => if decide (id j = jobId) then spread j fields else j in
  file (g j) = file j ∧ (file j = None → isActive j = false → isActive (g j) = false).
Proof.
  intros Hs. simpl. destruct (decide (id j = jobId)); [|done].
  destruct (spread_settling fields j Hs) as (? & ? & ?). auto.
Qed.

Lemma uniformFiles_updateJob jobId fields l :
  forallb settlingField fields = true →
  uniformFiles l → uniformFiles (updateJob jobId fields l).
Proof. intros Hs. apply uniformFiles_fmap. intros j. by apply updateJob_keeps. Qed.

Lemma applyEvent_inFlight s e : inFlight (applyEvent s e) = inFlight s.
Proof. by destruct e. Qed.

Lemma applyEvents_inFlight t : ∀ s, inFlight (foldl applyEvent s t) = inFlight s.
Proof.
  induction t as [|e t IH]; intros s; simpl; [done|]. by rewrite IH, applyEvent_inFlight.
Qed.

Lemma applyEvents_counter t : ∀ s,
  Forall (fun e => isCounter e = false) t →
  activeJobsCount (foldl applyEvent s t) = activeJobsCount s.
Proof.
  induction t as [|e t IH]; intros s Ht; simpl; [done|].
  apply Forall_cons in Ht as [He Ht]. rewrite IH by done. by destruct e.
Qed.

Lemma applyEvent_files s e :
  settling e = true → uniformFiles (jobs s) → uniformFiles (jobs (applyEvent s e)).
Proof. destruct e; simpl; try done. apply uniformFiles_updateJob. Qed.

Lemma applyEvents_files t : ∀ s,
  Forall (fun e => settling e = true) t →
  uniformFiles (jobs s) → uniformFiles (jobs (foldl applyEvent s t)).
Proof.
  induction t as [|e t IH]; intros s Ht Hs; simpl; [done|].
  apply Forall_cons in Ht as [He Ht]. apply IH; [done|]. by apply applyEvent_files.
Qed.

(** A dispatched call takes a slot exactly when the job has its file. *)
Lemma dispatch_spec P s job :
  uniformFiles (jobs s) →
  uniformFiles (jobs (dispatch P s job))
  ∧ ((file job = None
      ∧ activeJobsCount (dispatch P s job) = activeJobsCount s
      ∧ inFlight (dispatch P s job) = inFlight s)
     ∨ (is_Some (file job)
        ∧ activeJobsCount (dispatch P s job) = activeJobsCount s + 1
        ∧ ∃ later, inFlight (dispatch P s job) = inFlight s ++ [later]
                   ∧ holdsSlot later ∧ Forall (fun e => settling e = true) later)).
Proof.
  intros Hfiles. unfold dispatch.
  pose proof (processJob_settling P job) as Hsettling.
  destruct (file job) as [f|] eqn:Hf.
  - destruct (processJob_with_file P job f Hf) as (pre & call & post & Heq & Hpre & Hpost).
    rewrite Heq in Hsettling |- *. simpl.
    rewrite untilAwait_split by (eapply Forall_impl; [done|]; naive_solver).
    apply Forall_cons in Hsettling as [_ Hsettling].
    apply Forall_app in Hsettling as [Hs1 Hs2].
    apply Forall_cons in Hs2 as [_ Hs2].
    assert (post ++ [setActiveJobsCount (-1)] ≠ []) as Hne by (by destruct post).
    destruct (post ++ [setActiveJobsCount (-1)]) as [|e later] eqn:Hlater; [done|].
    rewrite <-Hlater. clear Hne. split.
    + simpl. apply applyEvents_files; [|done].
      apply Forall_app. split; [done|]. by repeat constructor.
    + right. split; [done|]. simpl. split.
      * rewrite applyEvents_counter; [done|].
        apply Forall_app. split; [|by repeat constructor].
        eapply Forall_impl; [done|]. naive_solver.
      * eexists. split; [by rewrite applyEvents_inFlight|]. split; [by exists post|].
        by rewrite Hlater.
  - unfold processJob. rewrite Hf. simpl. split.
    + by apply uniformFiles_updateJob.
    + left. done.
Qed.

Lemma dispatches_spec P jobsToStart : ∀ s,
  activeJobsCount s = Z.of_nat (length (inFlight s)) →
  Forall holdsSlot (inFlight s) →
  Forall (Forall (fun e => settling e = true)) (inFlight s) →
  uniformFiles (jobs s) →
  let s' := foldl (dispatch P) s jobsToStart in
  activeJobsCount s' = Z.of_nat (length (inFlight s'))
  ∧ activeJobsCount s' ≤ activeJobsCount s + Z.of_nat (length jobsToStart)
  ∧ Forall holdsSlot (inFlight s')
  ∧ Forall (Forall (fun e => settling e = true)) (inFlight s')
  ∧ uniformFiles (jobs s').
Proof.
  induction jobsToStart as [|job rest IH]; intros s Hc Hslots Hset Hfiles; simpl.
  - split_and!; try done. lia.
  - destruct (dispatch_spec P s job Hfiles) as [Hfiles' Hcases].
    destruct Hcases as [(_ & Hact & Hfl)|(_ & Hact & later & Hfl & Hslot & Hlater)].
    + destruct (IH (dispatch P s job)) as (H1 & H2 & H3 & H4 & H5);
        rewrite ?Hact, ?Hfl; try done.
      split_and!; try done. rewrite Hact in H2. lia.
    + destruct (IH (dispatch P s job)) as (H1 & H2 & H3 & H4 & H5);
        rewrite ?Hact, ?Hfl; try done.
      * rewrite length_app. simpl. lia.
      * apply Forall_app. by split; [|constructor].
      * apply Forall_app. by split; [|constructor].
      * split_and!; try done. rewrite Hact in H2. lia.
Qed.

Lemma schedulerEffect_invariant P s : invariant s → invariant (schedulerEffect P s).
Proof.
  intros [Hc Hceil Hslots Hset Hfiles]. unfold schedulerEffect.
  destruct (Z.leb_spec (MAX_CONCURRENT_JOBS - activeJobsCount s) 0); [done|].
  set (jobsToStart := take _ _).
  destruct (decide (0 < length jobsToStart)%nat) as [Hpos|]; [|done].
  assert (Forall (fun j => is_Some (file j)) (jobs s)) as Hfiled.
  { destruct jobsToStart as [|j ?] eqn:Hj; [simpl in Hpos; lia|].
    assert (j ∈ jobsToStart) as Hin by (rewrite Hj; left).
    apply subseteq_take, list_elem_of_filter in Hin as [Hq Hin].
    eapply uniformFiles_filed; [done..|]. right. unfold isActive. by rewrite Hq. }
  set (s1 := withJobs _ s).
  destruct (dispatches_spec P jobsToStart s1) as (H1 & H2 & H3 & H4 & H5); try done.
  { apply uniformFiles_fmap_filed; [done|]. intros j.
    destruct (admitted jobsToStart j); [|done]. by destruct j. }
  split; try done.
  assert (length jobsToStart ≤ Z.to_nat (MAX_CONCURRENT_JOBS - activeJobsCount s))%nat
    by (unfold jobsToStart; rewrite length_take; lia).
  change (activeJobsCount s1) with (activeJobsCount s) in H2. lia.
Qed.

Lemma resume_invariant k s : invariant s → invariant (resume k s).
Proof.
  intros [Hc Hceil Hslots Hset Hfiles]. unfold resume.
  destruct (inFlight s !! k) as [t|] eqn:Hk; [|done].
  pose proof (lookup_lt_Some _ _ _ Hk) as Hlt.
  pose proof (proj1 (Forall_lookup _ _) Hslots k t Hk) as (work & Ht & Hwork).
  pose proof (proj1 (Forall_lookup _ _) Hset k t Hk) as Hsettle.
  destruct t as [|e rest]; [by destruct work|].
  apply Forall_cons in Hsettle as [He Hrest].
  destruct rest as [|e' rest'].
  - destruct work as [|? [|]]; try done. injection Ht as ->.
    split; simpl; rewrite ?length_delete by done; try by apply Forall_delete.
    + lia.
    + lia.
    + done.
  - destruct work as [|w work]; [done|]. injection Ht as <- Ht.
    apply Forall_cons in Hwork as [Hw Hwork].
    split.
    + destruct e; simpl in *; try done; by rewrite length_insert.
    + destruct e; simpl in *; done.
    + destruct e; simpl in *; try done;
        (apply Forall_insert; [done|by exists work]).
    + destruct e; simpl in *; try done; by apply Forall_insert.
    + destruct e; simpl in *; try done. by apply uniformFiles_updateJob.
Qed.

End InvariantFacts.

(** ** Every action keeps the invariant *)
Section Reachability.
Import Types Sheets Queue.

Lemma invariant_frame s s' :
  invariant s →
  activeJobsCount s' = activeJobsCount s → inFlight s' = inFlight s →
  uniformFiles (jobs s') →
  invariant s'.
Proof. intros [] Hc Hf Hu. split; rewrite ?Hc, ?Hf; done. Qed.

Lemma paginatedJobs_subseteq s : paginatedJobs s ⊆ jobs s.
Proof.
  unfold paginatedJobs, filteredJobs. intros j Hj.
  apply subseteq_take, subseteq_drop in Hj. by apply list_elem_of_filter in Hj as [_ ?].
Qed.

Lemma requeue_file j :
  file (spread j [status_ queued; errorMessage_ None; extractedSheets_ None]) = file j.
Proof. by destruct j. Qed.

Lemma newJob_file mode f : file (newJob mode f) = Some f.
Proof. done. Qed.

Lemma handleFileSelect_files files s :
  uniformFiles (jobs s) → uniformFiles (jobs (handleFileSelect files s)).
Proof.
  intros Hu. simpl. right. apply Forall_app. split.
  - destruct Hu as [Hu|Hu]; rewrite Forall_forall in *.
    + intros j [Hact Hj]%list_elem_of_filter. destruct (Hu j Hj). congruence.
    + intros j [_ Hj]%list_elem_of_filter. auto.
  - apply Forall_fmap, Forall_true. intros f. simpl. by eexists.
Qed.

Lemma handleDownload_invariant fuel W job s s' :
  invariant s → handleDownload fuel W job s = Some s' → invariant s'.
Proof.
  intros Hinv. unfold handleDownload.
  destruct (extractedSheets job) as [sheets|]; [|by intros [= <-]].
  destruct (generateOutput fuel W job sheets) as [[?|e]|]; simpl;
    [by intros [= <-]| |done].
  intros [= <-]. eapply invariant_frame; [done..|].
  apply uniformFiles_updateJob; [done|]. apply Hinv.
Qed.

Lemma handleRetry_invariant jobId s :
  Forall (fun j => is_Some (file j)) (jobs s) →
  invariant s → invariant (handleRetry jobId s).
Proof.
  intros Hfiled Hinv. eapply invariant_frame; [done..|].
  apply uniformFiles_fmap_filed; [done|]. intros j.
  destruct (decide _); [apply requeue_file|done].
Qed.

Lemma handleRetrySelected_invariant s :
  Forall (fun j => is_Some (file j)) (jobs s) →
  invariant s → invariant (handleRetrySelected s).
Proof.
  intros Hfiled Hinv. unfold handleRetrySelected.
  destruct (decide _); eapply invariant_frame; try done; simpl; [|apply Hinv].
  apply uniformFiles_fmap_filed; [done|]. intros j.
  destruct (decide _); [apply requeue_file|done].
Qed.

Lemma step_invariant a s s' : invariant s → step a s = Some s' → invariant s'.
Proof.
  intros Hinv.
  destruct a; simpl; try (intros [= <-]).
  - destruct (uploadEnabled files s); [|done].
    eapply invariant_frame; [done..|]. apply handleFileSelect_files, Hinv.
  - eapply invariant_frame; [done..|]. apply uniformFiles_updateJob; [done|]. apply Hinv.
  - eapply invariant_frame; [done..|]. apply uniformFiles_filter, Hinv.
  - eapply invariant_frame; [done..|]. left. constructor.
  - unfold switchConversionMode. destruct (decide _); [done|].
    eapply invariant_frame; [done..|]. left. constructor.
  - by apply schedulerEffect_invariant.
  - by apply resume_invariant.
  - destruct (paginatedJobs s !! k) as [job|]; [|by intros [= <-]].
    destruct (bool_decide _); [|by intros [= <-]]. by apply handleDownload_invariant.
  - destruct (paginatedJobs s !! k) as [job|] eqn:Hk; intros [= <-]; [|done].
    destruct (retryButtonRendered job && negb (retryButtonDisabled job)) eqn:Hgate; [|done].
    apply handleRetry_invariant; [|done].
    apply andb_true_iff in Hgate as [_ Hfile%negb_true_iff%bool_decide_eq_false].
    eapply (uniformFiles_filed _ job); [apply Hinv| |].
    + eapply paginatedJobs_subseteq, list_elem_of_lookup_2, Hk.
    + left. by destruct (file job).
  - eapply invariant_frame; [done..|]. apply uniformFiles_updateJob; [done|]. apply Hinv.
  - eapply invariant_frame; [done..|]. apply uniformFiles_fmap; [|apply Hinv].
    intros j. destruct (thumbnailUrls j); [|done].
    destruct (decide _); [|done]. by destruct j.
  - eapply invariant_frame; [done..|]. apply uniformFiles_updateJob; [done|]. apply Hinv.
  - eapply invariant_frame; [done..|]. apply uniformFiles_updateJob; [done|]. apply Hinv.
  - eapply invariant_frame; [done..|]. apply Hinv.
  - destruct (decide _); [done|]. eapply invariant_frame; [done..|]. apply Hinv.
  - destruct (decide _); [done|]. eapply invariant_frame; [done..|]. apply Hinv.
  - unfold pageEffect. destruct (decide _); [|done].
    eapply invariant_frame; [done..|]. apply Hinv.
  - eapply invariant_frame; [done..|]. apply Hinv.
  - destruct (selectionBarRendered s); [|done].
    eapply invariant_frame; [done..|]. apply Hinv.
  - eapply invariant_frame; [done..|]. apply Hinv.
  - unfold selectionEffect. destruct (decide _); [done|].
    eapply invariant_frame; [done..|]. apply Hinv.
  - eapply invariant_frame; [done..|]. apply uniformFiles_filter, Hinv.
  - destruct (canRetrySelected s) eqn:Hcan; [|done].
    apply handleRetrySelected_invariant; [|done].
    apply bool_decide_eq_true, Exists_exists in Hcan as (j & Hj & _ & _ & Hfile).
    eapply (uniformFiles_filed _ j); [apply Hinv|done|by left].
  - eapply invariant_frame; [done..|]. apply Hinv.
Qed.

Lemma initialApp_invariant stored : invariant (initialApp stored).
Proof.
  split; simpl; try done. left. destruct stored as [| |savedJobs]; simpl; try constructor.
  apply Forall_fmap, Forall_true. intros j. unfold restoreJob.
  by destruct j as [? ? ? ? [] ? ? ? ? ? ? ? ? ?].
Qed.

Lemma reachable_invariant s : reachable s → invariant s.
Proof.
  induction 1 as [stored|s a s' _ IH Hstep];
    [apply initialApp_invariant|by eapply step_invariant].
Qed.

Lemma run_reachable actions : ∀ s s', reachable s → run actions s = Some s' → reachable s'.
Proof.
  induction actions as [|a rest IH]; intros s s' Hs; simpl; [by intros [= <-]|].
  destruct (step a s) as [s1|] eqn:Hstep; [|done]. simpl.
  apply IH. by eapply reachable_step.
Qed.

End Reachability.

(** ** The select-all test *)
Section SelectAll.
Import Types Sheets Queue.

(** With distinct ids on the page, the test of [handleToggleSelectAll]
    holds exactly when every id of the page is selected. *)
Lemma selectedOnPage_all (paginatedJobs : list ProcessJob) (selectedJobIds : gset string) :
  NoDup (id <$> paginatedJobs) →
  let paginatedJobIds : gset string := list_to_set (id <$> paginatedJobs) in
  length (filter (fun i => i ∈ paginatedJobIds) (elements selectedJobIds))
  = length paginatedJobs
  ↔ paginatedJobIds ⊆ selectedJobIds.
Proof.
  intros Hnd ids. set (L := filter _ _).
  assert (NoDup L) as HL by apply NoDup_filter, NoDup_elements.
  assert (∀ x, x ∈ L ↔ x ∈ ids ∧ x ∈ selectedJobIds) as Hmem.
  { intros x. unfold L. by rewrite list_elem_of_filter, elem_of_elements. }
  assert (∀ x, x ∈ ids ↔ x ∈ id <$> paginatedJobs) as Hids.
  { intros x. unfold ids. by rewrite elem_of_list_to_set. }
  rewrite <-(length_fmap id paginatedJobs). split.
  - intros Hlen x Hx.
    assert (L ≡ₚ id <$> paginatedJobs) as Hperm.
    { apply submseteq_length_Permutation; [|by rewrite Hlen].
      apply NoDup_submseteq; [done|]. intros y [Hy _]%Hmem. by apply Hids. }
    apply Hids in Hx. rewrite <-Hperm in Hx. by apply Hmem in Hx as [_ ?].
  - intros Hsub. apply Permutation_length, NoDup_Permutation; [done..|].
    intros x. rewrite Hmem, <-Hids. set_solver.
Qed.

End SelectAll.

(** ** Which actions make a job queued or processing *)
Section RetryFacts.
Import Types Sheets Queue.

Lemma noneEnters_refl st l : noneEnters st l l.
Proof. intros j Hj Hq. eauto. Qed.

Lemma noneEnters_trans st l1 l2 l3 :
  noneEnters st l1 l2 → noneEnters st l2 l3 → noneEnters st l1 l3.
Proof.
  intros H12 H23 j3 Hj3 Hq3.
  destruct (H23 j3 Hj3 Hq3) as (j2 & Hj2 & Hid2 & Hq2).
  destruct (H12 j2 Hj2 Hq2) as (j1 & Hj1 & Hid1 & Hq1).
  exists j1. split_and!; [done|congruence|done].
Qed.

Lemma noneEnters_nil st l : noneEnters st l [].
Proof. intros j Hj. by apply elem_of_nil in Hj. Qed.

Lemma noneEnters_filter st (P : ProcessJob → Prop) `{!∀ x, Decision (P x)} l :
  noneEnters st l (filter P l).
Proof. intros j [_ Hj]%list_elem_of_filter Hq. eauto. Qed.

Lemma noneEnters_fmap st g l :
  (∀ j, id (g j) = id j ∧ (status (g j) = st → status j = st)) →
  noneEnters st l (g <$> l).
Proof.
  intros Hg j' (j & -> & Hj)%list_elem_of_fmap Hq.
  destruct (Hg j) as [Hid Hst]. exists j. auto.
Qed.

Section ActiveStatus.
Context (st : ProcessJobStatus) (Hst : st = queued ∨ st = processing).

Lemma noneEnters_updateJob jobId fields l :
  forallb settlingField fields = true → noneEnters st l (updateJob jobId fields l).
Proof.
  intros Hs. apply noneEnters_fmap. intros j.
  destruct (decide (id j = jobId)); [|done].
  destruct (spread_settling fields j Hs) as (_ & _ & Hq). rewrite spread_id. auto.
Qed.

Lemma applyEvent_noneEnters s e :
  settling e = true → noneEnters st (jobs s) (jobs (applyEvent s e)).
Proof.
  destruct e; simpl; intros He; try apply noneEnters_refl. by apply noneEnters_updateJob.
Qed.

Lemma applyEvents_noneEnters t : ∀ s,
  Forall (fun e => settling e = true) t →
  noneEnters st (jobs s) (jobs (foldl applyEvent s t)).
Proof.
  induction t as [|e t IH]; intros s Ht; simpl; [apply noneEnters_refl|].
  apply Forall_cons in Ht as [He Ht].
  eapply noneEnters_trans; [|by apply IH]. by apply applyEvent_noneEnters.
Qed.

Lemma dispatch_noneEnters P s job : noneEnters st (jobs s) (jobs (dispatch P s job)).
Proof.
  unfold dispatch.
  pose proof (processJob_settling P job) as Hs.
  rewrite <-(untilAwait_app (processJob P job)) in Hs.
  destruct (untilAwait (processJob P job)) as [now later]. simpl in Hs.
  apply Forall_app in Hs as [Hnow _].
  destruct later; simpl; by apply applyEvents_noneEnters.
Qed.

Lemma dispatches_noneEnters P jobsToStart : ∀ s,
  noneEnters st (jobs s) (jobs (foldl (dispatch P) s jobsToStart)).
Proof.
  induction jobsToStart as [|job rest IH]; intros s; simpl; [apply noneEnters_refl|].
  eapply noneEnters_trans; [apply dispatch_noneEnters|apply IH].
Qed.

Lemma resume_noneEnters k s :
  invariant s → noneEnters st (jobs s) (jobs (resume k s)).
Proof.
  intros Hinv. unfold resume.
  destruct (inFlight s !! k) as [[|e rest]|] eqn:Hk; try apply noneEnters_refl.
  pose proof (proj1 (Forall_lookup _ _) (inv_settling s Hinv) k _ Hk) as Hsettle.
  apply Forall_cons in Hsettle as [He _].
  pose proof (applyEvent_noneEnters s e He) as Hjobs.
  by destruct rest.
Qed.

Lemma handleDownload_noneEnters fuel W job s s' :
  handleDownload fuel W job s = Some s' → noneEnters st (jobs s) (jobs s').
Proof.
  unfold handleDownload. destruct (extractedSheets job) as [sheets|];
    [|intros [= <-]; apply noneEnters_refl].
  destruct (generateOutput fuel W job sheets) as [[?|e]|]; simpl; [| |done];
    intros [= <-]; [apply noneEnters_refl|]. by apply noneEnters_updateJob.
Qed.

End ActiveStatus.

Lemma schedulerEffect_noneRequeued P s :
  noneEnters queued (jobs s) (jobs (schedulerEffect P s)).
Proof.
  unfold schedulerEffect.
  destruct (_ <=? 0); [apply noneEnters_refl|].
  destruct (decide _); [|apply noneEnters_refl].
  eapply noneEnters_trans; [|apply dispatches_noneEnters; by left]. simpl.
  apply noneEnters_fmap. intros j. destruct (admitted _ j); [|done]. by destruct j.
Qed.

Lemma handleFileSelect_noneStarted files s :
  noneEnters processing (jobs s) (jobs (handleFileSelect files s)).
Proof.
  intros j' Hj' Hq. simpl in Hj'.
  apply elem_of_app in Hj' as [[_ Hj']%list_elem_of_filter|Hnew]; [eauto|].
  by apply list_elem_of_fmap in Hnew as (f & -> & Hf).
Qed.

Lemma handleRetry_noneStarted jobId s :
  noneEnters processing (jobs s) (jobs (handleRetry jobId s)).
Proof.
  apply noneEnters_fmap. intros j. destruct (decide _); [|done]. by destruct j.
Qed.

Lemma handleRetrySelected_noneStarted s :
  noneEnters processing (jobs s) (jobs (handleRetrySelected s)).
Proof.
  unfold handleRetrySelected. destruct (decide _); [|apply noneEnters_refl]. simpl.
  apply noneEnters_fmap. intros j. destruct (decide _); [|done]. by destruct j.
Qed.

(** Which actions can give a job an active status: only adding files
    and retrying make a job queued, and only the scheduler effect makes a
    job processing. *)
Lemma step_noneEnters st a s s' :
  invariant s → step a s = Some s' →
  (st = queued ∧ isRetry a = false ∧ (∀ files, a ≠ FileSelect files))
  ∨ (st = processing ∧ (∀ P, a ≠ SchedulerEffect P)) →
  noneEnters st (jobs s) (jobs s').
Proof.
  intros Hinv Hstep Hcase.
  assert (st = queued ∨ st = processing) as Hst by (destruct Hcase as [[]|[]]; auto).
  destruct a; simpl in Hstep; try injection Hstep as <-; try apply noneEnters_refl.
  - destruct Hcase as [(_ & _ & Hno)|[-> _]]; [by destruct (Hno files)|].
    destruct (uploadEnabled files s); [|apply noneEnters_refl].
    apply handleFileSelect_noneStarted.
  - by apply noneEnters_updateJob.
  - apply noneEnters_filter.
  - apply noneEnters_nil.
  - unfold switchConversionMode. destruct (decide _); [apply noneEnters_refl|].
    apply noneEnters_nil.
  - destruct Hcase as [(-> & _)|[_ Hno]]; [|by destruct (Hno P)].
    apply schedulerEffect_noneRequeued.
  - by apply resume_noneEnters.
  - destruct (paginatedJobs s !! k) as [job|];
      [|injection Hstep as <-; apply noneEnters_refl].
    destruct (bool_decide _); [|injection Hstep as <-; apply noneEnters_refl].
    by eapply handleDownload_noneEnters.
  - destruct Hcase as [(_ & Hno & _)|[-> _]]; [done|].
    destruct (paginatedJobs s !! k) as [job|]; injection Hstep as <-;
      [|apply noneEnters_refl].
    destruct (_ && _); [apply handleRetry_noneStarted|apply noneEnters_refl].
  - by apply noneEnters_updateJob.
  - apply noneEnters_fmap. intros j.
    destruct (thumbnailUrls j); [|done]. destruct (decide _); [|done]. by destruct j.
  - by apply noneEnters_updateJob.
  - by apply noneEnters_updateJob.
  - destruct (decide _); apply noneEnters_refl.
  - destruct (decide _); apply noneEnters_refl.
  - unfold pageEffect. destruct (decide _); apply noneEnters_refl.
  - destruct (selectionBarRendered s); apply noneEnters_refl.
  - unfold selectionEffect. destruct (decide _); apply noneEnters_refl.
  - apply noneEnters_filter.
  - destruct Hcase as [(_ & Hno & _)|[-> _]]; [done|].
    destruct (canRetrySelected s); [|apply noneEnters_refl].
    apply handleRetrySelected_noneStarted.
Qed.

(** Outside the two retry actions, a queued job was queued before or has
    just been created from a file. *)
Lemma step_noneRequeued a s s' :
  invariant s → isRetry a = false → step a s = Some s' →
  ∀ j', j' ∈ jobs s' → status j' = queued →
    (∃ j, j ∈ jobs s ∧ id j = id j' ∧ status j = queued)
    ∨ (∃ files f, a = FileSelect files ∧ f ∈ files ∧ j' = newJob (conversionMode s) f).
Proof.
  intros Hinv Hretry Hstep j' Hj' Hq.
  destruct (match a with FileSelect files => Some files | _ => None end)
    as [files|] eqn:Ha.
  - destruct a; try done. injection Ha as ->. simpl in Hstep. injection Hstep as <-.
    destruct (uploadEnabled files s); [|left; eauto].
    simpl in Hj'. apply elem_of_app in Hj' as [[_ Hj']%list_elem_of_filter|Hnew].
    + left. eauto.
    + right. apply list_elem_of_fmap in Hnew as (f & -> & Hf). eauto.
  - left. apply (step_noneEnters queued a s s'); try done.
    left. split_and!; [done..|]. intros files ->. done.
Qed.

Lemma requeued_fields job :
  status (requeued job) = queued ∧ errorMessage (requeued job) = None
  ∧ extractedSheets (requeued job) = None ∧ file (requeued job) = file job
  ∧ id (requeued job) = id job.
Proof. by destruct job. Qed.

Lemma handleRetry_lookup jobId s i j :
  jobs s !! i = Some j →
  jobs (handleRetry jobId s) !! i = Some (if decide (id j = jobId) then requeued j else j).
Proof. intros Hj. simpl. unfold updateJob. by rewrite list_lookup_fmap, Hj. Qed.

Lemma handleRetrySelected_lookup s i j :
  jobs s !! i = Some j →
  ∃ j', jobs (handleRetrySelected s) !! i = Some j' ∧ (j' = j ∨ j' = requeued j).
Proof.
  intros Hj. unfold handleRetrySelected.
  destruct (decide _); simpl; [|eauto].
  rewrite list_lookup_fmap, Hj. simpl. destruct (decide _); eauto.
Qed.

Lemma findJob_Some jobId jobs job :
  findJob jobId jobs = Some job → job ∈ jobs ∧ id job = jobId.
Proof.
  unfold findJob. destruct (list_find _ jobs) as [[i j]|] eqn:Hfind; [|done].
  intros [= <-]. apply list_find_Some in Hfind as (Hi & Hid & _).
  split; [by eapply list_elem_of_lookup_2|done].
Qed.

(** A retry action changes a job at most into its requeued form, and
    only when the job has its file. *)
Lemma retry_step_lookup a s s' i j :
  invariant s → isRetry a = true → step a s = Some s' → jobs s !! i = Some j →
  ∃ j', jobs s' !! i = Some j' ∧ (j' = j ∨ (is_Some (file j) ∧ j' = requeued j)).
Proof.
  intros Hinv Hretry Hstep Hj. destruct a; try done; simpl in Hstep.
  - destruct (paginatedJobs s !! k) as [job|] eqn:Hk; injection Hstep as <-; [|eauto].
    destruct (retryButtonRendered job && negb (retryButtonDisabled job)) eqn:Hgate; [|eauto].
    apply andb_true_iff in Hgate as [_ Hfile%negb_true_iff%bool_decide_eq_false].
    assert (Forall (fun j => is_Some (file j)) (jobs s)) as Hfiled.
    { eapply (uniformFiles_filed _ job); [apply Hinv| |].
      - eapply paginatedJobs_subseteq, list_elem_of_lookup_2, Hk.
      - left. by destruct (file job). }
    rewrite (handleRetry_lookup _ _ _ _ Hj). eexists. split; [done|].
    destruct (decide _); [|by left]. right. split; [|done].
    by eapply (proj1 (Forall_lookup _ _) Hfiled).
  - injection Hstep as <-. destruct (canRetrySelected s) eqn:Hcan; [|eauto].
    apply bool_decide_eq_true, Exists_exists in Hcan as (j0 & Hj0 & _ & _ & Hfile).
    assert (Forall (fun j => is_Some (file j)) (jobs s)) as Hfiled
      by (eapply (uniformFiles_filed _ j0); [apply Hinv|done|by left]).
    destruct (handleRetrySelected_lookup s i j Hj) as (j' & Hj' & [->| ->]); eauto.
    eexists. split; [done|]. right. split; [|done].
    by eapply (proj1 (Forall_lookup _ _) Hfiled).
Qed.

(** The batch retry requeues a selected job that failed and has its file,
    when it is the job that [find] returns for its id. *)
Lemma handleRetrySelected_requeues s i j :
  jobs s !! i = Some j → id j ∈ selectedJobIds s → findJob (id j) (jobs s) = Some j →
  status j = error → is_Some (file j) →
  step RetrySelected s = Some (handleRetrySelected s)
  ∧ jobs (handleRetrySelected s) !! i = Some (requeued j).
Proof.
  intros Hj Hsel Hfind Hst Hfile. split.
  - simpl. unfold canRetrySelected. rewrite bool_decide_eq_true_2; [done|].
    apply Exists_exists. exists j. split; [by eapply list_elem_of_lookup_2|done].
  - unfold handleRetrySelected.
    set (jobsToRetryIds := filter _ _).
    assert (id j ∈ jobsToRetryIds) as Hin.
    { unfold jobsToRetryIds. apply list_elem_of_filter. split.
      - unfold retryable. rewrite Hfind.
        by rewrite !bool_decide_eq_true_2.
      - by apply elem_of_elements. }
    rewrite decide_True by (destruct jobsToRetryIds; [by apply elem_of_nil in Hin|simpl; lia]).
    simpl. rewrite list_lookup_fmap, Hj. simpl. by rewrite decide_True.
Qed.

End RetryFacts.

(** ** Jobs shown as processing and calls in flight *)
Section Accounting.
Import Types Sheets Queue.

Lemma target_progress jobId (messages : list string) rest :
  target (((fun message => setJobs jobId [progressMessage_ (Some message)]) <$> messages)
          ++ rest)
  = target rest.
Proof. induction messages as [|m messages IH]; simpl; done. Qed.

(** What a call of [processJob] leaves in flight will set the status of
    its own job. *)
Lemma processJob_target P job f :
  file job = Some f → target (untilAwait (processJob P job)).2 = Some (id job).
Proof.
  intros Hf. unfold processJob. rewrite Hf. unfold convert.
  destruct (Types.conversionMode job).
  - unfold awaitConvertPdfToImages, awaitExtractDataFromPdfImages.
    destruct (convertPdfToImages P f _) as [messages [images|e]]; simpl;
      [destruct (extractDataFromPdfImages P images) as [rawSheets|e]; simpl|];
      rewrite <-?app_assoc; by rewrite target_progress.
  - unfold awaitReadExcelData.
    destruct (readExcelData P f) as [rawSheets|e]; simpl;
      [destruct (decide (length rawSheets = 0%nat)); simpl|]; done.
Qed.

Lemma dispatch_inFlight P s job :
  inFlight (dispatch P s job)
  = inFlight s ++ match (untilAwait (processJob P job)).2 with
                  | [] => []
                  | later => [later]
                  end.
Proof.
  unfold dispatch. destruct (untilAwait (processJob P job)) as [now later]. simpl.
  destruct later; simpl; rewrite applyEvents_inFlight; [by rewrite app_nil_r|done].
Qed.

Lemma dispatches_inFlight_mono P jobsToStart : ∀ s k t,
  inFlight s !! k = Some t → inFlight (foldl (dispatch P) s jobsToStart) !! k = Some t.
Proof.
  induction jobsToStart as [|job rest IH]; intros s k t Hk; simpl; [done|].
  apply IH. rewrite dispatch_inFlight. by apply lookup_app_l_Some.
Qed.

Lemma dispatches_target P jobsToStart : ∀ s js,
  js ∈ jobsToStart → is_Some (file js) →
  ∃ k t, inFlight (foldl (dispatch P) s jobsToStart) !! k = Some t
         ∧ target t = Some (id js).
Proof.
  induction jobsToStart as [|job rest IH]; intros s js Hjs Hfile; simpl.
  - by apply elem_of_nil in Hjs.
  - apply elem_of_cons in Hjs as [->|Hjs]; [|by apply IH].
    destruct Hfile as [f Hf].
    pose proof (processJob_target P job f Hf) as Htarget.
    exists (length (inFlight s)), (untilAwait (processJob P job)).2.
    split; [|done]. apply dispatches_inFlight_mono. rewrite dispatch_inFlight.
    destruct (untilAwait (processJob P job)).2 as [|e later] eqn:Hlater; [done|].
    by rewrite lookup_app_r, Nat.sub_diag.
Qed.

Lemma schedulerEffect_accounted P s :
  invariant s → accounted s → accounted (schedulerEffect P s).
Proof.
  intros Hinv Hacc. unfold schedulerEffect.
  destruct (Z.leb_spec (MAX_CONCURRENT_JOBS - activeJobsCount s) 0); [done|].
  set (jobsToStart := take _ _).
  destruct (decide (0 < length jobsToStart)%nat) as [Hpos|]; [|done].
  assert (Forall (fun j => is_Some (file j)) (jobs s)) as Hfiled.
  { destruct jobsToStart as [|j ?] eqn:Hj; [simpl in Hpos; lia|].
    assert (j ∈ jobsToStart) as Hin by (rewrite Hj; left).
    apply subseteq_take, list_elem_of_filter in Hin as [Hq Hin].
    eapply uniformFiles_filed; [apply Hinv|done|]. right. unfold isActive. by rewrite Hq. }
  set (s1 := withJobs _ s).
  intros j' Hj' Hprocessing.
  destruct (dispatches_noneEnters processing (or_intror eq_refl) P jobsToStart s1
              j' Hj' Hprocessing) as (j1 & Hj1 & Hid & Hst).
  simpl in Hj1. apply list_elem_of_fmap in Hj1 as (j & -> & Hj).
  assert (id j = id j') as <-
    by (rewrite <-Hid; destruct (admitted jobsToStart j); by destruct j).
  destruct (admitted jobsToStart j) eqn:Hadmitted.
  - apply bool_decide_eq_true, Exists_exists in Hadmitted as (js & Hjs & Hids).
    rewrite <-Hids. apply dispatches_target; [done|].
    apply subseteq_take, list_elem_of_filter in Hjs as [_ Hjs].
    by apply (proj1 (Forall_forall _ _) Hfiled).
  - destruct (Hacc j Hj Hst) as (k & t & Hk & Ht).
    exists k, t. split; [|done]. by apply dispatches_inFlight_mono.
Qed.

(** An event that sets the status leaves no job with its id processing. *)
Lemma applyEvent_terminal s e jobId j :
  settling e = true → terminalFor e = Some jobId →
  j ∈ jobs (applyEvent s e) → id j = jobId → status j ≠ processing.
Proof.
  destruct e as [x fields| |]; simpl; try done. intros Hsettling Hterminal.
  destruct (existsb setsStatus fields) eqn:Hsets; [|done]. injection Hterminal as ->.
  intros (j0 & -> & Hj0)%list_elem_of_fmap Hid. simpl in Hid |- *.
  destruct (decide (id j0 = jobId)) as [|Hne]; [|done].
  pose proof (spread_finished fields j0 Hsettling (or_introl Hsets)) as Hfin.
  unfold isActive in Hfin. by destruct (status (spread j0 fields)).
Qed.

Lemma resume_accounted k s : invariant s → accounted s → accounted (resume k s).
Proof.
  intros Hinv Hacc j' Hj' Hprocessing.
  destruct (resume_noneEnters processing (or_intror eq_refl) k s Hinv j' Hj' Hprocessing)
    as (j & Hj & Hid & Hst).
  destruct (Hacc j Hj Hst) as (k0 & t & Hk0 & Ht). rewrite Hid in Ht.
  revert Hj'. unfold resume.
  destruct (inFlight s !! k) as [[|e rest]|] eqn:Hk.
  - intros _. simpl. destruct (decide (k0 = k)) as [->|Hne]; [by simplify_eq|].
    destruct (decide (k0 < k)%nat).
    + exists k0, t. by rewrite list_lookup_delete_lt by done.
    + exists (pred k0), t. rewrite list_lookup_delete_ge by lia.
      by replace (S (pred k0)) with k0 by lia.
  - pose proof (proj1 (Forall_lookup _ _) (inv_settling s Hinv) k _ Hk) as Hsettle.
    apply Forall_cons in Hsettle as [He _].
    assert (jobs (applyEvent s e) = jobs (applyEvent s e)) as _ by done.
    intros Hj'.
    assert (j' ∈ jobs (applyEvent s e)) as Hj'' by (by destruct rest).
    assert (k0 = k → target rest = Some (id j') ∧ rest ≠ []) as Hsame.
    { intros ->. rewrite Hk in Hk0. injection Hk0 as <-. simpl in Ht.
      destruct (terminalFor e) as [x|] eqn:Hterminal.
      - injection Ht as ->.
        by destruct (applyEvent_terminal s e (id j') j' He Hterminal Hj'' eq_refl).
      - split; [done|]. by intros ->. }
    destruct rest as [|e' rest'].
    + destruct (decide (k0 = k)) as [Heq|Hne]; [by destruct (Hsame Heq)|].
      simpl. rewrite applyEvent_inFlight.
      destruct (decide (k0 < k)%nat).
      * exists k0, t. by rewrite list_lookup_delete_lt by done.
      * exists (pred k0), t. rewrite list_lookup_delete_ge by lia.
        by replace (S (pred k0)) with k0 by lia.
    + simpl. rewrite applyEvent_inFlight.
      destruct (decide (k0 = k)) as [Heq|Hne].
      * destruct (Hsame Heq) as [Hrest _]. subst k0. exists k, (e' :: rest').
        split; [|done]. apply list_lookup_insert_eq. by eapply lookup_lt_Some.
      * exists k0, t. by rewrite list_lookup_insert_ne.
  - intros _. eauto.
Qed.

Lemma step_inFlight a s s' :
  step a s = Some s' → (∀ P, a ≠ SchedulerEffect P) → (∀ k, a ≠ Resume k) →
  inFlight s' = inFlight s.
Proof.
  intros Hstep HnoEffect HnoResume.
  destruct a; simpl in Hstep; try injection Hstep as <-; try done.
  - by destruct (uploadEnabled files s).
  - unfold switchConversionMode. by destruct (decide _).
  - by destruct (HnoEffect P).
  - by destruct (HnoResume k).
  - destruct (paginatedJobs s !! k) as [job|]; [|by injection Hstep as <-].
    destruct (bool_decide _); [|by injection Hstep as <-].
    revert Hstep. unfold handleDownload.
    destruct (extractedSheets job) as [sheets|]; [|by intros [= <-]].
    destruct (generateOutput fuel W job sheets) as [[?|e]|]; simpl;
      [by intros [= <-]|by intros [= <-]|done].
  - destruct (paginatedJobs s !! k) as [job|]; injection Hstep as <-; [|done].
    by destruct (_ && _).
  - by destruct (decide _).
  - by destruct (decide _).
  - unfold pageEffect. by destruct (decide _).
  - by destruct (selectionBarRendered s).
  - unfold selectionEffect. by destruct (decide _).
  - destruct (canRetrySelected s); [|done]. unfold handleRetrySelected.
    by destruct (decide _).
Qed.

Lemma step_accounted a s s' :
  invariant s → accounted s → step a s = Some s' → accounted s'.
Proof.
  intros Hinv Hacc Hstep.
  destruct (match a with SchedulerEffect P => Some (inl P) | Resume k => Some (inr k)
                    | _ => None end) as [[P|k]|] eqn:Ha.
  - destruct a; try done. injection Ha as ->. simpl in Hstep. injection Hstep as <-.
    by apply schedulerEffect_accounted.
  - destruct a; try done. injection Ha as ->. simpl in Hstep. injection Hstep as <-.
    by apply resume_accounted.
  - assert (∀ P, a ≠ SchedulerEffect P) as HnoEffect by (intros P ->; done).
    assert (∀ k, a ≠ Resume k) as HnoResume by (intros k ->; done).
    intros j' Hj' Hprocessing.
    destruct (step_noneEnters processing a s s' Hinv Hstep (or_intror (conj eq_refl HnoEffect))
                j' Hj' Hprocessing) as (j & Hj & Hid & Hst).
    rewrite (step_inFlight a s s' Hstep HnoEffect HnoResume), <-Hid. by apply Hacc.
Qed.

Lemma reachable_accounted s : reachable s → accounted s.
Proof.
  induction 1 as [stored|s a s' Hs IH Hstep].
  - intros j Hj Hprocessing. exfalso.
    destruct (inv_files _ (initialApp_invariant stored)) as [Hnone|Hall].
    + apply (proj1 (Forall_forall _ _) Hnone) in Hj as [_ Hact].
      unfold isActive in Hact. by rewrite Hprocessing in Hact.
    + destruct stored as [| |savedJobs]; simpl in Hj; try by apply elem_of_nil in Hj.
      apply list_elem_of_fmap in Hj as (j0 & -> & _). revert Hprocessing.
      unfold restoreJob. by destruct j0 as [? ? ? ? [] ? ? ? ? ? ? ? ? ?].
  - eapply step_accounted; [by apply reachable_invariant|done..].
Qed.

Lemma length_omap_le {A B} (f : A → option B) l : (length (omap f l) ≤ length l)%nat.
Proof. induction l as [|x l IH]; csimpl; [done|]. destruct (f x); csimpl; lia. Qed.

Lemma NoDup_fmap_filter {A B} (f : A → B) (P : A → Prop) `{!∀ x, Decision (P x)} l :
  NoDup (f <$> l) → NoDup (f <$> filter P l).
Proof.
  induction l as [|x l IH]; simpl; [done|]. intros [Hx Hl]%NoDup_cons.
  rewrite filter_cons. destruct (decide (P x)); [|by apply IH]. simpl.
  apply NoDup_cons. split; [|by apply IH].
  intros (y & Hy & [_ Hin]%list_elem_of_filter)%list_elem_of_fmap.
  apply Hx. rewrite Hy. by apply list_elem_of_fmap_2.
Qed.

(** With distinct job ids the ceiling holds: in every reachable state no
    more jobs are shown as processing than calls are in flight, and no
    more calls are in flight than the ceiling allows. *)
Lemma ceiling_holds_for_distinct_ids s :
  reachable s → NoDup (id <$> jobs s) →
  processingCount (jobs s) ≤ activeJobsCount s
  ∧ activeJobsCount s ≤ MAX_CONCURRENT_JOBS.
Proof.
  intros Hs Hnd. pose proof (reachable_invariant s Hs) as Hinv.
  pose proof (reachable_accounted s Hs) as Hacc.
  split; [|apply Hinv]. rewrite (inv_counter s Hinv). unfold processingCount.
  apply inj_le. rewrite <-(length_fmap id).
  etrans; [|apply (length_omap_le target)].
  apply submseteq_length, NoDup_submseteq; [by apply NoDup_fmap_filter|].
  intros x (j & -> & [Hst Hj]%list_elem_of_filter)%list_elem_of_fmap.
  destruct (Hacc j Hj Hst) as (k & t & Hk & Ht).
  apply list_elem_of_omap. exists t. split; [by eapply list_elem_of_lookup_2|done].
Qed.

(** With distinct job ids the effect marks exactly the jobs it starts:
    the first queued jobs, as many as there are free slots. *)
Lemma admitted_jobsToStart s jobsToStart j :
  NoDup (id <$> jobs s) → jobsToStart ⊆ jobs s → j ∈ jobs s →
  admitted jobsToStart j = true ↔ j ∈ jobsToStart.
Proof.
  intros Hnd Hsub Hj. unfold admitted. rewrite bool_decide_eq_true, Exists_exists. split.
  - intros (js & Hjs & Hid).
    assert (js = j) as <-; [|done].
    apply Hsub in Hjs. clear Hsub.
    induction (jobs s) as [|x l IH]; [by apply elem_of_nil in Hj|].
    simpl in Hnd. apply NoDup_cons in Hnd as [Hx Hl].
    apply elem_of_cons in Hj as [->|Hj]; apply elem_of_cons in Hjs as [->|Hjs]; try done.
    + exfalso. apply Hx. rewrite <-Hid. by apply list_elem_of_fmap_2.
    + exfalso. apply Hx. rewrite Hid. by apply list_elem_of_fmap_2.
    + by apply IH.
  - intros Hin. eauto.
Qed.

End Accounting.

(** * The claims *)
Section Claims.
Import JsNumber JsString PageRange Types Sheets Queue Examples.

(** C1.  The ceiling on jobs shown as processing does not hold: four
    files with one name, modification time and size get one id; the
    scheduler effect starts three calls of [processJob] and, matching
    jobs by id, marks all four jobs as processing. *)
Theorem ceiling_exceeded_by_equal_ids :
  ∃ s,
    run [FileSelect copies; SchedulerEffect succeeding] (initialApp NoItem) = Some s
    ∧ reachable s
    ∧ activeJobsCount s = 3
    ∧ length (inFlight s) = 3%nat
    ∧ processingCount (jobs s) = 4
    ∧ MAX_CONCURRENT_JOBS < processingCount (jobs s).
Proof.
  destruct (run [FileSelect copies; SchedulerEffect succeeding] (initialApp NoItem))
    as [s|] eqn:Hrun; [|by vm_compute in Hrun].
  exists s. split; [done|]. split.
  - eapply run_reachable; [apply (reachable_initial NoItem)|done].
  - vm_compute in Hrun. injection Hrun as <-. by vm_compute.
Qed.

(** C2.  A call of [processJob] on a job with its file increments the
    counter once, before any pipeline step, and decrements it once, as
    its last event, however the steps end; in every reachable state the
    counter is the number of calls in flight, each of which still has its
    decrement to do, so the counter is 0 when none is in flight. *)
Theorem active_counter_paired P job f s :
  file job = Some f →
  reachable s →
  (∃ work,
      processJob P job = setActiveJobsCount 1 :: work ++ [setActiveJobsCount (-1)]
      ∧ Forall (fun e => isCounter e = false) work
      ∧ Exists (fun e => isAwait e = true) work)
  ∧ activeJobsCount s = Z.of_nat (length (inFlight s))
  ∧ Forall holdsSlot (inFlight s)
  ∧ (inFlight s = [] → activeJobsCount s = 0).
Proof.
  intros Hf Hs. split.
  - destruct (processJob_with_file P job f Hf) as (pre & call & post & Heq & Hpre & Hpost).
    exists (pre ++ await call :: post). split; [by rewrite Heq, <-app_assoc|]. split.
    + apply Forall_app. split; [eapply Forall_impl; [done|]; by intros ? []|].
      by constructor.
    + apply Exists_app. right. by left.
  - destruct (reachable_invariant s Hs) as [Hc _ Hslots _ _].
    split_and!; [done..|]. intros Hnil. by rewrite Hc, Hnil.
Qed.

(** An instance of C2: one file is added, converted and extracted. *)
Lemma active_counter_paired_witness :
  ∃ s,
    run [FileSelect [copy 0]; SchedulerEffect failing; Resume 0; Resume 0; Resume 0; Resume 0]
        (initialApp NoItem) = Some s
    ∧ inFlight s = []
    ∧ activeJobsCount s = 0.
Proof.
  destruct (run [FileSelect [copy 0]; SchedulerEffect failing;
                 Resume 0; Resume 0; Resume 0; Resume 0] (initialApp NoItem))
    as [s|] eqn:Hrun; [|by vm_compute in Hrun].
  exists s. split; [reflexivity|].
  assert (inFlight s = []) as Hnil
    by (vm_compute in Hrun; injection Hrun as <-; reflexivity).
  split; [exact Hnil|].
  apply (active_counter_paired failing (newJob pdf_to_excel (copy 0)) (copy 0) s);
    [reflexivity| |exact Hnil].
  eapply run_reachable; [apply (reachable_initial NoItem)|exact Hrun].
Defined.

(** C3.  Loading a saved queue: a job saved as processing or queued comes
    back as an error with the fixed message, every other job keeps its
    status, no job comes back with a file, and the retry button of a job
    without a file does nothing. *)
Theorem restored_queue_interrupts savedJobs i job :
  savedJobs !! i = Some job →
  ∃ job',
    jobs (initialApp (Saved savedJobs)) !! i = Some job'
    ∧ length (jobs (initialApp (Saved savedJobs))) = length savedJobs
    ∧ file job' = None
    ∧ id job' = id job
    ∧ (status job = processing ∨ status job = queued →
       status job' = error
       ∧ errorMessage job' = Some "Processing was interrupted. Please re-upload to retry."
       ∧ job' = spread job [status_ error;
                            errorMessage_
                              (Some "Processing was interrupted. Please re-upload to retry.");
                            file_ None])
    ∧ (status job = success ∨ status job = error →
       status job' = status job ∧ job' = spread job [file_ None])
    ∧ retryButtonDisabled job' = true
    ∧ (∀ s k, paginatedJobs s !! k = Some job' → step (ClickRetry k) s = Some s).
Proof.
  intros Hi. exists (restoreJob job). simpl.
  rewrite list_lookup_fmap, Hi, length_fmap. split; [done|]. split; [done|].
  assert (file (restoreJob job) = None) as Hfile
    by (unfold restoreJob; by destruct job as [? ? ? ? [] ? ? ? ? ? ? ? ? ?]).
  split; [done|]. split.
  { unfold restoreJob. by destruct job as [? ? ? ? [] ? ? ? ? ? ? ? ? ?]. }
  split.
  { unfold restoreJob. intros [Hst|Hst]; rewrite Hst; by destruct job. }
  split.
  { unfold restoreJob. intros [Hst|Hst]; rewrite Hst; by destruct job. }
  assert (retryButtonDisabled (restoreJob job) = true) as Hdisabled
    by (unfold retryButtonDisabled; by rewrite Hfile).
  split; [done|]. intros s k Hk. simpl. rewrite Hk, Hdisabled.
  by rewrite andb_false_r.
Qed.

(** Saving a queue and loading it again: a job that was queued or
    processing comes back as an error without its file. *)
Lemma reload_interrupts queue i job :
  queue !! i = Some job → isActive job = true →
  ∃ job', restoreQueue (persistQueue queue) !! i = Some job'
          ∧ status job' = error ∧ file job' = None ∧ id job' = id job.
Proof.
  intros Hi Hactive. simpl. rewrite !list_lookup_fmap, Hi. simpl. eexists. split; [done|].
  unfold restoreJob, isActive in *. by destruct job as [? ? ? ? [] ? ? ? ? ? ? ? ? ?].
Qed.

(** An instance of C3: a queue saved with one job in processing. *)
Lemma restored_queue_interrupts_witness :
  [savedProcessing] !! 0%nat = Some savedProcessing
  ∧ ∃ job',
      jobs (initialApp (Saved [savedProcessing])) !! 0%nat = Some job'
      ∧ status job' = error ∧ file job' = None ∧ retryButtonDisabled job' = true.
Proof.
  split; [reflexivity|].
  destruct (restored_queue_interrupts [savedProcessing] 0 savedProcessing eq_refl)
    as (job' & Hjob & _ & Hfile & _ & Hinterrupted & _ & Hdisabled & _).
  exists job'. destruct (Hinterrupted (or_introl eq_refl)) as (Hstatus & _).
  by split_and!.
Defined.

(** C4.  [processJob] on a job without its file: its only event marks
    the job as an error with a message; no pipeline step is awaited and
    the counter is not touched, so the call is over when it returns and
    takes no slot. *)
Theorem processJob_without_file P job s :
  file job = None →
  processJob P job
  = [setJobs (id job)
       [status_ error;
        errorMessage_ (Some "File not available. Please re-upload to process.")]]
  ∧ Forall (fun e => isAwait e = false ∧ isCounter e = false) (processJob P job)
  ∧ activeJobsCount (dispatch P s job) = activeJobsCount s
  ∧ inFlight (dispatch P s job) = inFlight s
  ∧ (∀ i j, jobs s !! i = Some j →
       ∃ j', jobs (dispatch P s job) !! i = Some j'
             ∧ if decide (id j = id job)
               then status j' = error
                    ∧ errorMessage j'
                      = Some "File not available. Please re-upload to process."
               else j' = j).
Proof.
  intros Hf. unfold dispatch, processJob. rewrite Hf. simpl.
  split; [done|]. split; [by repeat constructor|]. split; [done|]. split; [done|].
  intros i j Hj. unfold updateJob. rewrite list_lookup_fmap, Hj. simpl.
  eexists. split; [done|]. destruct (decide (id j = id job)); [|done]. by destruct j.
Qed.

(** An instance of C4: the job restored from a saved queue. *)
Lemma processJob_without_file_witness :
  file savedProcessing = None
  ∧ processJob succeeding savedProcessing
    = [setJobs (id savedProcessing)
         [status_ error;
          errorMessage_ (Some "File not available. Please re-upload to process.")]].
Proof.
  split; [reflexivity|].
  apply (processJob_without_file succeeding savedProcessing (initialApp NoItem)).
  reflexivity.
Defined.

(** C10.  [handleFileSelect] keeps the queued and processing jobs, in
    order, drops the jobs that succeeded or failed, appends one queued job
    per file and clears the selection. *)
Theorem handleFileSelect_replaces_finished files s :
  jobs (handleFileSelect files s)
  = filter (fun j => status j = queued ∨ status j = processing) (jobs s)
    ++ (newJob (conversionMode s) <$> files)
  ∧ filter (fun j => status j = queued ∨ status j = processing) (jobs s)
    = filter (fun j => status j ≠ success ∧ status j ≠ error) (jobs s)
  ∧ Forall (fun j => status j = queued ∧ ∃ f, f ∈ files ∧ file j = Some f)
           (newJob (conversionMode s) <$> files)
  ∧ selectedJobIds (handleFileSelect files s) = ∅.
Proof.
  split_and!.
  - simpl. f_equal. apply list_filter_iff. intros j. unfold isActive.
    destruct (status j); naive_solver.
  - apply list_filter_iff. intros j. destruct (status j); naive_solver.
  - apply Forall_fmap, Forall_forall. intros f Hf. simpl. eauto.
  - done.
Qed.

(** Against C7 as stated: the download of a finished job whose sheet
    filter selects no sheet fails, and the job is then shown as an error. *)
Lemma download_failure_changes_status :
  status workbook = success
  ∧ ∃ s',
      handleDownload 10 writers workbook withWorkbook = Some s'
      ∧ status <$> jobs s' = [error]
      ∧ errorMessage <$> jobs s'
        = [Some ("No sheets match the specified range: " +:+ doubleQuote +:+ "5"
                 +:+ doubleQuote +:+ ". Please check your input.")]
      ∧ extractedSheets <$> jobs s' = [extractedSheets workbook].
Proof. split; [done|]. eexists. split; [by vm_compute|]. by split_and!. Qed.

(** A sheet filter that selects no sheet makes the download throw. *)
Lemma empty_selection_rejected fuel W job sheets selectedSheetNumbers :
  Types.conversionMode job = excel_to_pdf →
  parsePageRange fuel (orEmpty (pageRange job)) (Z.of_nat (length sheets))
  = Some selectedSheetNumbers →
  selectSheets selectedSheetNumbers sheets = [] →
  generateOutput fuel W job sheets
  = Some (Rejected (ErrorObject
            ("No sheets match the specified range: " +:+ doubleQuote
             +:+ showPageRange (pageRange job) +:+ doubleQuote
             +:+ ". Please check your input."))).
Proof.
  intros Hmode Hparse Hnone. unfold generateOutput, downloadPdfFromSheets.
  rewrite Hmode, Hparse. simpl. by rewrite Hnone.
Qed.

(** A download that succeeds leaves the state as it is. *)
Lemma download_success_keeps_state fuel W job sheets s :
  extractedSheets job = Some sheets →
  generateOutput fuel W job sheets = Some (Resolved tt) →
  handleDownload fuel W job s = Some s.
Proof. intros Hsheets Hout. unfold handleDownload. by rewrite Hsheets, Hout. Qed.

(** C7, amended.  When the download step of a job with result sheets
    fails, [handleDownload] shows every job with that id as an error with
    the message of the failure; the result sheets of every job stay as
    they are, and the other jobs are not changed. *)
Theorem download_failure_marks_error fuel W job sheets e s :
  extractedSheets job = Some sheets →
  generateOutput fuel W job sheets = Some (Rejected e) →
  ∃ s',
    handleDownload fuel W job s = Some s'
    ∧ length (jobs s') = length (jobs s)
    ∧ ∀ i j, jobs s !! i = Some j →
        ∃ j', jobs s' !! i = Some j'
              ∧ extractedSheets j' = extractedSheets j
              ∧ if decide (id j = id job)
                then status j' = error
                     ∧ errorMessage j'
                       = Some (messageOf e "Failed to generate the output file.")
                else j' = j.
Proof.
  intros Hsheets Hout. unfold handleDownload. rewrite Hsheets, Hout. simpl.
  eexists. split; [done|]. split; [simpl; unfold updateJob; by rewrite length_fmap|].
  intros i j Hj. simpl. unfold updateJob. rewrite list_lookup_fmap, Hj. simpl.
  eexists. split; [done|]. destruct (decide (id j = id job)); [|done]. by destruct j.
Qed.

(** An instance of C7: the filter "5" on a workbook of three sheets. *)
Lemma download_failure_marks_error_witness :
  extractedSheets workbook = Some [sheet "Q1"; sheet "Q2"; sheet "Q3"]
  ∧ ∃ e s',
      generateOutput 10 writers workbook [sheet "Q1"; sheet "Q2"; sheet "Q3"]
      = Some (Rejected e)
      ∧ handleDownload 10 writers workbook withWorkbook = Some s'
      ∧ length (jobs s') = 1%nat.
Proof.
  split; [reflexivity|].
  eexists.
  destruct (download_failure_marks_error 10 writers workbook
              [sheet "Q1"; sheet "Q2"; sheet "Q3"]
              (ErrorObject ("No sheets match the specified range: " +:+ doubleQuote
                            +:+ "5" +:+ doubleQuote +:+ ". Please check your input."))
              withWorkbook eq_refl)
    as (s' & Hs' & Hlen & _); [by vm_compute|].
  exists s'. split; [by vm_compute|]. split; [exact Hs'|exact Hlen].
Defined.

(** Against C9 as stated: when every id of the page is already selected,
    the first toggle removes the page's ids and the second adds them. *)
Lemma toggle_twice_when_all_selected :
  (id workbook ∈ workbookSelected)
  ∧ (id workbook ∉ toggleSelectAll [workbook] workbookSelected)
  ∧ (id workbook ∈ toggleSelectAll [workbook] (toggleSelectAll [workbook] workbookSelected)).
Proof.
  split; [unfold workbookSelected; set_solver|]. split.
  - apply (bool_decide_unpack _). by vm_compute.
  - apply (bool_decide_unpack _). by vm_compute.
Qed.

(** On a page on which two jobs share an id the second toggle does not
    clear the page either: the test compares the number of selected ids
    with the number of jobs. *)
Lemma toggle_twice_with_equal_ids :
  (id (newJob pdf_to_excel (copy 0)) = id (newJob pdf_to_excel (copy 1)))
  ∧ (id (newJob pdf_to_excel (copy 0))
     ∈ toggleSelectAll [newJob pdf_to_excel (copy 0); newJob pdf_to_excel (copy 1)]
         (toggleSelectAll [newJob pdf_to_excel (copy 0); newJob pdf_to_excel (copy 1)] ∅)).
Proof. split; [done|]. apply (bool_decide_unpack _). by vm_compute. Qed.

(** C9, amended.  On a page whose jobs have distinct ids: unless every
    id of a non-empty page is already selected, the first toggle adds the
    ids of the page and the second removes exactly them; when every id is
    already selected, the first toggle removes them and the second adds
    them.  Ids that are not on the page are neither added nor removed. *)
Theorem toggleSelectAll_twice (paginatedJobs : list ProcessJob) (selectedJobIds : gset string) :
  NoDup (id <$> paginatedJobs) →
  let paginatedJobIds : gset string := list_to_set (id <$> paginatedJobs) in
  let once := toggleSelectAll paginatedJobs selectedJobIds in
  let twice := toggleSelectAll paginatedJobs once in
  (¬ (paginatedJobIds ⊆ selectedJobIds ∧ paginatedJobs ≠ []) →
     once = selectedJobIds ∪ paginatedJobIds ∧ twice = selectedJobIds ∖ paginatedJobIds)
  ∧ (paginatedJobIds ⊆ selectedJobIds ∧ paginatedJobs ≠ [] →
     once = selectedJobIds ∖ paginatedJobIds ∧ twice = selectedJobIds ∪ paginatedJobIds)
  ∧ (∀ i, i ∉ paginatedJobIds →
       (i ∈ once ↔ i ∈ selectedJobIds) ∧ (i ∈ twice ↔ i ∈ selectedJobIds)).
Proof.
  intros Hnd ids once twice.
  assert (∀ S : gset string,
            toggleSelectAll paginatedJobs S
            = if decide (ids ⊆ S ∧ paginatedJobs ≠ []) then S ∖ ids else S ∪ ids) as Htoggle.
  { intros S. unfold toggleSelectAll. fold ids.
    pose proof (selectedOnPage_all paginatedJobs S Hnd) as Hall. simpl in Hall. fold ids in Hall.
    destruct (decide (_ ∧ (0 < length paginatedJobs)%nat)) as [[Hlen Hpos]|Hno];
      destruct (decide (ids ⊆ S ∧ paginatedJobs ≠ [])) as [[Hsub Hne]|Hno']; try done.
    - exfalso. apply Hno'. split; [by apply Hall|]. intros ->. simpl in Hpos. lia.
    - exfalso. apply Hno. split; [by apply Hall|].
      destruct (length paginatedJobs) eqn:Hlen; [|lia].
      by apply nil_length_inv in Hlen. }
  assert (paginatedJobs = [] → ids = ∅) as Hempty by (intros ->; done).
  unfold twice, once. rewrite !Htoggle. split_and!.
  - intros Hno. rewrite decide_False by done. split; [done|].
    destruct (decide (paginatedJobs = [])) as [Hnil|Hne].
    + rewrite decide_False by naive_solver. rewrite (Hempty Hnil). set_solver.
    + rewrite decide_True by (split; [set_solver|done]). set_solver.
  - intros Hyes. rewrite decide_True by done. split; [done|].
    destruct Hyes as [Hsub Hne]. rewrite decide_False.
    + apply set_eq. intros x. rewrite !elem_of_union, elem_of_difference.
      destruct (decide (x ∈ ids)); set_solver.
    + intros [Hsub' _]. destruct paginatedJobs as [|j ?]; [done|].
      assert (id j ∈ ids) as Hj by (unfold ids; set_solver). set_solver.
  - intros i Hi. repeat case_decide; set_solver.
Qed.

(** An instance of C9: one job on the page, nothing selected. *)
Lemma toggleSelectAll_twice_witness :
  NoDup (id <$> [workbook])
  ∧ toggleSelectAll [workbook] ∅ = ∅ ∪ list_to_set (id <$> [workbook])
  ∧ toggleSelectAll [workbook] (toggleSelectAll [workbook] ∅)
    = ∅ ∖ list_to_set (id <$> [workbook]).
Proof.
  assert (NoDup (id <$> [workbook])) as Hnd by (apply NoDup_singleton).
  split; [exact Hnd|].
  apply (toggleSelectAll_twice [workbook] ∅ Hnd).
  intros [Hsub _]. apply (not_elem_of_empty (C:=gset string) (id workbook)).
  apply Hsub. set_solver.
Defined.

(** C6.  The style change does not merge the patch into every cell of
    every selected rectangle.  On a ragged sheet, whose second row is
    shorter than its first, a click on row 0, column 1 and then a click
    with the shift key held on row 1, column 0 select the rectangle from
    (0,0) to (1,1); three of its positions hold a cell, position (1,1)
    holds none, and [handleStyleChange] throws there: the state updater
    ends in a [TypeError] and no cell is styled. *)
Theorem style_change_on_ragged_sheet_throws :
  is_Some (cellAt [ragged] 0 0 0) ∧ is_Some (cellAt [ragged] 0 0 1)
  ∧ is_Some (cellAt [ragged] 0 1 0) ∧ cellAt [ragged] 0 1 1 = None
  ∧ (handleCellClick 0 true (handleCellClick 0 false None 0 1).1 1 0).2 = Some twoByTwo
  ∧ isCellSelected (Some twoByTwo) 1 1 = true
  ∧ handleStyleChange 0 (Some twoByTwo) boldPatch (Some [ragged]) = TypeError.
Proof. split_and!; first [by eexists | by vm_compute]. Qed.

(** Where the handler does what is asked of it.  When every position of
    the selected rectangle holds a cell of the addressed sheet (on every
    other selection it throws, [handleStyleChange_off_grid]),
    [handleStyleChange] returns the sheets in which exactly the cells of
    the rectangle are restyled: such a cell keeps its value, and its style
    is its former style with the fields named by the patch overridden and
    every other field kept; no sheet, row or cell is added or removed and
    nothing else changes.  Without a selection, or without staged sheets,
    nothing changes. *)
Lemma handleStyleChange_merges sheetIndex sel style prevData :
  (∀ r c, isCellSelected (Some sel) r c = true →
          is_Some (cellAt prevData sheetIndex r c)) →
  ∃ newSheets,
    handleStyleChange sheetIndex (Some sel) style (Some prevData) = Normal (Some newSheets)
    ∧ newSheets = restyleWhere (isCellSelected (Some sel)) sheetIndex style prevData
    ∧ length newSheets = length prevData
    ∧ (∀ i, sheetName <$> newSheets !! i = sheetName <$> prevData !! i)
    ∧ (∀ i, (fun sheet => length <$> data sheet) <$> newSheets !! i
            = (fun sheet => length <$> data sheet) <$> prevData !! i)
    ∧ (∀ i r c,
         cellAt newSheets i r c
         = (fun cell =>
              if bool_decide (i = sheetIndex) && isCellSelected (Some sel) r c
              then {| value := value cell;
                      style := Some (mergeStyle (default emptyStyle (Types.style cell))
                                                style) |}
              else cell) <$> cellAt prevData i r c)
    ∧ (∀ currentStyle,
         (Partial.bold style = None →
          bold (mergeStyle currentStyle style) = bold currentStyle)
         ∧ (Partial.italic style = None →
            italic (mergeStyle currentStyle style) = italic currentStyle)
         ∧ (Partial.underline style = None →
            underline (mergeStyle currentStyle style) = underline currentStyle)
         ∧ (Partial.strikethrough style = None →
            strikethrough (mergeStyle currentStyle style) = strikethrough currentStyle)
         ∧ (Partial.color style = None →
            color (mergeStyle currentStyle style) = color currentStyle)
         ∧ (Partial.align style = None →
            align (mergeStyle currentStyle style) = align currentStyle))
    ∧ handleStyleChange sheetIndex None style (Some prevData) = Normal (Some prevData)
    ∧ handleStyleChange sheetIndex (Some sel) style None = Normal None.
Proof.
  intros Hgrid. eexists. split; [by apply handleStyleChange_restyleWhere|].
  split; [done|]. split; [apply restyleWhere_length|].
  split.
  { intros i. rewrite restyleWhere_lookup. destruct (prevData !! i); simpl; [|done].
    by destruct (decide (i = sheetIndex)). }
  split.
  { intros i. rewrite restyleWhere_lookup. destruct (prevData !! i) as [sh|]; simpl; [|done].
    destruct (decide (i = sheetIndex)); [|done]. simpl. f_equal.
    apply list_eq. intros r. rewrite !list_lookup_fmap, list_lookup_imap.
    destruct (data sh !! r); simpl; [|done]. by rewrite length_imap. }
  split; [apply cellAt_restyleWhere|].
  split; [intros currentStyle; apply mergeStyle_keeps_unnamed|].
  done.
Qed.

(** An instance: bold on a cell whose style is a white colour. *)
Lemma handleStyleChange_merges_witness :
  (∀ r c, isCellSelected (Some oneCell) r c = true →
          is_Some (cellAt [ {| sheetName := "Table 1"; data := [[whiteCell]] |} ] 0 r c))
  ∧ ∃ newSheets,
      handleStyleChange 0 (Some oneCell) boldPatch
        (Some [ {| sheetName := "Table 1"; data := [[whiteCell]] |} ])
      = Normal (Some newSheets)
      ∧ cellAt newSheets 0 0 0
        = Some {| value := "Tea";
                  style := Some {| bold := Some true; italic := None; underline := None;
                                   strikethrough := None; color := Some "#fff";
                                   align := None |} |}.
Proof.
  assert (∀ r c, isCellSelected (Some oneCell) r c = true →
                 is_Some (cellAt [ {| sheetName := "Table 1"; data := [[whiteCell]] |} ] 0 r c))
    as Hgrid.
  { intros [|r] [|c]; simpl; first [done | by eexists]. }
  split; [exact Hgrid|].
  destruct (handleStyleChange_merges 0 oneCell boldPatch
              [ {| sheetName := "Table 1"; data := [[whiteCell]] |} ] Hgrid)
    as (newSheets & Hrun & _ & _ & _ & _ & Hcell & _).
  exists newSheets. split; [exact Hrun|]. rewrite Hcell. reflexivity.
Defined.

(** The examples of the parser's contract. *)
Lemma parsePageRange_examples :
  parsePageRange 8 "" 5 = Some [1; 2; 3; 4; 5]
  ∧ parsePageRange 8 "2,4-5" 5 = Some [2; 4; 5]
  ∧ parsePageRange 8 "9" 5 = Some []
  ∧ parsePageRange 8 "0-2" 5 = Some [1; 2]
  ∧ parsePageRange 8 "   " 0 = Some []
  ∧ parsePageRange 8 "5-2,x,3-" 5 = Some [].
Proof. split_and!; by vm_compute. Qed.

(** A range from 1 to [2^53] does not return either, after [2^53]
    iterations that do return to the loop test. *)
Lemma parsePageRange_counts_for_ever fuel :
  parsePageRange fuel "1-9007199254740992" 5 = None.
Proof.
  unfold parsePageRange.
  replace (String.eqb _ _) with false by reflexivity.
  replace (split "," _) with ["1-9007199254740992"%string] by reflexivity.
  cbn [addParts]. unfold addPart.
  replace (includes _ _) with true by reflexivity.
  replace (_ <$> split "-" _) with [Num 1; Num (2 ^ 53)] by (by vm_compute).
  cbn [isNaN negb andb].
  by rewrite forRange_stuck by lia.
Qed.

(** C5.  [parsePageRange] does not return on every text: on a range that
    starts and ends at [2^53] the loop test [i <= end] holds, and [i++]
    leaves [i] as it is, so no number of iterations reaches the exit. *)
Theorem parsePageRange_never_returns fuel :
  parsePageRange fuel "9007199254740992-9007199254740992" 5 = None.
Proof.
  unfold parsePageRange.
  replace (String.eqb _ _) with false by reflexivity.
  replace (split "," _) with ["9007199254740992-9007199254740992"%string] by reflexivity.
  cbn [addParts]. unfold addPart.
  replace (includes _ _) with true by reflexivity.
  replace (_ <$> split "-" _) with [Num (2 ^ 53); Num (2 ^ 53)] by (by vm_compute).
  cbn [isNaN negb andb].
  by rewrite forRange_stuck by lia.
Qed.

(** C8.  In every reachable state: the retry button calls [handleRetry]
    only on a failed job that has its file; [handleRetry] and the batch
    retry turn a job into its requeued form, with status queued and no
    error message or result sheets; neither retry action changes a job
    without its file; and no other action makes a job queued, apart from
    adding files, which creates new jobs. *)
Theorem retry_is_manual_and_needs_source s :
  reachable s →
  (∀ k job, paginatedJobs s !! k = Some job →
     step (ClickRetry k) s
     = Some (if bool_decide (status job = error) && bool_decide (is_Some (file job))
             then handleRetry (id job) s else s))
  ∧ (∀ jobId i j, jobs s !! i = Some j →
       jobs (handleRetry jobId s) !! i
       = Some (if decide (id j = jobId) then requeued j else j))
  ∧ (∀ j, status (requeued j) = queued ∧ errorMessage (requeued j) = None
          ∧ extractedSheets (requeued j) = None ∧ file (requeued j) = file j
          ∧ id (requeued j) = id j)
  ∧ (∀ i j, jobs s !! i = Some j → id j ∈ selectedJobIds s →
       findJob (id j) (jobs s) = Some j → status j = error → is_Some (file j) →
       step RetrySelected s = Some (handleRetrySelected s)
       ∧ jobs (handleRetrySelected s) !! i = Some (requeued j))
  ∧ (∀ a s' i j, isRetry a = true → step a s = Some s' → jobs s !! i = Some j →
       ∃ j', jobs s' !! i = Some j' ∧ (j' = j ∨ (is_Some (file j) ∧ j' = requeued j)))
  ∧ (∀ a s' i j, isRetry a = true → step a s = Some s' → jobs s !! i = Some j →
       file j = None → jobs s' !! i = Some j)
  ∧ (∀ a s' j', isRetry a = false → step a s = Some s' →
       j' ∈ jobs s' → status j' = queued →
       (∃ j, j ∈ jobs s ∧ id j = id j' ∧ status j = queued)
       ∨ (∃ files f, a = FileSelect files ∧ f ∈ files
                     ∧ j' = newJob (conversionMode s) f)).
Proof.
  intros Hinv%reachable_invariant. split_and!.
  - intros k job Hk. simpl. rewrite Hk. f_equal.
    unfold retryButtonRendered, retryButtonDisabled.
    by destruct (file job); destruct (bool_decide (status job = error)).
  - intros jobId i j Hj. by apply handleRetry_lookup.
  - apply requeued_fields.
  - intros i j. apply handleRetrySelected_requeues.
  - intros a s' i j. by apply retry_step_lookup.
  - intros a s' i j Hretry Hstep Hj Hnone.
    destruct (retry_step_lookup a s s' i j Hinv Hretry Hstep Hj)
      as (j' & Hj' & [->|[[f Hf] _]]); [done|congruence].
  - intros a s' j' Hretry Hstep. by apply (step_noneRequeued a s s').
Qed.

(** An instance of C8: the retry button of a job restored without its
    file. *)
Lemma retry_is_manual_and_needs_source_witness :
  reachable (initialApp (Saved [savedProcessing]))
  ∧ step (ClickRetry 0) (initialApp (Saved [savedProcessing]))
    = Some (initialApp (Saved [savedProcessing])).
Proof.
  split; [apply reachable_initial|].
  destruct (retry_is_manual_and_needs_source (initialApp (Saved [savedProcessing]))
              (reachable_initial _)) as (Hclick & _).
  rewrite (Hclick 0%nat (restoreJob savedProcessing) eq_refl). reflexivity.
Defined.

End Claims.

(** * Further properties *)

(** ** The pages that [parsePageRange] returns *)
Section PageRangeExact.
Import JsNumber JsString PageRange Tokens.

Lemma round53_ge v : 2 ^ 53 ≤ v → 2 ^ 53 ≤ round53 v.
Proof.
  intros Hv. unfold round53. destruct (Z.ltb_spec v (2 ^ 53)); [lia|].
  assert (53 ≤ Z.log2 v) as Hlog by (apply Z.log2_le_pow2; lia).
  set (e := Z.log2 v - 52). assert (1 ≤ e) as He by lia.
  assert (0 < 2 ^ e) as Hpos by (apply Z.pow_pos_nonneg; lia).
  assert (2 ^ 52 ≤ v / 2 ^ e) as Hq.
  { apply Z.div_le_lower_bound; [done|].
    rewrite Z.mul_comm, <-Z.pow_add_r by lia.
    replace (52 + e) with (Z.log2 v) by lia. apply Z.log2_spec. lia. }
  assert (2 ^ 53 ≤ 2 ^ 52 * 2 ^ e) as Hbig.
  { change (2 ^ 53) with (2 ^ 52 * 2 ^ 1).
    apply Z.mul_le_mono_nonneg_l; [lia|]. apply Z.pow_le_mono_r; lia. }
  destruct (_ || _); nia.
Qed.

Lemma round53_nonneg v : 0 ≤ v → 0 ≤ round53 v.
Proof.
  intros Hv. destruct (decide (v < 2 ^ 53)) as [Hlt|Hge].
  - unfold round53. destruct (Z.ltb_spec v (2 ^ 53)); lia.
  - pose proof (round53_ge v). lia.
Qed.

Lemma toNumber_nonneg v :
  0 ≤ v → toNumber v = Inf false ∨ ∃ i, toNumber v = Num i ∧ 0 ≤ i.
Proof.
  intros Hv. unfold toNumber. rewrite Z.abs_eq by done.
  pose proof (round53_nonneg v Hv).
  destruct (_ <=? _).
  - left. f_equal. by apply Z.ltb_ge.
  - right. eexists. split; [done|]. destruct (Z.sgn_spec v) as [[? ->]|[[? ->]|[? ->]]]; lia.
Qed.

Lemma incr_big x : big x → big (incr x).
Proof.
  intros [->|(i & -> & Hi)]; [by left|]. simpl. unfold toNumber.
  rewrite Z.abs_eq by lia. pose proof (round53_ge (i + 1)).
  destruct (_ <=? _).
  - left. f_equal. apply Z.ltb_ge. lia.
  - right. eexists. split; [done|]. rewrite Z.sgn_pos by lia. lia.
Qed.

Lemma addIfInBounds_big x maxPages pages :
  maxPages < 2 ^ 53 → big x → addIfInBounds x maxPages pages = pages.
Proof.
  intros Hm [->|(i & -> & Hi)]; [done|]. simpl.
  destruct (Z.leb_spec i maxPages); [lia|]. by rewrite andb_false_r.
Qed.

(** A loop that starts at [2^53] or above adds no page. *)
Lemma forRange_big fuel : ∀ x end_ maxPages pages pages',
  maxPages < 2 ^ 53 → big x →
  forRange fuel x end_ maxPages pages = Some pages' → pages' = pages.
Proof.
  induction fuel as [|fuel IH]; intros x end_ maxPages pages pages' Hm Hx; cbn [forRange].
  - destruct (le x end_); [done|]. by intros [= <-].
  - destruct (le x end_); [|by intros [= <-]].
    rewrite addIfInBounds_big by done. apply IH; [done|]. by apply incr_big.
Qed.

Lemma elem_of_Set_add p i pages : p ∈ Set_add i pages ↔ p ∈ pages ∨ p = i.
Proof.
  unfold Set_add. destruct (decide (i ∈ pages)) as [Hin|Hout].
  - split; [by left|]. by intros [?| ->].
  - rewrite elem_of_app, list_elem_of_singleton. tauto.
Qed.

Lemma elem_of_addIfInBounds p i maxPages pages :
  p ∈ addIfInBounds (Num i) maxPages pages ↔ p ∈ pages ∨ (p = i ∧ 1 ≤ i ≤ maxPages).
Proof.
  simpl. destruct (Z.leb_spec i 0); simpl.
  - split; [by left|]. intros [?|[_ ?]]; [done|lia].
  - destruct (Z.leb_spec i maxPages).
    + rewrite elem_of_Set_add. split; intros [?|?]; auto. right. split; [done|lia]. tauto.
    + split; [by left|]. intros [?|[_ ?]]; [done|lia].
Qed.

Lemma elem_of_addIfInBounds_raw p z maxPages pages :
  p ∈ pages ∨ (p = z ∧ 1 ≤ z ≤ maxPages)
  ↔ p ∈ (if negb (z <=? 0) && (z <=? maxPages) then Set_add z pages else pages).
Proof. symmetry. apply elem_of_addIfInBounds. Qed.

(** The loop adds exactly the numbers from its start to its end that are
    pages. *)
Lemma forRange_exact fuel : ∀ i e maxPages pages pages',
  maxPages < 2 ^ 53 → 0 ≤ i →
  forRange fuel (Num i) (Num e) maxPages pages = Some pages' →
  ∀ p, p ∈ pages' ↔ p ∈ pages ∨ (i ≤ p ≤ e ∧ 1 ≤ p ≤ maxPages).
Proof.
  induction fuel as [|fuel IH]; intros i e maxPages pages pages' Hm Hi; cbn [forRange le].
  - destruct (Z.leb_spec i e); [done|]. intros [= <-] p. split; [by left|].
    intros [?|[? ?]]; [done|lia].
  - destruct (Z.leb_spec i e); [|intros [= <-] p; split; [by left|]; intros [?|[? ?]]; [done|lia]].
    destruct (decide (i < 2 ^ 53)) as [Hsmall|Hlarge].
    + rewrite incr_exact by lia. intros Hrun p.
      assert (0 ≤ i + 1) as Hi' by lia.
      rewrite (IH _ _ _ _ _ Hm Hi' Hrun p), elem_of_addIfInBounds.
      split; [intros [[?|[-> ?]]|[? ?]]|intros [?|[? ?]]]; auto; try (right; lia).
      destruct (decide (p = i)) as [->|]; [left; right; split; [done|lia]|right; lia].
    + intros Hrun p.
      assert (big (Num i)) as Hbig by (right; exists i; split; [done|lia]).
      revert Hrun. rewrite (addIfInBounds_big (Num i) _ _ Hm Hbig).
      apply incr_big in Hbig.
      intros ->%forRange_big; [|done..]. split; [by left|]. intros [?|[? ?]]; [done|lia].
Qed.

(** A loop whose end is infinite, or whose counter passes [2^53] on its
    way to the end, never returns. *)
Lemma forRange_Inf fuel : ∀ x maxPages pages,
  (x = Inf false ∨ ∃ i, x = Num i ∧ 0 ≤ i) →
  forRange fuel x (Inf false) maxPages pages = None.
Proof.
  induction fuel as [|fuel IH]; intros x maxPages pages Hx; cbn [forRange].
  - by destruct Hx as [->|(i & -> & _)].
  - assert (le x (Inf false) = true) as -> by (by destruct Hx as [->|(i & -> & _)]).
    apply IH. destruct Hx as [->|(i & -> & Hi)]; [by left|].
    simpl. apply toNumber_nonneg. lia.
Qed.

(** ** Tokens without a dash parse to numbers that are not negative *)

Lemma includes_rev_app c s1 : ∀ s2,
  includes c (String.rev_app s1 s2) = includes c s1 || includes c s2.
Proof.
  induction s1 as [|a s1 IH]; intros s2; simpl; [done|].
  rewrite IH. simpl. destruct (Ascii.eqb a c), (includes c s1), (includes c s2); done.
Qed.

Lemma includes_rev c s : includes c (String.rev s) = includes c s.
Proof. unfold String.rev. rewrite includes_rev_app. simpl. by rewrite orb_false_r. Qed.

Lemma includes_trimStart c s : includes c s = false → includes c (trimStart s) = false.
Proof.
  induction s as [|a s IH]; simpl; [done|]. intros [Ha Hs]%orb_false_iff.
  destruct (isWhiteSpace a); [by apply IH|]. simpl. by rewrite Ha, Hs.
Qed.

Lemma includes_trim c s : includes c s = false → includes c (trim s) = false.
Proof.
  intros Hs. unfold trim, trimEnd. rewrite includes_rev. apply includes_trimStart.
  rewrite includes_rev. by apply includes_trimStart.
Qed.

Lemma split_without_separator sep s : Forall (fun x => includes sep x = false) (split sep s).
Proof.
  induction s as [|a s IH]; simpl; [by repeat constructor|].
  destruct (Ascii.eqb a sep) eqn:Ha; [by constructor|].
  destruct (split sep s) as [|x xs]; [by repeat constructor; simpl; rewrite Ha|].
  apply Forall_cons in IH as [Hx Hxs]. constructor; [|done]. simpl. by rewrite Ha, Hx.
Qed.

Lemma digitsValue_nonneg ds : Forall (fun d => 0 ≤ d) ds → 0 ≤ digitsValue ds.
Proof.
  unfold digitsValue. intros Hds.
  assert (∀ acc, 0 ≤ acc → 0 ≤ foldl (fun acc d => 10 * acc + d) acc ds) as Hfold.
  { induction Hds as [|d ds Hd Hds IH]; intros acc Hacc; simpl; [done|]. apply IH. lia. }
  by apply Hfold.
Qed.

Lemma leadingDigits_nonneg s : Forall (fun d => 0 ≤ d) (leadingDigits s).
Proof.
  induction s as [|a s IH]; simpl; [constructor|].
  unfold digit. destruct (_ && _) eqn:Hd; [|constructor].
  constructor; [|done]. apply andb_true_iff in Hd as [?%Nat.leb_le _]. lia.
Qed.

Lemma parseInt_nonneg s :
  includes "-" s = false →
  parseInt s = NaN ∨ parseInt s = Inf false ∨ ∃ i, parseInt s = Num i ∧ 0 ≤ i.
Proof.
  intros Hs%includes_trimStart.
  assert (∀ s2, let v := match leadingDigits s2 with
                         | [] => NaN
                         | ds => toNumber (1 * digitsValue ds)
                         end in
                v = NaN ∨ v = Inf false ∨ ∃ i, v = Num i ∧ 0 ≤ i) as Hpos.
  { intros s2. pose proof (digitsValue_nonneg _ (leadingDigits_nonneg s2)) as Hv.
    destruct (leadingDigits s2); [by left|]. right. apply toNumber_nonneg. lia. }
  unfold parseInt. destruct (trimStart s) as [|a r]; [by left|].
  destruct a as [[] [] [] [] [] [] [] []]; try apply Hpos.
  simpl in Hs. done.
Qed.

Lemma rangeBounds_nonneg part start end_ :
  rangeBounds part = Some (start, end_) →
  (start = NaN ∨ start = Inf false ∨ ∃ i, start = Num i ∧ 0 ≤ i)
  ∧ (end_ = NaN ∨ end_ = Inf false ∨ ∃ i, end_ = Num i ∧ 0 ≤ i).
Proof.
  unfold rangeBounds. pose proof (split_without_separator "-" part) as Hsplit.
  destruct (split "-" part) as [|s1 [|s2 rest]]; [done..|].
  apply Forall_cons in Hsplit as [H1 [H2 _]%Forall_cons].
  intros [= <- <-]. split; by apply parseInt_nonneg, includes_trim.
Qed.

Lemma addPart_exact fuel maxPages part pages pages' :
  maxPages < 2 ^ 53 →
  addPart fuel maxPages part pages = Some pages' →
  ∀ p, p ∈ pages' ↔ p ∈ pages ∨ (1 ≤ p ≤ maxPages ∧ names part p).
Proof.
  intros Hm. unfold addPart, names. destruct (includes "-" part) eqn:Hdash.
  - pose proof (rangeBounds_nonneg part) as Hnonneg. unfold rangeBounds in *.
    destruct (_ <$> split "-" part) as [|start [|end_ rest]].
    { intros [= <-] p. split; [by left|]. by intros [?|[_ (? & ? & ? & _)]]. }
    { intros [= <-] p. split; [by left|]. by intros [?|[_ (? & ? & ? & _)]]. }
    destruct (Hnonneg _ _ eq_refl) as [Hstart Hend].
    destruct Hstart as [->|[->|(i & -> & Hi)]]; simpl.
    + intros [= <-] p. split; [by left|]. by intros [?|[_ (? & ? & ? & _)]].
    + destruct Hend as [->|[->|(e & -> & He)]]; simpl.
      * intros [= <-] p. split; [by left|]. by intros [?|[_ (? & ? & ? & _)]].
      * rewrite forRange_Inf by (by left). done.
      * destruct fuel; simpl; intros [= <-] p; (split; [by left|]);
          by intros [?|[_ (? & ? & ? & _)]].
    + destruct Hend as [->|[->|(e & -> & He)]]; simpl.
      * intros [= <-] p. split; [by left|]. by intros [?|[_ (? & ? & ? & _)]].
      * rewrite forRange_Inf by (right; eauto). done.
      * intros Hrun p. rewrite (forRange_exact _ _ _ _ _ _ Hm Hi Hrun p).
        split; (intros [?|Hp]; [by left|right]).
        -- split; [lia|]. exists i, e. split; [done|lia].
        -- destruct Hp as [? (a & b & [= <- <-] & ?)]. lia.
  - destruct (parseInt (trim part)) as [|z|negative] eqn:Hpage; cbn [isNaN negb].
    + intros [= <-] p. split; [by left|]. by intros [?|[_ ?]].
    + intros [= <-] p. rewrite <-elem_of_addIfInBounds_raw.
      split; (intros [?|Hp]; [by left|right]).
      * destruct Hp as [-> ?]. done.
      * destruct Hp as [? [= ->]]. done.
    + intros [= <-] p. split; [by left|]. by intros [?|[_ ?]].
Qed.

Lemma addParts_exact fuel maxPages parts : ∀ pages pages',
  maxPages < 2 ^ 53 →
  addParts fuel maxPages parts pages = Some pages' →
  ∀ p, p ∈ pages' ↔
       p ∈ pages ∨ (1 ≤ p ≤ maxPages ∧ ∃ part, part ∈ parts ∧ names part p).
Proof.
  induction parts as [|part parts IH]; intros pages pages' Hm; simpl.
  - intros [= <-] p. split; [by left|]. intros [?|[_ (? & []%elem_of_nil & _)]]. done.
  - destruct (addPart fuel maxPages part pages) as [pages1|] eqn:Hpart; [|done]. simpl.
    intros Hrest p.
    rewrite (IH _ _ Hm Hrest p), (addPart_exact _ _ _ _ _ Hm Hpart p).
    split.
    + intros [[?|[? ?]]|[? (part' & ? & ?)]]; [by left|right..].
      * split; [done|]. exists part. split; [left|done].
      * split; [done|]. exists part'. split; [by right|done].
    + intros [?|[? (part' & [->|?]%elem_of_cons & ?)]]; [by left; left|by left; right|].
      right. split; [done|]. by exists part'.
Qed.

(** The pages returned for a range string that is not blank are those
    that the loop over the tokens has added. *)
Lemma parsePageRange_parts fuel rangeStr maxPages pages :
  trim rangeStr ≠ "" →
  parsePageRange fuel rangeStr maxPages = Some pages →
  ∃ added, addParts fuel maxPages (split "," rangeStr) [] = Some added
           ∧ ∀ p, p ∈ pages ↔ p ∈ added.
Proof.
  intros Hblank. unfold parsePageRange.
  destruct (String.eqb_spec (trim rangeStr) "") as [|_]; [done|].
  destruct (addParts _ _ _ _) as [added|]; [|done]. intros [= <-].
  exists added. split; [done|]. intros p. unfold sortAscending.
  by rewrite merge_sort_Permutation.
Qed.

(** X1.  For a page count below [2^53] and a range string that is not
    blank, the pages that [parsePageRange] returns are exactly the pages
    of the document that some comma-separated token names: the numbers
    from start to end of a token with a dash, the number of a token
    without one. *)
Theorem parsePageRange_exact fuel rangeStr maxPages pages :
  maxPages < 2 ^ 53 →
  trim rangeStr ≠ "" →
  parsePageRange fuel rangeStr maxPages = Some pages →
  ∀ p, p ∈ pages ↔
       1 ≤ p ≤ maxPages ∧ ∃ part, part ∈ split "," rangeStr ∧ names part p.
Proof.
  intros Hm Hblank Hpages p.
  destruct (parsePageRange_parts _ _ _ _ Hblank Hpages) as (added & Hadded & ->).
  rewrite (addParts_exact _ _ _ _ _ Hm Hadded p). split; [|by right].
  by intros [[]%elem_of_nil|?].
Qed.

Lemma parsePageRange_exact_witness :
  2 ∈ [1; 2; 3] ↔ 1 ≤ 2 ≤ 4 ∧ ∃ part, part ∈ split "," "1-3, 5" ∧ names part 2.
Proof.
  apply (parsePageRange_exact 10 "1-3, 5" 4 [1; 2; 3]);
    [by vm_compute|by vm_compute|reflexivity].
Defined.

Lemma forRange_skipped fuel start end_ maxPages pages :
  le start end_ = false → forRange fuel start end_ maxPages pages = Some pages.
Proof. intros Hle. destruct fuel; simpl; by rewrite Hle. Qed.

Lemma addPart_returns fuel maxPages part pages :
  (Z.to_nat (2 ^ 53) ≤ fuel)%nat →
  bounded part = true →
  ∃ pages', addPart fuel maxPages part pages = Some pages'.
Proof.
  intros Hfuel. unfold bounded, addPart. destruct (includes "-" part); [|eauto].
  pose proof (rangeBounds_nonneg part) as Hnonneg. unfold rangeBounds in *.
  destruct (_ <$> split "-" part) as [|start [|end_ rest]]; [eauto..|].
  destruct (Hnonneg _ _ eq_refl) as [Hstart Hend].
  destruct (isNaN start) eqn:Hs; [eauto|]. destruct (isNaN end_) eqn:He; [eauto|].
  destruct (le start end_) eqn:Hle; cbn [negb orb andb];
    [|intros _; rewrite forRange_skipped; eauto].
  destruct end_ as [|e|?]; [done| |done]. intros He'%Z.ltb_lt.
  destruct Hstart as [->|[->|(i & -> & Hi)]]; [done..|].
  apply forRange_returns; lia.
Qed.

Lemma addPart_more_fuel fuel fuel' maxPages part pages pages' :
  (fuel ≤ fuel')%nat →
  addPart fuel maxPages part pages = Some pages' →
  addPart fuel' maxPages part pages = Some pages'.
Proof.
  intros Hfuel. unfold addPart. destruct (includes "-" part); [|done].
  destruct (_ <$> split "-" part) as [|start [|end_ rest]]; [done..|].
  destruct (_ && _); [|done]. by apply forRange_more_fuel.
Qed.

Lemma addParts_more_fuel fuel fuel' maxPages parts : ∀ pages pages',
  (fuel ≤ fuel')%nat →
  addParts fuel maxPages parts pages = Some pages' →
  addParts fuel' maxPages parts pages = Some pages'.
Proof.
  induction parts as [|part parts IH]; intros pages pages' Hfuel; cbn [addParts]; [done|].
  destruct (addPart fuel maxPages part pages) as [pages1|] eqn:Hpart; [|done].
  rewrite (addPart_more_fuel _ _ _ _ _ _ Hfuel Hpart). cbn. by apply IH.
Qed.

Lemma addParts_returns fuel maxPages parts : ∀ pages,
  (Z.to_nat (2 ^ 53) ≤ fuel)%nat →
  forallb bounded parts = true →
  ∃ pages', addParts fuel maxPages parts pages = Some pages'.
Proof.
  induction parts as [|part parts IH]; intros pages Hfuel; cbn [addParts forallb]; [eauto|].
  intros [Hpart Hrest]%andb_true_iff.
  destruct (addPart_returns fuel maxPages part pages Hfuel Hpart) as [pages1 ->]. cbn.
  by apply IH.
Qed.

(** X2.  [parsePageRange] returns for every range string whose ranges
    all end below [2^53] (or are skipped: a bound that is not a number,
    or a start above the end), whatever the page count. *)
Theorem parsePageRange_returns rangeStr maxPages :
  forallb bounded (split "," rangeStr) = true →
  ∃ fuel pages, ∀ fuel', (fuel ≤ fuel')%nat →
    parsePageRange fuel' rangeStr maxPages = Some pages.
Proof.
  intros Hbounded. remember (Z.to_nat (2 ^ 53)) as fuel eqn:Hfuel. exists fuel.
  unfold parsePageRange. destruct (String.eqb _ _); [eauto|].
  destruct (addParts_returns fuel maxPages (split "," rangeStr) []) as [pages' Hpages'];
    [lia|done|].
  exists (sortAscending pages'). intros fuel' Hle.
  by rewrite (addParts_more_fuel _ _ _ _ _ _ Hle Hpages').
Qed.

Lemma parsePageRange_returns_witness :
  ∃ fuel pages, ∀ fuel', (fuel ≤ fuel')%nat →
    parsePageRange fuel' "7, 1-3, x-2, 9-4" 5 = Some pages.
Proof. apply (parsePageRange_returns "7, 1-3, x-2, 9-4" 5). reflexivity. Defined.

End PageRangeExact.

(** ** The editor *)
Section EditorFacts.
Import Types Sheets Editor.

(** X3.  [convertRawSheetsToRich] keeps the sheets, their names, the
    shape of every grid and the text of every cell, so that reading the
    text back gives the raw sheets; and every cell gets the empty style. *)
Theorem convertRawSheetsToRich_round_trip rawSheets :
  textOf <$> convertRawSheetsToRich rawSheets = rawSheets
  ∧ ∀ i r c cell, cellAt (convertRawSheetsToRich rawSheets) i r c = Some cell →
      Types.style cell = Some emptyStyle
      ∧ ∃ sheet cells, rawSheets !! i = Some sheet ∧ rawData sheet !! r = Some cells
                       ∧ cells !! c = Some (value cell).
Proof.
  split.
  - unfold convertRawSheetsToRich. rewrite <-list_fmap_compose.
    rewrite <-(list_fmap_id rawSheets) at 2. apply list_fmap_ext.
    intros _ [nm rows] _. unfold textOf. simpl. f_equal.
    rewrite map_map. rewrite <-(map_id rows) at 2. apply map_ext. intros cells.
    rewrite map_map. simpl. apply map_id.
  - intros i r c cell. unfold cellAt, convertRawSheetsToRich.
    change (map ?f rawSheets) with (f <$> rawSheets). rewrite list_lookup_fmap.
    destruct (rawSheets !! i) as [sheet|] eqn:Hi; simpl; [|done].
    change (map ?f (rawData sheet)) with (f <$> rawData sheet). rewrite list_lookup_fmap.
    destruct (rawData sheet !! r) as [cells|] eqn:Hr; simpl; [|done].
    change (map ?f cells) with (f <$> cells). rewrite list_lookup_fmap.
    destruct (cells !! c) as [text|] eqn:Hc; simpl; [|done].
    intros [= <-]. split; [done|]. by exists sheet, cells.
Qed.

Lemma retextAt_lookup sheetIndex rowIndex cellIndex text sheets i r c :
  cellAt (retextAt sheetIndex rowIndex cellIndex text sheets) i r c
  = (fun cell => if decide (i = sheetIndex ∧ r = rowIndex ∧ c = cellIndex)
                 then {| value := text; style := Types.style cell |} else cell)
    <$> cellAt sheets i r c.
Proof.
  unfold cellAt, retextAt. rewrite list_lookup_imap.
  destruct (sheets !! i) as [sheet|]; simpl; [|done].
  destruct (decide (i = sheetIndex)) as [->|Hne]; simpl.
  - rewrite list_lookup_imap. destruct (data sheet !! r) as [cells|]; simpl; [|done].
    rewrite list_lookup_imap. destruct (cells !! c) as [cell|]; simpl; [|done].
    destruct (decide (r = rowIndex ∧ c = cellIndex)) as [[-> ->]|Hrc].
    + by rewrite decide_True.
    + rewrite decide_False by tauto. done.
  - destruct (data sheet !! r) as [cells|]; simpl; [|done].
    destruct (cells !! c); simpl; [|done]. rewrite decide_False by tauto. done.
Qed.

Lemma imap_insert_here {A} (f : nat → A → A) (g : A → A) (l : list A) (k : nat) (x : A) :
  l !! k = Some x →
  (∀ i y, f i y = if decide (i = k) then g y else y) →
  imap f l = <[k := g x]> l.
Proof.
  intros Hk Hf. apply list_eq. intros i. rewrite list_lookup_imap.
  destruct (decide (i = k)) as [->|Hne].
  - rewrite list_lookup_insert_eq by (by eapply lookup_lt_Some).
    rewrite Hk. simpl. by rewrite Hf, decide_True.
  - rewrite list_lookup_insert_ne by done. destruct (l !! i); simpl; [|done].
    by rewrite Hf, decide_False.
Qed.

Lemma handleCellChange_retextAt sheetIndex rowIndex cellIndex text prevData :
  is_Some (cellAt prevData sheetIndex rowIndex cellIndex) →
  handleCellChange sheetIndex rowIndex cellIndex text (Some prevData)
  = Normal (Some (retextAt sheetIndex rowIndex cellIndex text prevData)).
Proof.
  unfold cellAt, handleCellChange. intros [cell Hcell].
  destruct (prevData !! sheetIndex) as [sheet|] eqn:Hsheet; simpl in *; [|done].
  destruct (data sheet !! rowIndex) as [cells|] eqn:Hcells; simpl in *; [|done].
  rewrite Hcell. simpl. do 2 f_equal. unfold retextAt.
  rewrite (imap_insert_here _
             (fun sh => {| sheetName := sheetName sh;
                           data := imap (fun r cells =>
                                     imap (fun c cell =>
                                       if decide (r = rowIndex ∧ c = cellIndex)
                                       then {| value := text; style := Types.style cell |}
                                       else cell) cells) (data sh) |}) _ _ sheet Hsheet).
  2: { intros i y. by destruct (decide (i = sheetIndex)). }
  do 2 f_equal.
  rewrite (imap_insert_here _
             (fun cells => imap (fun c cell =>
                                   if decide (rowIndex = rowIndex ∧ c = cellIndex)
                                   then {| value := text; style := Types.style cell |}
                                   else cell) cells) _ _ cells Hcells).
  2: { intros r y. destruct (decide (r = rowIndex)) as [->|Hne]; [done|].
       apply imap_same. intros c x _. rewrite decide_False by tauto. done. }
  f_equal.
  rewrite (imap_insert_here _ (fun cell => {| value := text; style := Types.style cell |})
             _ _ cell Hcell); [done|].
  intros c y. destruct (decide (c = cellIndex)) as [->|Hne].
  - by rewrite decide_True.
  - rewrite decide_False by tauto. done.
Qed.

Lemma retextAt_shape sheetIndex rowIndex cellIndex text sheets i :
  (fun sheet => (sheetName sheet, length <$> data sheet))
    <$> retextAt sheetIndex rowIndex cellIndex text sheets !! i
  = (fun sheet => (sheetName sheet, length <$> data sheet)) <$> sheets !! i.
Proof.
  unfold retextAt. rewrite list_lookup_imap. destruct (sheets !! i) as [sheet|]; simpl; [|done].
  destruct (decide (i = sheetIndex)); [|done]. simpl. do 2 f_equal.
  apply list_eq. intros r. rewrite !list_lookup_fmap, list_lookup_imap.
  destruct (data sheet !! r); simpl; [|done]. by rewrite length_imap.
Qed.

Lemma restyleWhere_shape inside sheetIndex style sheets i :
  (fun sheet => (sheetName sheet, length <$> data sheet))
    <$> restyleWhere inside sheetIndex style sheets !! i
  = (fun sheet => (sheetName sheet, length <$> data sheet)) <$> sheets !! i.
Proof.
  rewrite restyleWhere_lookup. destruct (sheets !! i) as [sheet|]; simpl; [|done].
  destruct (decide (i = sheetIndex)); [|done]. simpl. do 2 f_equal.
  apply list_eq. intros r. rewrite !list_lookup_fmap, list_lookup_imap.
  destruct (data sheet !! r); simpl; [|done]. by rewrite length_imap.
Qed.

(** Sheets with the same names, the same shape and the same cells are
    equal. *)
Lemma sheets_ext (a b : list SheetData) :
  (∀ i, (fun sheet => (sheetName sheet, length <$> data sheet)) <$> a !! i
        = (fun sheet => (sheetName sheet, length <$> data sheet)) <$> b !! i) →
  (∀ i r c, cellAt a i r c = cellAt b i r c) →
  a = b.
Proof.
  intros Hshape Hcells. apply list_eq. intros i.
  specialize (Hshape i). pose proof (Hcells i) as Hi. unfold cellAt in Hi.
  destruct (a !! i) as [[na da]|], (b !! i) as [[nb db]|]; simpl in *; try done.
  injection Hshape as -> Hlen. do 2 f_equal. apply list_eq. intros r.
  pose proof (f_equal (fun l => l !! r) Hlen) as Hr. simpl in Hr.
  rewrite !list_lookup_fmap in Hr. specialize (Hi r).
  destruct (da !! r) as [ra|], (db !! r) as [rb|]; simpl in *; try done.
  f_equal. by apply list_eq.
Qed.

(** X4.  [handleCellChange] on a position that holds a cell replaces the
    text of that cell and keeps its style; every other cell, every sheet
    name and the shape of every grid stay as they are.  On a position
    without a cell a [TypeError] escapes. *)
Theorem handleCellChange_changes_one_cell sheetIndex rowIndex cellIndex text prevData :
  match cellAt prevData sheetIndex rowIndex cellIndex with
  | Some cell =>
      ∃ newSheets,
        handleCellChange sheetIndex rowIndex cellIndex text (Some prevData)
        = Normal (Some newSheets)
        ∧ cellAt newSheets sheetIndex rowIndex cellIndex
          = Some {| value := text; style := Types.style cell |}
        ∧ (∀ i r c, (i, r, c) ≠ (sheetIndex, rowIndex, cellIndex) →
             cellAt newSheets i r c = cellAt prevData i r c)
        ∧ (∀ i, (fun sheet => (sheetName sheet, length <$> data sheet)) <$> newSheets !! i
                = (fun sheet => (sheetName sheet, length <$> data sheet)) <$> prevData !! i)
  | None =>
      handleCellChange sheetIndex rowIndex cellIndex text (Some prevData) = TypeError
  end.
Proof.
  destruct (cellAt prevData sheetIndex rowIndex cellIndex) as [cell|] eqn:Hcell.
  - eexists. split; [by apply handleCellChange_retextAt|]. split_and!.
    + rewrite retextAt_lookup, Hcell. simpl. by rewrite decide_True.
    + intros i r c Hne. rewrite retextAt_lookup.
      destruct (cellAt prevData i r c); simpl; [|done].
      rewrite decide_False; [done|]. intros (-> & -> & ->). done.
    + apply retextAt_shape.
  - revert Hcell. unfold cellAt, handleCellChange.
    destruct (prevData !! sheetIndex) as [sheet|]; simpl; [|done].
    destruct (data sheet !! rowIndex) as [cells|]; simpl; [|done].
    by intros ->.
Qed.

Lemma restyleWhere_twice inside sheetIndex style sheets :
  restyleWhere inside sheetIndex style (restyleWhere inside sheetIndex style sheets)
  = restyleWhere inside sheetIndex style sheets.
Proof.
  apply sheets_ext.
  - intros i. by rewrite restyleWhere_shape.
  - intros i r c. rewrite !cellAt_restyleWhere.
    destruct (cellAt sheets i r c); simpl; [|done].
    destruct (_ && _); [|done]. by rewrite restyle_idempotent.
Qed.

Lemma restyleWhere_grid inside sheetIndex style sheets i r c :
  is_Some (cellAt sheets i r c) →
  is_Some (cellAt (restyleWhere inside sheetIndex style sheets) i r c).
Proof. rewrite cellAt_restyleWhere. intros [cell ->]. by eexists. Qed.

Lemma retextAt_grid sheetIndex rowIndex cellIndex text sheets i r c :
  is_Some (cellAt sheets i r c) →
  is_Some (cellAt (retextAt sheetIndex rowIndex cellIndex text sheets) i r c).
Proof. rewrite retextAt_lookup. intros [cell ->]. by eexists. Qed.

(** X5.  Applying a style patch a second time to the same selection
    changes nothing: when every selected position holds a cell, the
    second [handleStyleChange] returns the sheets that the first
    returned. *)
Theorem handleStyleChange_twice sheetIndex sel style prevData :
  (∀ r c, isCellSelected (Some sel) r c = true →
          is_Some (cellAt prevData sheetIndex r c)) →
  ∃ newSheets,
    handleStyleChange sheetIndex (Some sel) style (Some prevData) = Normal (Some newSheets)
    ∧ handleStyleChange sheetIndex (Some sel) style (Some newSheets)
      = Normal (Some newSheets).
Proof.
  intros Hgrid. eexists. split; [by apply handleStyleChange_restyleWhere|].
  rewrite handleStyleChange_restyleWhere.
  - by rewrite restyleWhere_twice.
  - intros r c Hsel. by apply restyleWhere_grid, Hgrid.
Qed.

Lemma handleStyleChange_twice_witness :
  ∃ newSheets,
    handleStyleChange 0 (Some Examples.twoByTwo) Examples.boldPatch
      (Some [Examples.sheet "Q1"]) = Normal (Some newSheets)
    ∧ handleStyleChange 0 (Some Examples.twoByTwo) Examples.boldPatch (Some newSheets)
      = Normal (Some newSheets).
Proof.
  apply (handleStyleChange_twice 0 Examples.twoByTwo Examples.boldPatch
           [Examples.sheet "Q1"]).
  intros [|[|r]] [|[|c]]; simpl; first [done | by eexists].
Defined.

(** X6.  A text edit and a style change commute: when every selected
    position and the edited position hold a cell, styling the selection
    and then editing the cell gives the sheets that editing the cell and
    then styling the selection gives, and neither order throws. *)
Theorem cell_change_and_style_change_commute
    sheetIndex sel style editedSheet rowIndex cellIndex text prevData :
  (∀ r c, isCellSelected (Some sel) r c = true →
          is_Some (cellAt prevData sheetIndex r c)) →
  is_Some (cellAt prevData editedSheet rowIndex cellIndex) →
  ∃ styled retexted final,
    handleStyleChange sheetIndex (Some sel) style (Some prevData) = Normal (Some styled)
    ∧ handleCellChange editedSheet rowIndex cellIndex text (Some styled)
      = Normal (Some final)
    ∧ handleCellChange editedSheet rowIndex cellIndex text (Some prevData)
      = Normal (Some retexted)
    ∧ handleStyleChange sheetIndex (Some sel) style (Some retexted) = Normal (Some final).
Proof.
  intros Hgrid Hcell. do 3 eexists. split_and!.
  - by apply handleStyleChange_restyleWhere.
  - apply handleCellChange_retextAt. by apply restyleWhere_grid.
  - by apply handleCellChange_retextAt.
  - rewrite handleStyleChange_restyleWhere
      by (intros r c Hsel; by apply retextAt_grid, Hgrid).
    do 2 f_equal. apply sheets_ext.
    + intros i. by rewrite restyleWhere_shape, !retextAt_shape, restyleWhere_shape.
    + intros i r c.
      rewrite cellAt_restyleWhere, !retextAt_lookup, cellAt_restyleWhere.
      destruct (cellAt prevData i r c) as [cell|]; simpl; [|done].
      by destruct (decide _), (_ && _).
Qed.

Lemma cell_change_and_style_change_commute_witness :
  ∃ styled retexted final,
    handleStyleChange 0 (Some Examples.twoByTwo) Examples.boldPatch
      (Some [Examples.sheet "Q1"]) = Normal (Some styled)
    ∧ handleCellChange 0 1 1 "4" (Some styled) = Normal (Some final)
    ∧ handleCellChange 0 1 1 "4" (Some [Examples.sheet "Q1"]) = Normal (Some retexted)
    ∧ handleStyleChange 0 (Some Examples.twoByTwo) Examples.boldPatch (Some retexted)
      = Normal (Some final).
Proof.
  apply (cell_change_and_style_change_commute 0 Examples.twoByTwo Examples.boldPatch
           0 1 1 "4" [Examples.sheet "Q1"]).
  - intros [|[|r]] [|[|c]]; simpl; first [done | by eexists].
  - simpl. by eexists.
Defined.

(** X7.  A shift-click with an active cell keeps the active cell and
    selects exactly the cells of the rectangle spanned by the active cell
    and the clicked cell, both included, whichever of the two is the
    active one; any other click makes the clicked cell the active cell
    and the only selected cell. *)
Theorem handleCellClick_selects activeSheetIndex shiftKey activeCell rowIndex cellIndex r c :
  let '(activeCell', selection) :=
    handleCellClick activeSheetIndex shiftKey activeCell rowIndex cellIndex in
  match shiftKey, activeCell with
  | true, Some active =>
      activeCell' = activeCell
      ∧ (isCellSelected selection r c = true ↔
           (Nat.min (Sheets.rowIndex active) rowIndex ≤ r
              ≤ Nat.max (Sheets.rowIndex active) rowIndex)%nat
           ∧ (Nat.min (Sheets.cellIndex active) cellIndex ≤ c
                ≤ Nat.max (Sheets.cellIndex active) cellIndex)%nat)
      ∧ isCellSelected selection (Sheets.rowIndex active) (Sheets.cellIndex active) = true
      ∧ isCellSelected selection rowIndex cellIndex = true
      ∧ selection
        = snd (handleCellClick activeSheetIndex true
                 (Some {| Sheets.sheetIndex := activeSheetIndex; Sheets.rowIndex := rowIndex;
                          Sheets.cellIndex := cellIndex |})
                 (Sheets.rowIndex active) (Sheets.cellIndex active))
  | _, _ =>
      activeCell' = Some {| Sheets.sheetIndex := activeSheetIndex;
                            Sheets.rowIndex := rowIndex; Sheets.cellIndex := cellIndex |}
      ∧ (isCellSelected selection r c = true ↔ r = rowIndex ∧ c = cellIndex)
  end.
Proof.
  assert (∀ a b x y u v : nat,
            (a <=? u)%nat && (u <=? b)%nat && (x <=? v)%nat && (v <=? y)%nat = true
            ↔ (a ≤ u ≤ b)%nat ∧ (x ≤ v ≤ y)%nat) as Hin.
  { intros. rewrite !andb_true_iff, !Nat.leb_le. tauto. }
  unfold handleCellClick.
  destruct shiftKey, activeCell as [active|]; simpl; rewrite ?Hin;
    try (split; [done|lia]).
  split; [done|]. split; [tauto|]. split; [lia|]. split; [lia|].
  by rewrite (Nat.min_comm rowIndex), (Nat.max_comm rowIndex),
             (Nat.min_comm cellIndex), (Nat.max_comm cellIndex).
Qed.

(** X8.  From a cell of a grid with [totalRows] rows and [totalCols]
    columns, whatever key [handleKeyDown] handles, the cell that it makes
    active is a cell of the grid, and differs from the cell the key was
    pressed in. *)
Theorem handleKeyDown_stays_in_grid totalRows totalCols key shiftKey rowIndex cellIndex
    nextRow nextCell :
  0 ≤ rowIndex < totalRows →
  0 ≤ cellIndex < totalCols →
  handleKeyDown totalRows totalCols key shiftKey rowIndex cellIndex
  = Some (nextRow, nextCell) →
  0 ≤ nextRow < totalRows ∧ 0 ≤ nextCell < totalCols
  ∧ (nextRow, nextCell) ≠ (rowIndex, cellIndex).
Proof.
  intros Hr Hc. unfold handleKeyDown, nextPosition.
  destruct key; try done; try destruct shiftKey;
    repeat match goal with
           | |- context [?a <? ?b] => destruct (Z.ltb_spec a b)
           end;
    (destruct (decide _) as [Hmoved|]; [|done]); intros [= <- <-];
    (split_and!; [lia..|]); intros Heq;
    pose proof (f_equal fst Heq); pose proof (f_equal snd Heq); simpl in *; lia.
Qed.

Lemma handleKeyDown_stays_in_grid_witness :
  0 ≤ 2 < 3 ∧ 0 ≤ 0 < 4 ∧ (2, 0) ≠ (1, 3).
Proof.
  apply (handleKeyDown_stays_in_grid 3 4 Tab false 1 3 2 0); [lia|lia|reflexivity].
Defined.

(** X9.  Tab walks the grid in reading order: from a cell of the grid it
    moves to the next cell of the row, or from the end of a row to the
    start of the next row, and it stays only in the last cell; Shift+Tab
    from the cell that Tab moved to goes back to the cell that Tab left. *)
Theorem handleKeyDown_tab_order totalRows totalCols rowIndex cellIndex :
  0 ≤ rowIndex < totalRows →
  0 ≤ cellIndex < totalCols →
  match handleKeyDown totalRows totalCols Tab false rowIndex cellIndex with
  | Some (nextRow, nextCell) =>
      nextRow * totalCols + nextCell = rowIndex * totalCols + cellIndex + 1
      ∧ 0 ≤ nextRow < totalRows ∧ 0 ≤ nextCell < totalCols
      ∧ handleKeyDown totalRows totalCols Tab true nextRow nextCell
        = Some (rowIndex, cellIndex)
  | None => rowIndex = totalRows - 1 ∧ cellIndex = totalCols - 1
  end.
Proof.
  intros Hr Hc. unfold handleKeyDown, nextPosition.
  destruct (Z.ltb_spec cellIndex (totalCols - 1)).
  - rewrite decide_True by lia. split_and!; [lia..|].
    destruct (Z.ltb_spec 0 (cellIndex + 1)); [|lia].
    rewrite decide_True by lia. do 2 f_equal. lia.
  - destruct (Z.ltb_spec rowIndex (totalRows - 1)).
    + rewrite decide_True by lia. split_and!; [nia|lia..|].
      simpl. destruct (Z.ltb_spec 0 (rowIndex + 1)); [|lia].
      rewrite decide_True by lia. do 2 f_equal; lia.
    + rewrite decide_False by lia. lia.
Qed.

Lemma handleKeyDown_tab_order_witness :
  2 * 4 + 0 = 1 * 4 + 3 + 1 ∧ 0 ≤ 2 < 3 ∧ 0 ≤ 0 < 4
  ∧ handleKeyDown 3 4 Tab true 2 0 = Some (1, 3).
Proof. apply (handleKeyDown_tab_order 3 4 1 3); lia. Defined.

End EditorFacts.

(** ** Selection, search and pages *)
Section ViewFacts.
Import Types Queue SelectAll.

Lemma withSelectedJobIds_same f s :
  f (selectedJobIds s) = selectedJobIds s → withSelectedJobIds f s = s.
Proof. intros Hf. destruct s. unfold withSelectedJobIds. simpl in *. by rewrite Hf. Qed.

(** X10.  The effect on the selection leaves exactly the selected ids
    that belong to a job of the queue, changes nothing else, and has
    nothing left to do when it runs again. *)
Theorem selectionEffect_intersects s :
  selectedJobIds (selectionEffect s)
  = selectedJobIds s ∩ list_to_set (id <$> jobs s)
  ∧ jobs (selectionEffect s) = jobs s
  ∧ selectionEffect (selectionEffect s) = selectionEffect s.
Proof.
  assert (∀ s, selectedJobIds (selectionEffect s)
               = selectedJobIds s ∩ list_to_set (id <$> jobs s)
               ∧ jobs (selectionEffect s) = jobs s) as Hfirst.
  { intros s0. unfold selectionEffect.
    set (jobIds := list_to_set (id <$> jobs s0) : gset string).
    set (kept := filter (fun i => i ∈ jobIds) (selectedJobIds s0)).
    assert (kept = selectedJobIds s0 ∩ jobIds) as Hkept.
    { apply set_eq. intros i. unfold kept. rewrite elem_of_filter. set_solver. }
    destruct (decide (base.size kept = base.size (selectedJobIds s0))) as [Hsize|Hsize];
      [|done].
    split; [|done]. rewrite <-Hkept. symmetry.
    apply set_subseteq_size_eq; [|lia]. rewrite Hkept. set_solver. }
  destruct (Hfirst s) as [Hsel Hjobs]. split; [done|]. split; [done|].
  unfold selectionEffect at 1.
  destruct (decide _) as [|Hsize]; [done|]. exfalso. apply Hsize. f_equal.
  apply set_eq. intros i. rewrite elem_of_filter, Hjobs, Hsel. set_solver.
Qed.

(** X11.  [handleToggleSelection] flips the membership of the given job
    id and of no other id, so that a second call restores the selection. *)
Theorem handleToggleSelection_involutive jobId s :
  handleToggleSelection jobId (handleToggleSelection jobId s) = s
  ∧ (jobId ∈ selectedJobIds (handleToggleSelection jobId s) ↔ jobId ∉ selectedJobIds s)
  ∧ ∀ i, i ≠ jobId →
      (i ∈ selectedJobIds (handleToggleSelection jobId s) ↔ i ∈ selectedJobIds s).
Proof.
  split_and!.
  - destruct s as [cm js n q sel p fl]. unfold handleToggleSelection, withSelectedJobIds.
    simpl. f_equal. destruct (decide (jobId ∈ sel)) as [Hin|Hout].
    + rewrite decide_False by set_solver. apply set_eq. intros i.
      destruct (decide (i = jobId)); set_solver.
    + rewrite decide_True by set_solver. set_solver.
  - unfold handleToggleSelection. simpl. destruct (decide _); set_solver.
  - intros i Hne. unfold handleToggleSelection. simpl. destruct (decide _); set_solver.
Qed.

Lemma selectedOnPage_elem (paginatedJobs : list ProcessJob) (selectedJobIds : gset string) i :
  i ∈ filter (fun i => i ∈ (list_to_set (id <$> paginatedJobs) : gset string))
             (elements selectedJobIds)
  ↔ i ∈ selectedJobIds ∧ ∃ j, j ∈ paginatedJobs ∧ id j = i.
Proof.
  rewrite list_elem_of_filter, elem_of_elements, elem_of_list_to_set, list_elem_of_fmap.
  naive_solver.
Qed.

(** X12.  The select-all box announces what a click on it does: when it
    is checked, [handleToggleSelectAll] leaves no job of the page
    selected; when it is not, [handleToggleSelectAll] leaves every job of
    the page selected.  It is indeterminate only when some job of the
    page is selected, and neither checked nor indeterminate only when
    none is. *)
Theorem selectAllCheckbox_announces_toggle
    (paginatedJobs : list ProcessJob) (selectedJobIds : gset string) :
  let box := selectAllCheckboxEffect paginatedJobs selectedJobIds in
  (checked box = true →
     paginatedJobs ≠ [] ∧ indeterminate box = false
     ∧ ∀ j, j ∈ paginatedJobs → id j ∉ toggleSelectAll paginatedJobs selectedJobIds)
  ∧ (checked box = false →
       ∀ j, j ∈ paginatedJobs → id j ∈ toggleSelectAll paginatedJobs selectedJobIds)
  ∧ (indeterminate box = true → ∃ j, j ∈ paginatedJobs ∧ id j ∈ selectedJobIds)
  ∧ (checked box = false → indeterminate box = false →
       ∀ j, j ∈ paginatedJobs → id j ∉ selectedJobIds).
Proof.
  unfold selectAllCheckboxEffect, toggleSelectAll.
  set (ids := list_to_set (id <$> paginatedJobs) : gset string).
  set (onPage := filter (fun i => i ∈ ids) (elements selectedJobIds)).
  assert (∀ j, j ∈ paginatedJobs → id j ∈ ids) as Hids.
  { intros j Hj. apply elem_of_list_to_set, list_elem_of_fmap. eauto. }
  assert (base.size ids = 0%nat ↔ paginatedJobs = []) as Hempty.
  { rewrite size_empty_iff. split.
    - intros Hnone. destruct paginatedJobs as [|j ?]; [done|].
      assert (id j ∈ ids) as Hj by (apply Hids; left). set_solver.
    - intros ->. done. }
  assert (length onPage = 0%nat → ∀ j, j ∈ paginatedJobs → id j ∉ selectedJobIds) as Hnone.
  { intros Hlen%nil_length_inv j Hj Hsel.
    assert (id j ∈ onPage) as Hin by (apply selectedOnPage_elem; eauto).
    rewrite Hlen in Hin. by apply elem_of_nil in Hin. }
  destruct (decide (base.size ids = 0%nat)) as [Hsize|Hsize]; simpl.
  { apply Hempty in Hsize as Hnil. split_and!; try done.
    - intros _ j Hj. rewrite Hnil in Hj. by apply elem_of_nil in Hj.
    - intros _ _ j Hj. rewrite Hnil in Hj. by apply elem_of_nil in Hj. }
  assert (0 < length paginatedJobs)%nat as Hpos.
  { destruct paginatedJobs; simpl; [|lia]. by destruct Hsize, Hempty as [_ ->]. }
  destruct (decide (length onPage = 0%nat)) as [Hzero|Hsome]; simpl.
  { split_and!; try done.
    - intros _ j Hj. rewrite decide_False by lia. apply elem_of_union_r. by apply Hids.
    - intros _ _. by apply Hnone. }
  destruct (decide (length onPage = length paginatedJobs)) as [Hall|Hpart]; simpl.
  - split_and!; try done. intros _. split_and!; [by intros ->|done|].
    intros j Hj. rewrite decide_True by done. apply Hids in Hj. set_solver.
  - split_and!; try done.
    + intros _ j Hj. rewrite decide_False by tauto. apply elem_of_union_r. by apply Hids.
    + intros _. destruct onPage as [|i rest] eqn:HonPage; [done|].
      assert (i ∈ onPage) as Hi by (rewrite HonPage; left).
      apply selectedOnPage_elem in Hi as (Hsel & j & Hj & <-). eauto.
Qed.

Lemma chunks_join {A} (n : nat) : ∀ (k : nat) (l : list A),
  (length l ≤ k * n)%nat →
  mjoin ((fun p => take n (drop (p * n) l)) <$> seq 0 k) = l.
Proof.
  induction k as [|k IH]; intros l Hlen; simpl.
  - destruct l; [done|simpl in Hlen; lia].
  - rewrite drop_0, <-fmap_S_seq, <-list_fmap_compose.
    trans (take n l ++ drop n l); [|apply take_drop]. f_equal.
    rewrite <-(IH (drop n l)) by (rewrite length_drop; lia).
    f_equal. apply list_fmap_ext. intros _ p _. simpl.
    by rewrite drop_drop, (Nat.add_comm n).
Qed.

Lemma totalPages_covers (len n : nat) :
  (0 < n)%nat → (len ≤ (len + n - 1) / n * n)%nat ∧ ((len + n - 1) / n * n < len + n)%nat.
Proof.
  intros Hn. pose proof (Nat.div_mod (len + n - 1) n ltac:(lia)) as Hdiv.
  pose proof (Nat.mod_upper_bound (len + n - 1) n ltac:(lia)) as Hmod. nia.
Qed.

(** X13.  The pages [1 .. totalPages] show every job of the filtered
    view once and in order: put one after the other they are
    [filteredJobs]; each of them holds at least one and at most ten jobs,
    and every later page is empty. *)
Theorem pages_partition_filteredJobs s :
  mjoin ((fun p => paginatedJobs (withCurrentPage (fun _ => p) s)) <$> seq 1 (totalPages s))
  = filteredJobs s
  ∧ (∀ p, (1 ≤ p ≤ totalPages s)%nat →
       (0 < length (paginatedJobs (withCurrentPage (fun _ => p) s)) ≤ ITEMS_PER_PAGE)%nat)
  ∧ (∀ p, (totalPages s < p)%nat → paginatedJobs (withCurrentPage (fun _ => p) s) = []).
Proof.
  unfold paginatedJobs, totalPages.
  change (filteredJobs (withCurrentPage _ s)) with (filteredJobs s).
  set (l := filteredJobs s).
  destruct (totalPages_covers (length l) ITEMS_PER_PAGE) as [Hcover Htight];
    [unfold ITEMS_PER_PAGE; lia|].
  generalize dependent ((length l + ITEMS_PER_PAGE - 1) / ITEMS_PER_PAGE)%nat.
  intros pages Hcover Htight. split_and!.
  - rewrite <-fmap_S_seq, <-list_fmap_compose.
    trans (mjoin ((fun p => take ITEMS_PER_PAGE (drop (p * ITEMS_PER_PAGE) l))
                    <$> seq 0 pages)); [|by apply chunks_join].
    f_equal. apply list_fmap_ext. intros _ p _. simpl. by rewrite Nat.sub_0_r.
  - intros p Hp. simpl. rewrite length_take, length_drop.
    unfold ITEMS_PER_PAGE in *. nia.
  - intros p Hp. simpl. apply nil_length_inv. rewrite length_take, length_drop.
    unfold ITEMS_PER_PAGE in *. nia.
Qed.

End ViewFacts.

(** ** The thumbnail cursor *)
Section CursorFacts.
Import Types Queue Thumbnails.

Lemma cycle_in_range direction i n :
  0 ≤ i < n →
  ∃ i', cycle direction (Some (JsNumber.Num i)) n = JsNumber.Num i' ∧ 0 ≤ i' < n.
Proof.
  intros Hi. destruct direction; simpl; eexists; (split; [done|]);
    rewrite Z.rem_mod_nonneg by lia; apply Z.mod_pos_bound; lia.
Qed.

Lemma cycle_back i n :
  0 ≤ i < n →
  cycle prev (Some (cycle next (Some (JsNumber.Num i)) n)) n = JsNumber.Num i
  ∧ cycle next (Some (cycle prev (Some (JsNumber.Num i)) n)) n = JsNumber.Num i.
Proof.
  intros Hi. simpl.
  rewrite (Z.rem_mod_nonneg (i + 1) n), (Z.rem_mod_nonneg (i - 1 + n) n) by lia.
  split; f_equal.
  - destruct (decide (i + 1 = n)) as [<-|Hne].
    + rewrite Z.mod_same by lia. rewrite Z.rem_mod_nonneg by lia.
      rewrite Z.mod_small by lia. lia.
    + rewrite (Z.mod_small (i + 1)) by lia. rewrite Z.rem_mod_nonneg by lia.
      replace (i + 1 - 1 + n) with (i + 1 * n) by lia.
      rewrite Z.mod_add by lia. apply Z.mod_small. lia.
  - destruct (decide (i = 0)) as [->|Hne].
    + replace (0 - 1 + n) with (n - 1) by lia. rewrite (Z.mod_small (n - 1)) by lia.
      rewrite Z.rem_mod_nonneg by lia. replace (n - 1 + 1) with n by lia.
      apply Z.mod_same. lia.
    + replace (i - 1 + n) with (i - 1 + 1 * n) by lia. rewrite Z.mod_add by lia.
      rewrite (Z.mod_small (i - 1)) by lia. rewrite Z.rem_mod_nonneg by lia.
      replace (i - 1 + 1) with i by lia. apply Z.mod_small. lia.
Qed.

Lemma spread_cursor job i :
  currentThumbnailIndex job = Some i →
  spread job [currentThumbnailIndex_ (Some i)] = job.
Proof. destruct job. simpl. by intros ->. Qed.

Lemma spread_cursor_twice job i i' :
  spread (spread job [currentThumbnailIndex_ i]) [currentThumbnailIndex_ i']
  = spread job [currentThumbnailIndex_ i'].
Proof. by destruct job. Qed.

Lemma spread_cursor_fields job i :
  id (spread job [currentThumbnailIndex_ i]) = id job
  ∧ thumbnailUrls (spread job [currentThumbnailIndex_ i]) = thumbnailUrls job
  ∧ currentThumbnailIndex (spread job [currentThumbnailIndex_ i]) = i.
Proof. by destruct job. Qed.

Lemma handleThumbnailCycle_back jobId direction direction' s :
  (direction = next ∧ direction' = prev) ∨ (direction = prev ∧ direction' = next) →
  Forall cursorInRange (jobs s) →
  handleThumbnailCycle jobId direction' (handleThumbnailCycle jobId direction s) = s.
Proof.
  intros Hdirs Hrange. destruct s as [cm js n q sel p fl].
  unfold handleThumbnailCycle, withJobs. cbn -[spread cycle] in *. f_equal.
  rewrite <-list_fmap_compose. rewrite <-(list_fmap_id js) at 2.
  apply list_fmap_ext. intros k job Hjob. unfold compose, Datatypes.id. cbn beta.
  pose proof (proj1 (Forall_lookup _ _) Hrange k job Hjob) as Hcursor.
  destruct (thumbnailUrls job) as [urls|] eqn:Hurls; [|by rewrite Hurls].
  destruct (decide (id job = jobId ∧ (1 < length urls)%nat)) as [[Hid Hlen]|Hno];
    [|by rewrite Hurls, decide_False].
  destruct (Hcursor urls Hurls) as (i & Hi & Hbound).
  destruct (spread_cursor_fields job
              (Some (cycle direction (currentThumbnailIndex job) (Z.of_nat (length urls)))))
    as (Hid' & Hurls' & Hcursor').
  rewrite Hurls', Hurls, Hid', decide_True by done.
  rewrite Hcursor', spread_cursor_twice, Hi.
  destruct (cycle_back i (Z.of_nat (length urls)) Hbound) as [Hnp Hpn].
  destruct Hdirs as [[-> ->]|[-> ->]]; rewrite ?Hnp, ?Hpn; by apply spread_cursor.
Qed.

(** X14.  When the cursor of every job points at one of the job's
    thumbnails, [handleThumbnailCycle] leaves it so in either direction,
    and a step forward followed by a step back, or a step back followed
    by a step forward, restores the state. *)
Theorem handleThumbnailCycle_round_trip jobId s :
  Forall cursorInRange (jobs s) →
  (∀ direction, Forall cursorInRange (jobs (handleThumbnailCycle jobId direction s)))
  ∧ handleThumbnailCycle jobId prev (handleThumbnailCycle jobId next s) = s
  ∧ handleThumbnailCycle jobId next (handleThumbnailCycle jobId prev s) = s.
Proof.
  intros Hrange. split_and!.
  - intros direction. cbn -[spread cycle]. apply Forall_fmap. eapply Forall_impl; [done|].
    intros job Hcursor. cbn -[spread cycle].
    destruct (thumbnailUrls job) as [urls|] eqn:Hurls; [|done].
    destruct (decide _) as [[Hid Hlen]|]; [|done].
    destruct (Hcursor urls Hurls) as (i & Hi & Hbound).
    intros urls'. destruct (spread_cursor_fields job
      (Some (cycle direction (currentThumbnailIndex job) (Z.of_nat (length urls)))))
      as (_ & Hurls' & Hcursor').
    rewrite Hurls', Hcursor', Hurls. intros [= <-]. rewrite Hi.
    destruct (cycle_in_range direction i _ Hbound) as (i' & -> & Hi'). eauto.
  - apply handleThumbnailCycle_back; auto.
  - apply handleThumbnailCycle_back; auto.
Qed.

Lemma handleThumbnailCycle_round_trip_witness :
  (∀ direction,
     Forall cursorInRange
       (jobs (handleThumbnailCycle "report.pdf-1700000000000-48211" direction
                Scenarios.withThumbnails)))
  ∧ handleThumbnailCycle "report.pdf-1700000000000-48211" prev
      (handleThumbnailCycle "report.pdf-1700000000000-48211" next Scenarios.withThumbnails)
    = Scenarios.withThumbnails
  ∧ handleThumbnailCycle "report.pdf-1700000000000-48211" next
      (handleThumbnailCycle "report.pdf-1700000000000-48211" prev Scenarios.withThumbnails)
    = Scenarios.withThumbnails.
Proof.
  apply (handleThumbnailCycle_round_trip "report.pdf-1700000000000-48211"
           Scenarios.withThumbnails).
  repeat constructor. intros urls [= <-]. exists 0. split; [reflexivity|simpl; lia].
Defined.

End CursorFacts.

(** ** What no action changes *)
Section ProvenanceFacts.
Import Types Sheets Queue Provenance.

#[local] Instance sameSource_refl : Reflexive sameSource.
Proof. by intros j. Qed.

#[local] Instance sameSource_trans : Transitive sameSource.
Proof.
  intros j1 j2 j3 (? & ? & ? & ? & ?) (? & ? & ? & ? & ?).
  unfold sameSource. split_and!; congruence.
Qed.

Lemma assign_sameSource j f : keepsFile f = true → sameSource j (assign j f).
Proof. by destruct j, f. Qed.

Lemma spread_sameSource fields : ∀ j,
  forallb keepsFile fields = true → sameSource j (spread j fields).
Proof.
  unfold spread. induction fields as [|f fields IH]; intros j; simpl; [done|].
  intros [Hf Hfs]%andb_true_iff. etrans; [by apply assign_sameSource|by apply IH].
Qed.

Lemma settling_keepsFile fields :
  forallb settlingField fields = true → forallb keepsFile fields = true.
Proof.
  induction fields as [|f fields IH]; simpl; [done|].
  intros [Hf Hfs]%andb_true_iff. rewrite IH by done. by destruct f.
Qed.

Lemma fmap_sameSource (g : ProcessJob → ProcessJob) l :
  (∀ j, sameSource j (g j)) → Forall2 sameSource l (g <$> l).
Proof.
  intros Hg. apply Forall2_fmap_r. induction l; constructor; [apply Hg|done].
Qed.

Lemma updateJob_sameSource jobId fields l :
  forallb keepsFile fields = true → Forall2 sameSource l (updateJob jobId fields l).
Proof.
  intros Hf. apply fmap_sameSource. intros j.
  destruct (decide _); [by apply spread_sameSource|done].
Qed.

Lemma applyEvent_sameSource s e :
  settling e = true → Forall2 sameSource (jobs s) (jobs (applyEvent s e)).
Proof.
  destruct e; simpl; try done. intros Hs. by apply updateJob_sameSource, settling_keepsFile.
Qed.

Lemma applyEvents_sameSource t : ∀ s,
  Forall (fun e => settling e = true) t →
  Forall2 sameSource (jobs s) (jobs (foldl applyEvent s t)).
Proof.
  induction t as [|e t IH]; intros s Ht; simpl; [done|].
  apply Forall_cons in Ht as [He Ht].
  etrans; [by apply applyEvent_sameSource|by apply IH].
Qed.

Lemma untilAwait_now_settling P job :
  Forall (fun e => settling e = true) (untilAwait (processJob P job)).1.
Proof.
  pose proof (processJob_settling P job) as Hs.
  rewrite <-(untilAwait_app (processJob P job)) in Hs. by apply Forall_app in Hs as [? _].
Qed.

Lemma dispatch_jobs P s job :
  jobs (dispatch P s job) = jobs (foldl applyEvent s (untilAwait (processJob P job)).1).
Proof. unfold dispatch. destruct (untilAwait _) as [now [|e later]]; done. Qed.

Lemma dispatches_sameSource P jobsToStart : ∀ s,
  Forall2 sameSource (jobs s) (jobs (foldl (dispatch P) s jobsToStart)).
Proof.
  induction jobsToStart as [|job rest IH]; intros s; simpl; [done|].
  etrans; [|apply IH]. rewrite dispatch_jobs.
  apply applyEvents_sameSource, untilAwait_now_settling.
Qed.

Lemma schedulerEffect_sameSource P s :
  Forall2 sameSource (jobs s) (jobs (schedulerEffect P s)).
Proof.
  unfold schedulerEffect. destruct (_ <=? _); [done|].
  destruct (decide _); [|done].
  etrans; [|apply dispatches_sameSource]. cbn -[spread]. apply fmap_sameSource.
  intros j. destruct (admitted _ j); [by apply spread_sameSource|done].
Qed.

Lemma resume_sameSource k s :
  Forall (Forall (fun e => settling e = true)) (inFlight s) →
  Forall2 sameSource (jobs s) (jobs (resume k s)).
Proof.
  intros Hset. unfold resume. destruct (inFlight s !! k) as [[|e rest]|] eqn:Hk; try done.
  pose proof (proj1 (Forall_lookup _ _) Hset k _ Hk) as [He _]%Forall_cons.
  destruct rest; simpl; by apply applyEvent_sameSource.
Qed.

(** The jobs after an action: those that the action keeps, in their
    order and from the same source, then those that it adds. *)
Lemma step_jobs_origin a s s' :
  invariant s → step a s = Some s' →
  ∃ kept kept' added,
    kept `sublist_of` jobs s
    ∧ Forall2 sameSource kept kept'
    ∧ jobs s' = kept' ++ added
    ∧ (added = []
       ∨ ∃ files, a = FileSelect files
                  ∧ kept = filter (fun job => isActive job = true) (jobs s)
                  ∧ added = newJob (conversionMode s) <$> files).
Proof.
  intros Hinv.
  assert (∀ s', Forall2 sameSource (jobs s) (jobs s') →
            ∃ kept kept' added,
              kept `sublist_of` jobs s ∧ Forall2 sameSource kept kept'
              ∧ jobs s' = kept' ++ added
              ∧ (added = []
                 ∨ ∃ files, a = FileSelect files
                            ∧ kept = filter (fun job => isActive job = true) (jobs s)
                            ∧ added = newJob (conversionMode s) <$> files)) as Hsame.
  { intros s0 H. exists (jobs s), (jobs s0), []. rewrite app_nil_r. by split_and!; [|..|left]. }
  assert (∀ s' (P : ProcessJob → Prop) `{!∀ j, Decision (P j)},
            jobs s' = filter P (jobs s) →
            ∃ kept kept' added,
              kept `sublist_of` jobs s ∧ Forall2 sameSource kept kept'
              ∧ jobs s' = kept' ++ added
              ∧ (added = []
                 ∨ ∃ files, a = FileSelect files
                            ∧ kept = filter (fun job => isActive job = true) (jobs s)
                            ∧ added = newJob (conversionMode s) <$> files)) as Hfilter.
  { intros s0 P ? H. exists (filter P (jobs s)), (filter P (jobs s)), [].
    rewrite app_nil_r. split_and!; [apply sublist_filter|done|done|by left]. }
  destruct a; cbn -[spread paginatedJobs]; try (intros [= <-]); try (by apply Hsame).
  - destruct (uploadEnabled files s) eqn:Henabled; [|by apply Hsame].
    exists (filter (fun job => isActive job = true) (jobs s)),
           (filter (fun job => isActive job = true) (jobs s)),
           (newJob (conversionMode s) <$> files).
    split_and!; [apply sublist_filter|done|done|]. right. by exists files.
  - apply Hsame. by apply updateJob_sameSource.
  - by eapply Hfilter.
  - exists [], [], []. split_and!; [apply sublist_nil_l|done|done|by left].
  - unfold switchConversionMode. destruct (decide _); [by apply Hsame|].
    exists [], [], []. split_and!; [apply sublist_nil_l|done|done|by left].
  - apply Hsame, schedulerEffect_sameSource.
  - apply Hsame, resume_sameSource, Hinv.
  - destruct (paginatedJobs s !! k) as [job|]; [|intros [= <-]; by apply Hsame].
    destruct (bool_decide _); [|intros [= <-]; by apply Hsame].
    unfold handleDownload. destruct (extractedSheets job); [|intros [= <-]; by apply Hsame].
    destruct (generateOutput _ _ _ _) as [[?|e]|]; simpl; [| |done];
      intros [= <-]; apply Hsame; [done|]. by apply updateJob_sameSource.
  - destruct (paginatedJobs s !! k) as [job|]; intros [= <-]; [|by apply Hsame].
    destruct (_ && _); apply Hsame; [|done]. by apply updateJob_sameSource.
  - apply Hsame. by apply updateJob_sameSource.
  - apply Hsame. cbn -[spread]. apply fmap_sameSource. intros j.
    destruct (thumbnailUrls j); [|done]. destruct (decide _); [|done].
    by apply spread_sameSource.
  - apply Hsame. by apply updateJob_sameSource.
  - apply Hsame. by apply updateJob_sameSource.
  - destruct (decide _); by apply Hsame.
  - destruct (decide _); by apply Hsame.
  - unfold pageEffect. destruct (decide _); by apply Hsame.
  - destruct (selectionBarRendered s); by apply Hsame.
  - unfold selectionEffect. destruct (decide _); by apply Hsame.
  - by eapply Hfilter.
  - destruct (canRetrySelected s); [|by apply Hsame].
    apply Hsame. unfold handleRetrySelected. destruct (decide _); [|done].
    cbn -[spread]. apply fmap_sameSource. intros j. destruct (decide _); [|done].
    by apply spread_sameSource.
Qed.

Lemma applyEvents_mode t : ∀ s, conversionMode (foldl applyEvent s t) = conversionMode s.
Proof.
  induction t as [|e t IH]; intros s; simpl; [done|]. rewrite IH. by destruct e.
Qed.

Lemma dispatches_mode P jobsToStart : ∀ s,
  conversionMode (foldl (dispatch P) s jobsToStart) = conversionMode s.
Proof.
  induction jobsToStart as [|job rest IH]; intros s; simpl; [done|].
  rewrite IH. unfold dispatch. destruct (untilAwait _) as [now [|e later]]; simpl;
    apply applyEvents_mode.
Qed.

Lemma schedulerEffect_mode P s : conversionMode (schedulerEffect P s) = conversionMode s.
Proof.
  unfold schedulerEffect. destruct (_ <=? _); [done|].
  destruct (decide _); [|done]. by rewrite dispatches_mode.
Qed.

Lemma resume_mode k s : conversionMode (resume k s) = conversionMode s.
Proof.
  unfold resume. destruct (inFlight s !! k) as [[|e [|e' rest]]|]; try done; by destruct e.
Qed.

Lemma step_mode a s s' :
  step a s = Some s' → conversionMode s' = conversionMode s ∨ jobs s' = [].
Proof.
  destruct a; cbn -[paginatedJobs schedulerEffect resume]; try (intros [= <-]);
    try (by left).
  - destruct (uploadEnabled files s); by left.
  - unfold switchConversionMode. destruct (decide _); [by left|by right].
  - left. apply schedulerEffect_mode.
  - left. apply resume_mode.
  - destruct (paginatedJobs s !! k) as [job|]; [|intros [= <-]; by left].
    destruct (bool_decide _); [|intros [= <-]; by left].
    unfold handleDownload. destruct (extractedSheets job); [|intros [= <-]; by left].
    destruct (generateOutput _ _ _ _) as [[?|e]|]; simpl; [| |done]; intros [= <-]; by left.
  - destruct (paginatedJobs s !! k) as [job|]; intros [= <-]; [|by left].
    destruct (_ && _); by left.
  - destruct (decide _); by left.
  - destruct (decide _); by left.
  - unfold pageEffect. destruct (decide _); by left.
  - destruct (selectionBarRendered s); by left.
  - unfold selectionEffect. destruct (decide _); by left.
  - destruct (canRetrySelected s); [|by left].
    unfold handleRetrySelected. destruct (decide _); by left.
Qed.

Lemma sublist_Forall_keep {A} (Q : A → Prop) (l k : list A) :
  l `sublist_of` k → Forall Q k → Forall Q l.
Proof.
  intros Hsub Hk. apply Forall_forall. intros x Hx.
  apply (proj1 (Forall_forall _ _) Hk). by eapply elem_of_sublist.
Qed.

Lemma Forall_filter_keep {A} (Q P : A → Prop) `{!∀ x, Decision (P x)} (l : list A) :
  Forall Q l → Forall Q (filter P l).
Proof. apply sublist_Forall_keep, sublist_filter. Qed.

Lemma sameSource_Forall (Q : ProcessJob → Prop) kept kept' :
  (∀ j j', sameSource j j' → Q j → Q j') →
  Forall2 sameSource kept kept' → Forall Q kept → Forall Q kept'.
Proof.
  intros HQ H2 Hkept. induction H2 as [|j j' l l' Hjj' _ IH]; [done|].
  apply Forall_cons in Hkept as [Hj Hl]. constructor; [by eapply HQ|by apply IH].
Qed.

Lemma step_oneMode a s s' : invariant s → oneMode s → step a s = Some s' → oneMode s'.
Proof.
  intros Hinv Hmode Hstep.
  destruct (step_mode a s s' Hstep) as [Hsame|Hnil]; [|left; rewrite Hnil; constructor].
  destruct (step_jobs_origin a s s' Hinv Hstep)
    as (kept & kept' & added & Hsub & Hkept & Hjobs & Hadded).
  unfold oneMode. rewrite Hsame, Hjobs.
  assert (∀ files, Forall (fun j => Types.conversionMode j = conversionMode s)
                          (newJob (conversionMode s) <$> files)) as Hnew.
  { intros files. apply Forall_fmap, Forall_true. done. }
  destruct Hmode as [Hall|[Hpdf Hnone]].
  - left. apply Forall_app. split.
    + eapply sameSource_Forall; [|done|by eapply sublist_Forall_keep].
      intros j j' (_ & _ & _ & _ & Hm) Hj. congruence.
    + destruct Hadded as [->|(files & _ & _ & ->)]; [constructor|apply Hnew].
  - destruct Hadded as [->|(files & _ & -> & ->)].
    + right. split; [done|]. rewrite app_nil_r.
      eapply sameSource_Forall; [|done|by eapply sublist_Forall_keep].
      intros j j' (_ & Hf & _) Hj. congruence.
    + left. assert (filter (fun job => isActive job = true) (jobs s) = []) as Hidle.
      { destruct (filter _ (jobs s)) as [|j rest] eqn:Hfilter; [done|]. exfalso.
        assert (j ∈ filter (fun job => isActive job = true) (jobs s)) as Hj
          by (rewrite Hfilter; left).
        apply list_elem_of_filter in Hj as [Hactive Hj].
        pose proof (proj1 (Forall_forall _ _) Hnone j Hj) as Hfile.
        destruct (inv_files s Hinv) as [Hidle|Hfiled].
        - apply (proj1 (Forall_forall _ _) Hidle) in Hj as [_ Hj]. congruence.
        - apply (proj1 (Forall_forall _ _) Hfiled) in Hj as [f Hf]. congruence. }
      rewrite Hidle in Hkept. apply Forall2_nil_inv_l in Hkept as ->. apply Hnew.
Qed.

Lemma initialApp_oneMode stored : oneMode (initialApp stored).
Proof.
  right. split; [done|]. destruct stored as [| |savedJobs]; simpl; try constructor.
  apply Forall_fmap, Forall_true. intros j. unfold restoreJob.
  by destruct j as [? ? ? ? [] ? ? ? ? ? ? ? ? ?].
Qed.

(** X15.  Whatever action the application handles in a reachable state,
    the jobs that it does not remove stay in their order and keep their
    id, file, file name, file size and conversion mode; no job is added
    except by a file selection, which keeps the active jobs and puts the
    new jobs after them. *)
Theorem step_keeps_jobs_in_order a s s' :
  reachable s → step a s = Some s' →
  ∃ kept kept' added,
    kept `sublist_of` jobs s
    ∧ Forall2 sameSource kept kept'
    ∧ jobs s' = kept' ++ added
    ∧ (added = []
       ∨ ∃ files, a = FileSelect files
                  ∧ kept = filter (fun job => isActive job = true) (jobs s)
                  ∧ added = newJob (conversionMode s) <$> files).
Proof. intros Hs%reachable_invariant. by apply step_jobs_origin. Qed.

Lemma step_keeps_jobs_in_order_witness :
  ∃ kept kept' added,
    kept `sublist_of` jobs (initialApp NoItem)
    ∧ Forall2 sameSource kept kept'
    ∧ jobs Scenarios.oneQueued = kept' ++ added
    ∧ (added = []
       ∨ ∃ files, FileSelect [Examples.copy 0] = FileSelect files
                  ∧ kept = filter (fun job => isActive job = true) (jobs (initialApp NoItem))
                  ∧ added = newJob (conversionMode (initialApp NoItem)) <$> files).
Proof.
  apply (step_keeps_jobs_in_order (FileSelect [Examples.copy 0]) (initialApp NoItem)
           Scenarios.oneQueued); [apply reachable_initial|reflexivity].
Defined.

(** X16.  In every reachable state all jobs of the queue are of the
    conversion mode on show, unless the queue is the one restored at
    start-up: then the mode is PDF to Excel and no job has its file. *)
Theorem reachable_oneMode s : reachable s → oneMode s.
Proof.
  induction 1 as [stored|s a s' Hs IH Hstep]; [apply initialApp_oneMode|].
  eapply step_oneMode; [by apply reachable_invariant|done..].
Qed.

Lemma reachable_oneMode_witness : oneMode (initialApp (Saved [Examples.savedProcessing])).
Proof. apply (reachable_oneMode (initialApp (Saved [Examples.savedProcessing]))), reachable_initial. Defined.

(** X17.  In every reachable state every queued or processing job has
    its file, so that a call of [processJob] on it never takes the
    missing-file branch: it starts by taking a slot. *)
Theorem active_jobs_have_their_file s j :
  reachable s → j ∈ jobs s → isActive j = true →
  is_Some (file j)
  ∧ ∀ P, ∃ rest, processJob P j = setActiveJobsCount 1 :: rest.
Proof.
  intros Hs%reachable_invariant Hj Hactive.
  assert (is_Some (file j)) as [f Hf].
  { destruct (inv_files s Hs) as [Hidle|Hfiled]; rewrite Forall_forall in *.
    - destruct (Hidle j Hj). congruence.
    - by apply Hfiled. }
  split; [by exists f|]. intros P.
  destruct (processJob_with_file P j f Hf) as (pre & call & post & -> & _). eauto.
Qed.

Lemma active_jobs_have_their_file_witness :
  is_Some (file (newJob pdf_to_excel (Examples.copy 0)))
  ∧ ∀ P, ∃ rest, processJob P (newJob pdf_to_excel (Examples.copy 0))
                 = setActiveJobsCount 1 :: rest.
Proof.
  apply (active_jobs_have_their_file Scenarios.oneQueued (newJob pdf_to_excel (Examples.copy 0))).
  - apply (reachable_step (initialApp NoItem) (FileSelect [Examples.copy 0]));
      [apply reachable_initial|reflexivity].
  - apply list_elem_of_here.
  - reflexivity.
Defined.

(** X18.  In a reachable state no action other than the scheduler effect
    makes a job processing: a job that is processing afterwards has the
    id of a job that was processing before. *)
Theorem only_the_scheduler_starts_jobs a s s' j' :
  reachable s → step a s = Some s' → (∀ P, a ≠ SchedulerEffect P) →
  j' ∈ jobs s' → status j' = processing →
  ∃ j, j ∈ jobs s ∧ id j = id j' ∧ status j = processing.
Proof.
  intros Hs%reachable_invariant Hstep Hno Hj' Hprocessing.
  apply (step_noneEnters processing a s s' Hs Hstep); auto.
Qed.

Lemma only_the_scheduler_starts_jobs_witness :
  ∃ j, j ∈ jobs Scenarios.started ∧ id j = id Scenarios.startedJob ∧ status j = processing.
Proof.
  apply (only_the_scheduler_starts_jobs (SearchQuery "report") Scenarios.started
           (setSearchQuery "report" Scenarios.started) Scenarios.startedJob).
  - apply (reachable_step Scenarios.oneQueued (SchedulerEffect Examples.succeeding));
      [|reflexivity].
    apply (reachable_step (initialApp NoItem) (FileSelect [Examples.copy 0]));
      [apply reachable_initial|reflexivity].
  - reflexivity.
  - intros P. discriminate.
  - vm_compute. apply list_elem_of_here.
  - reflexivity.
Defined.

(** *** Converted jobs keep their sheets *)

Ltac presentable_job j :=
  destruct j; unfold presentable in *; simpl in *;
  first [done | by eauto | assumption].

Ltac presentable_fields :=
  let j := fresh "j" in
  let H := fresh "H" in
  intros j H; presentable_job j.

Lemma processJob_events (Q : Event → Prop) P job :
  (∀ m, Q (setJobs (id job) [status_ error; errorMessage_ (Some m)])) →
  (∀ delta, Q (setActiveJobsCount delta)) →
  (∀ call, Q (await call)) →
  (∀ m, Q (setJobs (id job) [progressMessage_ (Some m)])) →
  (∀ rawSheets, produced P job rawSheets →
     Q (setJobs (id job) [status_ success;
                          extractedSheets_ (Some (convertRawSheetsToRich rawSheets));
                          progressMessage_ None])) →
  (∀ m, Q (setJobs (id job) [status_ error; errorMessage_ (Some m);
                             progressMessage_ None])) →
  Forall Q (processJob P job).
Proof.
  intros Hmissing Hcount Hawait Hprogress Hsuccess Herror.
  unfold processJob. destruct (file job) as [f|]; [|by repeat constructor].
  unfold convert, produced in *. destruct (Types.conversionMode job).
  - unfold awaitConvertPdfToImages, awaitExtractDataFromPdfImages.
    destruct (convertPdfToImages P f _) as [messages [images|e]]; simpl;
      [destruct (extractDataFromPdfImages P images) as [rawSheets|e] eqn:Hextract; simpl|];
      repeat first
        [ apply Forall_nil_2
        | apply Forall_cons_2; [by eauto|]
        | apply Forall_app_2
        | (apply Forall_fmap, Forall_true; done) ].
  - unfold awaitReadExcelData.
    destruct (readExcelData P f) as [rawSheets|e] eqn:Hread; simpl;
      [destruct (decide (length rawSheets = 0%nat)) as [|Hsome]; simpl|];
      repeat first [ apply Forall_nil_2 | apply Forall_cons_2; [done|] ].
    apply Forall_cons_2; [|by repeat constructor].
    apply Hsuccess. split; [|by eauto]. intros ->. by apply Hsome.
Qed.

Lemma processJob_keepsPresentable P job : Forall keepsPresentable (processJob P job).
Proof. apply processJob_events; try done; intros; simpl; presentable_fields. Qed.

Lemma updateJob_presentable jobId fields l :
  (∀ j, presentable j → presentable (spread j fields)) →
  Forall presentable l → Forall presentable (updateJob jobId fields l).
Proof.
  intros Hf Hl. apply Forall_fmap. eapply Forall_impl; [done|].
  intros j Hj. simpl. destruct (decide _); auto.
Qed.

Lemma applyEvent_presentable s e :
  keepsPresentable e → Forall presentable (jobs s) →
  Forall presentable (jobs (applyEvent s e)).
Proof. destruct e; simpl; try done. apply updateJob_presentable. Qed.

Lemma applyEvents_presentable t : ∀ s,
  Forall keepsPresentable t → Forall presentable (jobs s) →
  Forall presentable (jobs (foldl applyEvent s t)).
Proof.
  induction t as [|e t IH]; intros s Ht Hs; simpl; [done|].
  apply Forall_cons in Ht as [He Ht]. apply IH; [done|]. by apply applyEvent_presentable.
Qed.

Lemma dispatch_resultsPresent P s job : resultsPresent s → resultsPresent (dispatch P s job).
Proof.
  intros [Hjobs Hflight]. unfold dispatch.
  pose proof (processJob_keepsPresentable P job) as Hsafe.
  rewrite <-(untilAwait_app (processJob P job)) in Hsafe.
  destruct (untilAwait (processJob P job)) as [now later]. simpl in Hsafe.
  apply Forall_app in Hsafe as [Hnow Hlater].
  destruct later as [|e later]; split; simpl;
    rewrite ?applyEvents_inFlight; try (by apply applyEvents_presentable); try done.
  apply Forall_app. split; [done|]. by constructor.
Qed.

Lemma dispatches_resultsPresent P jobsToStart : ∀ s,
  resultsPresent s → resultsPresent (foldl (dispatch P) s jobsToStart).
Proof.
  induction jobsToStart as [|job rest IH]; intros s Hs; simpl; [done|].
  by apply IH, dispatch_resultsPresent.
Qed.

Lemma schedulerEffect_resultsPresent P s :
  resultsPresent s → resultsPresent (schedulerEffect P s).
Proof.
  intros Hs. unfold schedulerEffect. destruct (_ <=? _); [done|].
  destruct (decide _); [|done].
  set (s1 := withJobs _ s). assert (resultsPresent s1) as Hs1.
  { destruct Hs as [Hjobs Hflight]. split; [|done]. cbn -[spread].
    apply Forall_fmap. eapply Forall_impl; [done|]. intros j Hj. simpl.
    destruct (admitted _ j); [|done]. presentable_job j. }
  by apply dispatches_resultsPresent.
Qed.

Lemma resume_resultsPresent k s : resultsPresent s → resultsPresent (resume k s).
Proof.
  intros [Hjobs Hflight]. unfold resume.
  destruct (inFlight s !! k) as [[|e rest]|] eqn:Hk; [|  |done].
  - split; [done|]. simpl. by apply Forall_delete.
  - pose proof (proj1 (Forall_lookup _ _) Hflight k _ Hk) as [He Hrest]%Forall_cons.
    destruct rest as [|e' rest]; split; simpl; rewrite ?applyEvent_inFlight;
      try (by apply applyEvent_presentable).
    + by apply Forall_delete.
    + by apply Forall_insert.
Qed.

Lemma step_resultsPresent a s s' : resultsPresent s → step a s = Some s' → resultsPresent s'.
Proof.
  intros Hs Hstep.
  destruct (match a with SchedulerEffect P => Some P | _ => None end) as [P|] eqn:Hsched.
  { destruct a; try done. injection Hsched as ->. injection Hstep as <-.
    by apply schedulerEffect_resultsPresent. }
  destruct (match a with Resume k => Some k | _ => None end) as [k|] eqn:Hresume.
  { destruct a; try done. injection Hresume as ->. injection Hstep as <-.
    by apply resume_resultsPresent. }
  destruct Hs as [Hjobs Hflight]. split.
  2: { rewrite (step_inFlight a s s' Hstep); [done|by intros P ->|by intros k ->]. }
  clear Hflight. revert Hstep.
  destruct a; try done; clear Hsched Hresume;
    cbn -[spread paginatedJobs]; try (intros [= <-]); try done.
  - destruct (uploadEnabled files s); [|done]. cbn. apply Forall_app. split.
    + by apply Forall_filter_keep.
    + apply Forall_fmap, Forall_true. intros f. by intros ?.
  - apply updateJob_presentable; [presentable_fields|done].
  - by apply Forall_filter_keep.
  - unfold switchConversionMode. destruct (decide _); [done|constructor].
  - destruct (paginatedJobs s !! k) as [job|]; [|by intros [= <-]].
    destruct (bool_decide _); [|by intros [= <-]].
    unfold handleDownload. destruct (extractedSheets job); [|by intros [= <-]].
    destruct (generateOutput _ _ _ _) as [[?|e]|]; simpl; [| |done]; intros [= <-];
      [done|]. apply updateJob_presentable; [presentable_fields|done].
  - destruct (paginatedJobs s !! k) as [job|]; intros [= <-]; [|done].
    destruct (_ && _); [|done]. apply updateJob_presentable; [presentable_fields|done].
  - apply updateJob_presentable; [presentable_fields|done].
  - cbn -[spread]. apply Forall_fmap. eapply Forall_impl; [done|]. intros j Hj. simpl.
    destruct (thumbnailUrls j); [|done]. destruct (decide _); [|done].
    presentable_job j.
  - apply updateJob_presentable; [presentable_fields|done].
  - apply updateJob_presentable; [presentable_fields|done].
  - by destruct (decide _).
  - by destruct (decide _).
  - unfold pageEffect. by destruct (decide _).
  - by destruct (selectionBarRendered s).
  - unfold selectionEffect. by destruct (decide _).
  - by apply Forall_filter_keep.
  - destruct (canRetrySelected s); [|done].
    unfold handleRetrySelected. destruct (decide _); [|done].
    cbn -[spread]. apply Forall_fmap. eapply Forall_impl; [done|]. intros j Hj. simpl.
    destruct (decide _); [|done]. presentable_job j.
Qed.

Lemma run_resultsPresent actions : ∀ s s',
  resultsPresent s → run actions s = Some s' → resultsPresent s'.
Proof.
  induction actions as [|a rest IH]; intros s s' Hs; simpl; [by intros [= <-]|].
  destruct (step a s) as [s1|] eqn:Hstep; [|done]. simpl.
  apply IH. by eapply step_resultsPresent.
Qed.

(** X19.  When the jobs restored at start-up that are shown as converted
    have their sheets, every job shown as converted has its sheets in
    every state that the application comes to; so the button that
    downloads the selection is enabled exactly when
    [handleDownloadSelected] finds a job to put into the zip file. *)
Theorem converted_jobs_keep_their_sheets stored actions s' :
  Forall presentable (restoreQueue stored) →
  run actions (initialApp stored) = Some s' →
  (∀ j, j ∈ jobs s' → status j = success → is_Some (extractedSheets j))
  ∧ (canDownloadSelected s' = true ↔ jobsToDownload s' ≠ []).
Proof.
  intros Hstored Hrun.
  assert (resultsPresent (initialApp stored)) as Hinit by (by split; [|constructor]).
  destruct (run_resultsPresent actions _ _ Hinit Hrun) as [Hjobs _].
  rewrite Forall_forall in Hjobs. split; [intros j Hj; by apply Hjobs|].
  unfold canDownloadSelected, jobsToDownload.
  rewrite bool_decide_eq_true, Exists_exists. split.
  - intros (j & Hj & Hsel & Hsuccess) Hnil.
    eapply (filter_nil_not_elem_of _ _ j); [done| |done].
    split_and!; [done..|]. by apply Hjobs.
  - intros Hsome. destruct (filter _ (jobs s')) as [|j rest] eqn:Hfilter; [done|].
    assert (j ∈ j :: rest) as Hj by left. rewrite <-Hfilter in Hj.
    apply list_elem_of_filter in Hj as [(? & ? & _) ?]. eauto.
Qed.

Lemma converted_jobs_keep_their_sheets_witness :
  ∃ s', run Scenarios.conversion (initialApp NoItem) = Some s'
        ∧ (∀ j, j ∈ jobs s' → status j = success → is_Some (extractedSheets j))
        ∧ (canDownloadSelected s' = true ↔ jobsToDownload s' ≠ []).
Proof.
  eexists. split; [reflexivity|].
  apply (converted_jobs_keep_their_sheets NoItem Scenarios.conversion);
    [constructor|reflexivity].
Defined.

End ProvenanceFacts.

(** ** The scheduler fills the slots, and every call gives its slot back *)
Section SchedulerFacts.
Import Types Sheets Queue.

Lemma dispatches_counter P jobsToStart : ∀ s,
  uniformFiles (jobs s) →
  Forall (fun j => is_Some (file j)) jobsToStart →
  activeJobsCount (foldl (dispatch P) s jobsToStart)
  = activeJobsCount s + Z.of_nat (length jobsToStart).
Proof.
  induction jobsToStart as [|job rest IH]; intros s Hfiles Hfiled; simpl; [lia|].
  apply Forall_cons in Hfiled as [[f Hf] Hrest].
  destruct (dispatch_spec P s job Hfiles) as [Hfiles' [(Hnone & _)|(_ & Hcount & _)]];
    [congruence|].
  rewrite IH by done. lia.
Qed.

Lemma started_job_is_marked jobsToStart j : j ∈ jobsToStart → admitted jobsToStart j = true.
Proof.
  intros Hj. apply bool_decide_eq_true, Exists_exists. by exists j.
Qed.

(** X20.  The scheduler effect leaves no slot idle while a job waits:
    after it has run in a reachable state, three calls of [processJob]
    hold a slot, or no job of the queue is queued. *)
Theorem schedulerEffect_fills_the_slots P s :
  reachable s →
  activeJobsCount (schedulerEffect P s) = MAX_CONCURRENT_JOBS
  ∨ Forall (fun j => status j ≠ queued) (jobs (schedulerEffect P s)).
Proof.
  intros Hinv%reachable_invariant. pose proof (inv_ceiling s Hinv) as Hceil.
  pose proof (inv_files s Hinv) as Hfiles. unfold schedulerEffect.
  destruct (Z.leb_spec (MAX_CONCURRENT_JOBS - activeJobsCount s) 0) as [Hfull|Hfree];
    [left; lia|].
  set (waiting := filter (fun job => status job = queued) (jobs s)).
  set (slots := Z.to_nat (MAX_CONCURRENT_JOBS - activeJobsCount s)).
  assert (∀ j, j ∈ jobs s → status j = queued → j ∈ waiting) as Hwaiting.
  { intros j Hj Hq. by apply list_elem_of_filter. }
  destruct (decide (0 < length (take slots waiting))%nat) as [Hpos|Hnone].
  - assert (Forall (fun j => is_Some (file j)) (jobs s)) as Hfiled.
    { destruct (take slots waiting) as [|j ?] eqn:Hj; [simpl in Hpos; lia|].
      assert (j ∈ take slots waiting) as Hin by (rewrite Hj; left).
      apply subseteq_take, list_elem_of_filter in Hin as [Hq Hin].
      eapply uniformFiles_filed; [done..|]. right. unfold isActive. by rewrite Hq. }
    assert (∀ jobsToStart,
              uniformFiles (jobs (withJobs (fmap (fun j =>
                if admitted jobsToStart j then spread j [status_ processing] else j)) s)))
      as Hfiles1.
    { intros jobsToStart. apply uniformFiles_fmap_filed; [done|]. intros j.
      destruct (admitted _ j); [|done]. by destruct j. }
    destruct (decide (length waiting ≤ slots)%nat) as [Hfew|Hmany].
    + right. rewrite take_ge by done. set (s1 := withJobs _ s).
      assert (Forall (fun j => status j ≠ queued) (jobs s1)) as Hstarted.
      { cbn -[spread]. apply Forall_fmap, Forall_forall. intros j Hj. simpl.
        destruct (admitted waiting j) eqn:Hadmitted; [by destruct j|].
        intros Hq. rewrite started_job_is_marked in Hadmitted; [done|]. by apply Hwaiting. }
      apply Forall_forall. intros j' Hj' Hq.
      destruct (dispatches_noneEnters queued (or_introl eq_refl) P waiting s1 j' Hj' Hq)
        as (j & Hj & _ & Hqueued).
      by apply (proj1 (Forall_forall _ _) Hstarted j Hj).
    + left. rewrite dispatches_counter; [|apply Hfiles1|].
      * rewrite length_take. cbn [activeJobsCount withJobs]. unfold slots. lia.
      * apply Forall_forall. intros j Hj.
        apply subseteq_take, list_elem_of_filter in Hj as [_ Hj].
        by apply (proj1 (Forall_forall _ _) Hfiled).
  - right. apply Forall_forall. intros j Hj Hq.
    apply Hwaiting in Hq; [|done]. rewrite length_take in Hnone.
    destruct waiting; [by apply elem_of_nil in Hq|]. simpl in Hnone. unfold slots in *. lia.
Qed.

Lemma schedulerEffect_fills_the_slots_witness :
  activeJobsCount (schedulerEffect Examples.succeeding Scenarios.oneQueued)
  = MAX_CONCURRENT_JOBS
  ∨ Forall (fun j => status j ≠ queued)
           (jobs (schedulerEffect Examples.succeeding Scenarios.oneQueued)).
Proof.
  apply (schedulerEffect_fills_the_slots Examples.succeeding Scenarios.oneQueued).
  apply (reachable_step (initialApp NoItem) (FileSelect [Examples.copy 0]));
    [apply reachable_initial|reflexivity].
Defined.

Lemma delete_insert_same {A} (l : list A) k x : delete k (<[k := x]> l) = delete k l.
Proof.
  revert k. induction l as [|y l IH]; intros [|k]; simpl; try done. by rewrite IH.
Qed.

Lemma insert_insert_same {A} (l : list A) k x y : <[k := x]> (<[k := y]> l) = <[k := x]> l.
Proof.
  revert k. induction l as [|z l IH]; intros [|k]; simpl; try done. by rewrite IH.
Qed.

Lemma resume_runs work : ∀ s k,
  Forall (fun e => isCounter e = false) work →
  inFlight s !! k = Some (work ++ [setActiveJobsCount (-1)]) →
  ∃ s', run (replicate (S (length work)) (Resume k)) s = Some s'
        ∧ inFlight s' = delete k (inFlight s)
        ∧ activeJobsCount s' = activeJobsCount s - 1.
Proof.
  induction work as [|e work IH]; intros s k Hwork Hk.
  - simpl. unfold resume. rewrite Hk. simpl. eexists. split; [done|]. split; [done|]. simpl. lia.
  - apply Forall_cons in Hwork as [He Hwork].
    pose proof (lookup_lt_Some _ _ _ Hk) as Hlt.
    assert (step (Resume k) s
            = Some (withInFlight (<[k := work ++ [setActiveJobsCount (-1)]]>)
                      (applyEvent s e))) as Hstep.
    { simpl. unfold resume. rewrite Hk. simpl. by destruct work. }
    destruct (IH (withInFlight (<[k := work ++ [setActiveJobsCount (-1)]]>)
                    (applyEvent s e)) k Hwork) as (s' & Hrun & Hflight & Hcount).
    { simpl. rewrite applyEvent_inFlight. by apply list_lookup_insert_eq. }
    exists s'. split.
    + change (replicate (S (length (e :: work))) (Resume k))
        with (Resume k :: replicate (S (length work)) (Resume k)).
      cbn [run]. rewrite Hstep. exact Hrun.
    + split.
      * rewrite Hflight. simpl. by rewrite applyEvent_inFlight, delete_insert_same.
      * rewrite Hcount. simpl. by destruct e.
Qed.

(** X21.  Every call of [processJob] that is in flight in a reachable
    state gives its slot back: letting it go on once for each event it
    has left takes it out of the calls in flight, leaves the other
    calls as they are and lowers the counter by one. *)
Theorem call_in_flight_gives_slot_back s k t :
  reachable s → inFlight s !! k = Some t →
  ∃ s', run (replicate (length t) (Resume k)) s = Some s'
        ∧ inFlight s' = delete k (inFlight s)
        ∧ activeJobsCount s' = activeJobsCount s - 1.
Proof.
  intros Hs%reachable_invariant Hk.
  pose proof (proj1 (Forall_lookup _ _) (inv_slots s Hs) k t Hk) as (work & -> & Hwork).
  rewrite length_app, Nat.add_1_r. by apply resume_runs.
Qed.

Lemma call_in_flight_gives_slot_back_witness :
  ∃ s', run (replicate (length Scenarios.pending) (Resume 0)) Scenarios.started = Some s'
        ∧ inFlight s' = delete 0%nat (inFlight Scenarios.started)
        ∧ activeJobsCount s' = activeJobsCount Scenarios.started - 1.
Proof.
  apply (call_in_flight_gives_slot_back Scenarios.started 0 Scenarios.pending).
  - apply (reachable_step Scenarios.oneQueued (SchedulerEffect Examples.succeeding));
      [|reflexivity].
    apply (reachable_step (initialApp NoItem) (FileSelect [Examples.copy 0]));
      [apply reachable_initial|reflexivity].
  - reflexivity.
Defined.

End SchedulerFacts.

(** ** The extraction service *)
Section GeminiFacts.
Import Types Sheets Queue Provenance Gemini.

Lemma isValidSheet_table sheet :
  isValidSheet sheet = true → isTable (rawData (toRawSheet sheet)).
Proof.
  unfold isValidSheet, toRawSheet. simpl.
  destruct (parsedData sheet) as [[|header [|second rest]]|]; try done.
  intros Hheader%bool_decide_eq_true. exists header, second, rest. split; [done|].
  intros ->. simpl in Hheader. lia.
Qed.

Lemma validate_tables JSON_parse response sheets :
  validate JSON_parse response = Resolved sheets →
  sheets ≠ [] ∧ Forall (fun sheet => isTable (rawData sheet)) sheets.
Proof.
  unfold validate. destruct (bool_decide _); [done|].
  destruct (text response) as [[|c jsonString]|]; try done.
  destruct (JSON_parse _) as [| | |parsed]; try done.
  destruct (decide _); [done|]. destruct (decide _) as [|Hvalid]; [done|].
  intros [= <-]. split.
  - intros Hnil. apply Hvalid. apply (f_equal length) in Hnil.
    by rewrite length_fmap in Hnil.
  - apply Forall_fmap, Forall_forall. intros sheet [Hsheet _]%list_elem_of_filter.
    by apply isValidSheet_table.
Qed.

Lemma validate_rejects_with_Error JSON_parse response e :
  validate JSON_parse response = Rejected e → ∃ message, e = ErrorObject message.
Proof.
  unfold validate. destruct (bool_decide _); [intros [= <-]; eauto|].
  destruct (text response) as [[|c jsonString]|]; try (intros [= <-]; eauto).
  destruct (JSON_parse _) as [| | |parsed]; try (intros [= <-]; eauto).
  destruct (decide _); [intros [= <-]; eauto|].
  destruct (decide _); [intros [= <-]; eauto|done].
Qed.

Lemma extract_tables generateContent JSON_parse images sheets :
  extractDataFromPdfImages generateContent JSON_parse images = Resolved sheets →
  sheets ≠ [] ∧ Forall (fun sheet => isTable (rawData sheet)) sheets
  ∧ ∃ response, generateContent images = Resolved response
                ∧ finishReason response ≠ Some "SAFETY".
Proof.
  unfold extractDataFromPdfImages.
  destruct (generateContent images) as [response|[message|]] eqn:Hcall; [|done..].
  destruct (validate JSON_parse response) as [sheets'|[|]] eqn:Hvalidate; [|done..].
  intros [= <-]. destruct (validate_tables _ _ _ Hvalidate) as [Hsome Htables].
  split_and!; [done..|]. exists response. split; [done|].
  revert Hvalidate. unfold validate.
  destruct (bool_decide_reflect (finishReason response = Some "SAFETY")); done.
Qed.

(** X22.  [extractDataFromPdfImages] resolves only with at least one
    sheet, each of them a table with a header row that has a cell and at
    least one more row, and only when the answer of the model was not
    stopped for safety; and when it rejects, it rejects with an [Error],
    whatever the call of the model rejected with. *)
Theorem extractDataFromPdfImages_checks_the_response generateContent JSON_parse images :
  match extractDataFromPdfImages generateContent JSON_parse images with
  | Resolved sheets =>
      sheets ≠ [] ∧ Forall (fun sheet => isTable (rawData sheet)) sheets
      ∧ ∃ response, generateContent images = Resolved response
                    ∧ finishReason response ≠ Some "SAFETY"
  | Rejected e => ∃ message, e = ErrorObject message
  end.
Proof.
  destruct (extractDataFromPdfImages _ _ _) as [sheets|e] eqn:Hrun;
    [by eapply extract_tables|].
  revert Hrun. unfold extractDataFromPdfImages.
  destruct (generateContent images) as [response|[message|]]; [|intros [= <-]; eauto..].
  destruct (validate JSON_parse response) as [sheets'|[|]]; [done|intros [= <-]; eauto..].
Qed.

Lemma convertRawSheetsToRich_tables rawSheets :
  rawSheets ≠ [] → Forall (fun sheet => isTable (rawData sheet)) rawSheets →
  convertRawSheetsToRich rawSheets ≠ []
  ∧ Forall (fun sheet => isTable (data sheet)) (convertRawSheetsToRich rawSheets).
Proof.
  intros Hsome Htables. unfold convertRawSheetsToRich. split.
  - by destruct rawSheets.
  - change (map ?f rawSheets) with (f <$> rawSheets).
    apply Forall_fmap. eapply Forall_impl; [done|].
    intros sheet (header & second & rest & Hrows & Hheader). simpl. rewrite Hrows.
    do 3 eexists. split; [done|]. by destruct header.
Qed.

(** X23.  When the pipeline of a PDF job ends in this service, the job
    is shown as converted only with result sheets that are tables: every
    update of [processJob] that sets the status to success stores at
    least one sheet, and every stored sheet has a header row with a cell
    and at least one more row. *)
Theorem converted_pdf_job_has_tables P generateContent JSON_parse job jobId fields :
  (∀ images, Queue.extractDataFromPdfImages P images
             = Gemini.extractDataFromPdfImages generateContent JSON_parse images) →
  Types.conversionMode job = pdf_to_excel →
  setJobs jobId fields ∈ processJob P job →
  status_ success ∈ fields →
  ∃ sheets,
    fields = [status_ success; extractedSheets_ (Some sheets); progressMessage_ None]
    ∧ sheets ≠ [] ∧ Forall (fun sheet => isTable (data sheet)) sheets.
Proof.
  intros Hservice Hmode Hevent Hsuccess.
  assert (Forall
    (fun e => ∀ jobId fields, e = setJobs jobId fields → status_ success ∈ fields →
       ∃ sheets,
         fields = [status_ success; extractedSheets_ (Some sheets); progressMessage_ None]
         ∧ sheets ≠ [] ∧ Forall (fun sheet => isTable (data sheet)) sheets)
    (processJob P job)) as Hall.
  2: { rewrite Forall_forall in Hall. by apply (Hall _ Hevent jobId fields). }
  clear Hevent Hsuccess jobId fields. apply processJob_events; try done.
  - intros m jobId fields [= <- <-] Hin. apply list_elem_of_In in Hin. simpl in Hin.
    by destruct Hin as [|[|[]]].
  - intros m jobId fields [= <- <-] Hin. apply list_elem_of_In in Hin. simpl in Hin.
    by destruct Hin as [|[]].
  - intros rawSheets Hproduced jobId fields [= <- <-] _. eexists. split; [done|].
    unfold produced in Hproduced. rewrite Hmode in Hproduced.
    destruct Hproduced as [images Himages]. rewrite Hservice in Himages.
    destruct (extract_tables _ _ _ _ Himages) as (Hsome & Htables & _).
    by apply convertRawSheetsToRich_tables.
  - intros m jobId fields [= <- <-] Hin. apply list_elem_of_In in Hin. simpl in Hin.
    by destruct Hin as [|[|[|[]]]].
Qed.

Lemma converted_pdf_job_has_tables_witness :
  ∃ sheets,
    [status_ success; extractedSheets_ (Some (convertRawSheetsToRich [Examples.table]));
     progressMessage_ None]
    = [status_ success; extractedSheets_ (Some sheets); progressMessage_ None]
    ∧ sheets ≠ [] ∧ Forall (fun sheet => isTable (data sheet)) sheets.
Proof.
  apply (converted_pdf_job_has_tables Scenarios.service
           (fun _ => Resolved Scenarios.answer) (fun _ => Scenarios.parsedAnswer)
           (newJob pdf_to_excel (Examples.copy 0))
           (id (newJob pdf_to_excel (Examples.copy 0)))).
  - intros images. reflexivity.
  - reflexivity.
  - apply list_elem_of_In. simpl. auto 10.
  - apply list_elem_of_here.
Defined.

End GeminiFacts.

(** ** Thumbnails and page images *)
Section PdfFacts.
Import JsNumber PageRange Types Queue Thumbnails Pdf.

Lemma length_omap_seqZ {A} (f : Z → option A) m n :
  0 ≤ n → Z.of_nat (length (omap f (seqZ m n))) ≤ n.
Proof.
  intros Hn. pose proof (length_omap_le f (seqZ m n)) as Hle.
  rewrite length_seqZ in Hle. lia.
Qed.

(** X24.  [generatePdfThumbnail] gives no list of thumbnails or a list
    that is not empty, of at most five thumbnails and at most one for
    each page; it gives none and a page count of 0 when the file could
    not be read or opened.  Stored in a job that [handleFileSelect] has
    just made, the thumbnails are under the job's cursor. *)
Theorem generatePdfThumbnail_bounds read opened :
  let result := generatePdfThumbnail read opened in
  (∀ thumbnails, urls result = Some thumbnails →
     thumbnails ≠ [] ∧ (length thumbnails ≤ 5)%nat
     ∧ Z.of_nat (length thumbnails) ≤ pageCount result)
  ∧ ((read ≠ Bytes ∨ ∃ failure, opened = inl failure) →
       urls result = None ∧ pageCount result = 0)
  ∧ ∀ mode f,
      cursorInRange (spread (newJob mode f)
                       [thumbnailUrls_ (urls result); pdfPageCount_ (Some (pageCount result))]).
Proof.
  assert (∀ result : ThumbnailResult,
            (∀ thumbnails, urls result = Some thumbnails → thumbnails ≠ []) →
            ∀ mode f, cursorInRange (spread (newJob mode f)
                        [thumbnailUrls_ (urls result);
                         pdfPageCount_ (Some (pageCount result))])) as Hcursor.
  { intros result Hsome mode f thumbnails. simpl. intros Hurls. exists 0. split; [done|].
    specialize (Hsome thumbnails Hurls). destruct thumbnails; [done|]. simpl. lia. }
  unfold generatePdfThumbnail.
  destruct read; destruct opened as [failure|pdf]; cbn -[spread newJob seqZ Z.min];
    try (split_and!; [done|done|by apply (Hcursor {| urls := None; pageCount := 0 |})]).
  set (thumbnails := omap (renderThumbnail pdf) (seqZ 1 (Z.min 5 (numPages pdf)))).
  assert (∀ l, (if decide (0 < length thumbnails)%nat then Some thumbnails else None) = Some l →
               l ≠ [] ∧ (length l ≤ 5)%nat ∧ Z.of_nat (length l) ≤ numPages pdf) as Hbounds.
  { intros l. destruct (decide _) as [Hpos|]; [|done]. intros [= <-].
    assert (0 ≤ Z.min 5 (numPages pdf)) as Hmin.
    { destruct (decide (0 ≤ Z.min 5 (numPages pdf))) as [|Hneg]; [done|].
      unfold thumbnails, seqZ in Hpos. rewrite Z2Nat.nonpos in Hpos by lia.
      simpl in Hpos. lia. }
    pose proof (length_omap_seqZ (renderThumbnail pdf) 1 _ Hmin) as Hle.
    fold thumbnails in Hle. split; [by destruct thumbnails; simpl in *; [lia|]|]. lia. }
  split; [exact Hbounds|]. split.
  - intros [?|[? ?]]; done.
  - intros mode f.
    apply (Hcursor {| urls := if decide (0 < length thumbnails)%nat then Some thumbnails
                              else None;
                      pageCount := numPages pdf |}).
    intros l Hl. by apply Hbounds.
Qed.

Lemma renderPages_spec pdf n : ∀ pages i images messages outcome,
  renderPages pdf n i pages images = (messages, outcome) →
  match outcome with
  | inr images' =>
      ∃ added, images' = images ++ added
               ∧ Forall2 (fun pageNum image =>
                            ∃ dataUrl, imageOf pdf pageNum = inr dataUrl
                                       ∧ image = payload dataUrl) pages added
               ∧ messages = (fun k => progress k n) <$> seq i (length pages)
  | inl failure =>
      ∃ done pageNum, (done < length pages)%nat
                      ∧ pages !! done = Some pageNum
                      ∧ imageOf pdf pageNum = inl failure
                      ∧ messages = (fun k => progress k n) <$> seq i (S done)
  end.
Proof.
  induction pages as [|pageNum rest IH]; intros i images messages outcome; simpl.
  - intros [= <- <-]. exists []. by rewrite app_nil_r.
  - destruct (imageOf pdf pageNum) as [failure|dataUrl] eqn:Himage.
    + intros [= <- <-]. exists 0%nat, pageNum. split_and!; [lia|done..].
    + destruct (renderPages pdf n (S i) rest _) as [messages' outcome'] eqn:Hrest.
      intros [= <- <-]. specialize (IH _ _ _ _ Hrest).
      destruct outcome' as [failure|images'].
      * destruct IH as (done & pageNum' & Hdone & Hpage & Hfail & ->).
        exists (S done), pageNum'. split_and!; [lia|done..].
      * destruct IH as (added & -> & Hadded & ->).
        exists (payload dataUrl :: added). rewrite <-app_assoc. split_and!; [done| |done].
        constructor; [by exists dataUrl|done].
Qed.

(** X25.  When [convertPdfToImages] resolves, it has drawn exactly the
    pages that [parsePageRange] selected, each of them a page of the
    document, in ascending order and one image for each, and reported
    one message for each (or, for an empty selection, the one message
    that no page is selected); when it rejects, it rejects with an
    [Error] that carries one of four fixed messages. *)
Theorem convertPdfToImages_draws_selected_pages fuel read opened pageRange messages outcome :
  convertPdfToImages fuel read opened pageRange = Some (messages, outcome) →
  match outcome with
  | Resolved images =>
      ∃ pdf pages,
        read = Bytes ∧ opened = inr pdf
        ∧ parsePageRange fuel pageRange (numPages pdf) = Some pages
        ∧ StronglySorted Z.lt pages
        ∧ Forall (fun pageNum => 1 ≤ pageNum ≤ numPages pdf) pages
        ∧ Forall2 (fun pageNum image =>
                     ∃ dataUrl, imageOf pdf pageNum = inr dataUrl
                                ∧ image = payload dataUrl) pages images
        ∧ messages = (if decide (length pages = 0%nat)
                      then ["No pages selected for conversion."]
                      else (fun k => progress k (length pages)) <$> seq 0 (length pages))
  | Rejected e =>
      e ∈ [ErrorObject "Failed to read the PDF file.";
           ErrorObject "Failed to read file.";
           ErrorObject "The PDF is password-protected and cannot be processed.";
           ErrorObject "Failed to convert PDF to images. The file might be corrupted."]
  end.
Proof.
  unfold convertPdfToImages.
  destruct read; [intros [= <- <-]; set_solver..|].
  destruct opened as [failure|pdf]; [intros [= <- <-]; destruct failure; set_solver|].
  destruct (parsePageRange fuel pageRange (numPages pdf)) as [pages|] eqn:Hpages; [|done].
  simpl. destruct (parsePageRange_sound _ _ _ _ Hpages) as [Hsorted Hbounds].
  destruct (decide (length pages = 0%nat)) as [Hnone|Hsome].
  - intros [= <- <-]. exists pdf, pages. rewrite decide_True by done.
    apply nil_length_inv in Hnone as ->. by split_and!.
  - destruct (renderPages pdf (length pages) 0 pages []) as [messages' outcome'] eqn:Hrender.
    intros [= <- <-]. pose proof (renderPages_spec _ _ _ _ _ _ _ Hrender) as Hspec.
    destruct outcome' as [failure|images].
    + destruct failure; set_solver.
    + destruct Hspec as (added & -> & Hadded & ->). exists pdf, pages.
      rewrite decide_False by done. by split_and!.
Qed.

Lemma convertPdfToImages_draws_selected_pages_witness :
  ∃ pdf pages,
    Bytes = Bytes ∧ @inr Failure Document Scenarios.document = inr pdf
    ∧ parsePageRange 10 "2-3" (numPages pdf) = Some pages
    ∧ StronglySorted Z.lt pages
    ∧ Forall (fun pageNum => 1 ≤ pageNum ≤ numPages pdf) pages
    ∧ Forall2 (fun pageNum image =>
                 ∃ dataUrl, imageOf pdf pageNum = inr dataUrl ∧ image = payload dataUrl)
              pages ["BBBB"; "BBBB"]
    ∧ [progress 0 2; progress 1 2]
      = (if decide (length pages = 0%nat)
         then ["No pages selected for conversion."]
         else (fun k => progress k (length pages)) <$> seq 0 (length pages)).
Proof.
  apply (convertPdfToImages_draws_selected_pages 10 Bytes (inr Scenarios.document) "2-3"
           [progress 0 2; progress 1 2] (Resolved ["BBBB"; "BBBB"])).
  reflexivity.
Defined.

End PdfFacts.

(** ** The sheets that a PDF download writes, and the sheets of a
    spreadsheet job *)
Section SheetSelection.
Import JsString PageRange Types Sheets Queue Tokens Provenance.

Lemma selectSheets_filter pages (sheets : list SheetData) :
  selectSheets pages sheets
  = snd <$> filter (fun entry => Z.of_nat entry.1 + 1 ∈ pages) (imap pair sheets).
Proof.
  unfold selectSheets. induction (imap pair sheets) as [|[index sheet] l IH]; [done|].
  rewrite filter_cons. csimpl. rewrite IH.
  by destruct (decide (Z.of_nat index + 1 ∈ pages)).
Qed.

Lemma elem_of_imap_pair {A} (l : list A) i x : (i, x) ∈ imap pair l ↔ l !! i = Some x.
Proof.
  rewrite list_elem_of_lookup. split.
  - intros [k Hk]. rewrite list_lookup_imap in Hk.
    destruct (l !! k) eqn:Hl; simpl in Hk; [|done]. by injection Hk as <- <-.
  - intros Hi. exists i. by rewrite list_lookup_imap, Hi.
Qed.

Lemma filter_all {A} (P : A → Prop) `{!∀ x, Decision (P x)} (l : list A) :
  Forall P l → filter P l = l.
Proof.
  induction 1 as [|x l Hx _ IH]; [done|]. by rewrite filter_cons, decide_True, IH.
Qed.

Lemma snd_imap_pair {A} (l : list A) : snd <$> imap pair l = l.
Proof.
  apply list_eq. intros i. rewrite list_lookup_fmap, list_lookup_imap.
  by destruct (l !! i).
Qed.

(** X26.  The sheets that a PDF download of a spreadsheet job writes are
    sheets of the job in their order: all of them when the sheet filter
    is blank or missing, and otherwise exactly those whose number, from
    1, is named by a token of the filter. *)
Theorem selected_sheets_are_the_named_sheets fuel pageRange (sheets : list SheetData) pages :
  Z.of_nat (length sheets) < 2 ^ 53 →
  parsePageRange fuel (orEmpty pageRange) (Z.of_nat (length sheets)) = Some pages →
  ∃ kept,
    selectSheets pages sheets = snd <$> kept
    ∧ kept `sublist_of` imap pair sheets
    ∧ (∀ i sheet,
         (i, sheet) ∈ kept ↔
           sheets !! i = Some sheet
           ∧ (trim (orEmpty pageRange) = ""
              ∨ ∃ part, part ∈ split "," (orEmpty pageRange)
                        ∧ names part (Z.of_nat i + 1)))
    ∧ (trim (orEmpty pageRange) = "" → selectSheets pages sheets = sheets).
Proof.
  intros Hsmall Hpages.
  exists (filter (fun entry => Z.of_nat entry.1 + 1 ∈ pages) (imap pair sheets)).
  split; [apply selectSheets_filter|]. split; [apply sublist_filter|].
  assert (∀ i sheet, sheets !! i = Some sheet →
            1 ≤ Z.of_nat i + 1 ≤ Z.of_nat (length sheets)) as Hindex.
  { intros i sheet Hi%lookup_lt_Some. lia. }
  destruct (decide (trim (orEmpty pageRange) = "")) as [Hblank|Hrange].
  - assert (pages = seqZ 1 (Z.of_nat (length sheets))) as ->.
    { revert Hpages. unfold parsePageRange. rewrite Hblank. simpl. by intros [= <-]. }
    assert (∀ i sheet, sheets !! i = Some sheet →
              Z.of_nat i + 1 ∈ seqZ 1 (Z.of_nat (length sheets))) as Hall.
    { intros i sheet Hi. apply elem_of_seqZ. specialize (Hindex i sheet Hi). lia. }
    split.
    + intros i sheet. rewrite list_elem_of_filter, elem_of_imap_pair. simpl.
      split; [intros [_ Hi]; auto|intros [Hi _]; eauto].
    + intros _. rewrite selectSheets_filter, filter_all; [apply snd_imap_pair|].
      apply Forall_forall. intros [i sheet] Hi%elem_of_imap_pair. by eapply Hall.
  - destruct (parsePageRange_parts _ _ _ _ Hrange Hpages) as (added & Hadded & Hsame).
    assert (∀ p, p ∈ pages ↔
              1 ≤ p ≤ Z.of_nat (length sheets)
              ∧ ∃ part, part ∈ split "," (orEmpty pageRange) ∧ names part p) as Hnames.
    { intros p. rewrite Hsame, (addParts_exact _ _ _ _ _ Hsmall Hadded p).
      split; [|by right]. by intros [[]%elem_of_nil|?]. }
    split.
    + intros i sheet. rewrite list_elem_of_filter, elem_of_imap_pair. simpl.
      rewrite Hnames. split.
      * intros [[_ Hnamed] Hi]. auto.
      * intros [Hi [?|Hnamed]]; [done|]. split; [|done]. split; [by eapply Hindex|done].
    + done.
Qed.

Lemma selected_sheets_are_the_named_sheets_witness :
  ∃ kept,
    selectSheets [2; 3] [Examples.sheet "Q1"; Examples.sheet "Q2"; Examples.sheet "Q3"]
    = snd <$> kept
    ∧ kept `sublist_of`
        imap pair [Examples.sheet "Q1"; Examples.sheet "Q2"; Examples.sheet "Q3"]
    ∧ (∀ i sheet,
         (i, sheet) ∈ kept ↔
           [Examples.sheet "Q1"; Examples.sheet "Q2"; Examples.sheet "Q3"] !! i = Some sheet
           ∧ (trim (orEmpty (Some "2-3")) = ""
              ∨ ∃ part, part ∈ split "," (orEmpty (Some "2-3"))
                        ∧ names part (Z.of_nat i + 1)))
    ∧ (trim (orEmpty (Some "2-3")) = "" →
       selectSheets [2; 3] [Examples.sheet "Q1"; Examples.sheet "Q2"; Examples.sheet "Q3"]
       = [Examples.sheet "Q1"; Examples.sheet "Q2"; Examples.sheet "Q3"]).
Proof.
  apply (selected_sheets_are_the_named_sheets 10 (Some "2-3")
           [Examples.sheet "Q1"; Examples.sheet "Q2"; Examples.sheet "Q3"] [2; 3]);
    [by vm_compute|reflexivity].
Defined.

Lemma convertRawSheetsToRich_rows rawSheets :
  rawSheets ≠ [] → Forall (fun sheet => rawData sheet ≠ []) rawSheets →
  convertRawSheetsToRich rawSheets ≠ []
  ∧ Forall (fun sheet => data sheet ≠ []) (convertRawSheetsToRich rawSheets).
Proof.
  intros Hsome Hrows. unfold convertRawSheetsToRich. split; [by destruct rawSheets|].
  change (map ?f rawSheets) with (f <$> rawSheets).
  apply Forall_fmap. eapply Forall_impl; [done|].
  intros sheet Hsheet. simpl in *. destruct (rawData sheet); simpl; done.
Qed.

(** X27.  For a spreadsheet job whose file is read by [readExcelData]:
    when the file cannot be read, the rejection is not an [Error], and
    [processJob] reports the message for an unexpected error; and the job
    is shown as converted only with at least one sheet, each of which has
    at least one row. *)
Theorem spreadsheet_job_outcomes P reading job :
  (∀ f, Queue.readExcelData P f = Excel.readExcelData (reading f)) →
  Types.conversionMode job = excel_to_pdf →
  (∀ f, file job = Some f → reading f = Excel.ReadError →
     setJobs (id job) [status_ error; errorMessage_ (Some "An unexpected error occurred.");
                       progressMessage_ None] ∈ processJob P job)
  ∧ (∀ jobId fields,
       setJobs jobId fields ∈ processJob P job → status_ success ∈ fields →
       ∃ sheets,
         fields = [status_ success; extractedSheets_ (Some sheets); progressMessage_ None]
         ∧ sheets ≠ [] ∧ Forall (fun sheet => data sheet ≠ []) sheets).
Proof.
  intros Hreader Hmode. split.
  - intros f Hf Hread. unfold processJob, convert, awaitReadExcelData.
    rewrite Hf, Hmode, Hreader, Hread. simpl. apply list_elem_of_In. simpl. auto 10.
  - intros jobId fields Hevent Hsuccess.
    assert (Forall
      (fun e => ∀ jobId fields, e = setJobs jobId fields → status_ success ∈ fields →
         ∃ sheets,
           fields = [status_ success; extractedSheets_ (Some sheets); progressMessage_ None]
           ∧ sheets ≠ [] ∧ Forall (fun sheet => data sheet ≠ []) sheets)
      (processJob P job)) as Hall.
    2: { rewrite Forall_forall in Hall. by apply (Hall _ Hevent jobId fields). }
    clear Hevent Hsuccess jobId fields. apply processJob_events; try done.
    + intros m jobId fields [= <- <-] Hin. apply list_elem_of_In in Hin. simpl in Hin.
      by destruct Hin as [|[|[]]].
    + intros m jobId fields [= <- <-] Hin. apply list_elem_of_In in Hin. simpl in Hin.
      by destruct Hin as [|[]].
    + intros rawSheets Hproduced jobId fields [= <- <-] _. eexists. split; [done|].
      unfold produced in Hproduced. rewrite Hmode in Hproduced.
      destruct Hproduced as [Hsome [f Hf]]. rewrite Hreader in Hf.
      apply convertRawSheetsToRich_rows; [done|].
      revert Hf. unfold Excel.readExcelData.
      destruct (reading f) as [|[sheets|e]]; try done. intros [= <-].
      apply Forall_forall. intros sheet [Hrows _]%list_elem_of_filter.
      destruct (rawData sheet); [simpl in Hrows; lia|done].
    + intros m jobId fields [= <- <-] Hin. apply list_elem_of_In in Hin. simpl in Hin.
      by destruct Hin as [|[|[|[]]]].
Qed.

Lemma spreadsheet_job_outcomes_witness :
  (∀ f, file (newJob excel_to_pdf (Examples.copy 0)) = Some f →
        Excel.ReadError = Excel.ReadError →
     setJobs (id (newJob excel_to_pdf (Examples.copy 0)))
       [status_ error; errorMessage_ (Some "An unexpected error occurred.");
        progressMessage_ None]
     ∈ processJob Scenarios.unreadable (newJob excel_to_pdf (Examples.copy 0)))
  ∧ (∀ jobId fields,
       setJobs jobId fields
         ∈ processJob Scenarios.unreadable (newJob excel_to_pdf (Examples.copy 0)) →
       status_ success ∈ fields →
       ∃ sheets,
         fields = [status_ success; extractedSheets_ (Some sheets); progressMessage_ None]
         ∧ sheets ≠ [] ∧ Forall (fun sheet => data sheet ≠ []) sheets).
Proof.
  apply (spreadsheet_job_outcomes Scenarios.unreadable (fun _ => Excel.ReadError)
           (newJob excel_to_pdf (Examples.copy 0))); [by intros f|reflexivity].
Defined.

End SheetSelection.

(** ** The upload box *)
Section FileUploadFacts.
Import Types Queue FileUpload.

Lemma sortFiles_filter accept files :
  sortFiles accept files
  = (filter (fun file => isFileValid accept file = true) files,
     filter (fun file => isFileValid accept file ≠ true) files).
Proof.
  unfold sortFiles.
  assert (∀ validFiles invalidFiles,
            foldl (fun '(validFiles, invalidFiles) file =>
                     if isFileValid accept file then (validFiles ++ [file], invalidFiles)
                     else (validFiles, invalidFiles ++ [file]))
                  (validFiles, invalidFiles) files
            = (validFiles ++ filter (fun file => isFileValid accept file = true) files,
               invalidFiles ++ filter (fun file => isFileValid accept file ≠ true) files))
    as Hfold; [|apply Hfold].
  induction files as [|file files IH]; intros validFiles invalidFiles; simpl.
  - by rewrite !app_nil_r.
  - rewrite !filter_cons. destruct (isFileValid accept file) eqn:Hvalid.
    + rewrite IH, decide_True, decide_False by (try done; by intros []).
      by rewrite <-app_assoc.
    + rewrite IH, decide_False, decide_True by done. by rewrite <-app_assoc.
Qed.

(** X28.  [processFiles] calls [onFileSelect] exactly when some file is
    accepted, then with the accepted files in their order and with no
    other; it sets the error message exactly when some file is not
    accepted; and a drop on the box while a conversion holds a slot calls
    nothing, so that [handleFileSelect] only ever gets a list that is not
    empty while no call of [processJob] holds a slot. *)
Theorem processFiles_passes_accepted_files accept fileTypeDescription files validationError :
  let accepted := filter (fun file => isFileValid accept file = true) files in
  let ignored := filter (fun file => isFileValid accept file ≠ true) files in
  processFiles accept fileTypeDescription (Some files) validationError
  = (if decide (ignored = []) then None
     else Some (ignoredMessage fileTypeDescription ignored),
     if decide (accepted = []) then None else Some (theFile <$> accepted))
  ∧ (∀ s selected,
       (handleDrop (0 <? activeJobsCount s) accept fileTypeDescription files
          validationError).2 = Some selected →
       uploadEnabled selected s = true
       ∧ selected = theFile <$> accepted)
  ∧ handleDrop true accept fileTypeDescription files validationError
    = (validationError, None).
Proof.
  intros accepted ignored.
  assert (∀ {A} (l : list A), (0 < length l)%nat ↔ l ≠ []) as Hlen.
  { intros A l. destruct l; simpl; [split; [lia|done]|split; [done|lia]]. }
  assert (∀ validationError,
            processFiles accept fileTypeDescription (Some files) validationError
            = (if decide (ignored = []) then None
               else Some (ignoredMessage fileTypeDescription ignored),
               if decide (accepted = []) then None else Some (theFile <$> accepted)))
    as Hprocess.
  { intros v. unfold processFiles. rewrite sortFiles_filter. fold accepted ignored.
    f_equal.
    - destruct (decide (ignored = [])) as [->|Hsome]; [done|].
      rewrite decide_True; [done|]. by apply Hlen.
    - destruct (decide (accepted = [])) as [->|Hsome]; [done|].
      rewrite decide_True; [done|]. by apply Hlen. }
  split; [apply Hprocess|]. split; [|done].
  intros s selected. unfold handleDrop, uploadEnabled.
  destruct (0 <? activeJobsCount s); [done|]. rewrite Hprocess. simpl.
  destruct (decide (accepted = [])) as [|Hsome]; [done|]. intros [= <-].
  split; [|done]. apply bool_decide_eq_true. by destruct accepted.
Qed.

End FileUploadFacts.

(** ** Sheet names of the workbook *)
Section WorkbookFacts.
Import JsString Workbook.

Lemma substring_length n : ∀ s, (String.length (String.substring 0 n s) ≤ n)%nat.
Proof.
  induction n as [|n IH]; intros [|c s]; simpl; try lia. specialize (IH s). lia.
Qed.

Lemma substring_includes c n : ∀ s,
  includes c (String.substring 0 n s) = true → includes c s = true.
Proof.
  induction n as [|n IH]; intros [|d s]; simpl; try done.
  intros [->|Hin]%orb_true_iff; [done|]. rewrite IH by done. apply orb_true_r.
Qed.

Lemma substring_short n : ∀ s, (String.length s ≤ n)%nat → String.substring 0 n s = s.
Proof.
  induction n as [|n IH]; intros [|c s]; simpl; try done; [lia|].
  intros Hlen. rewrite IH by lia. done.
Qed.

Lemma removeForbidden_includes c : ∀ s,
  includes c (removeForbidden s) = true → isForbidden c = false ∧ includes c s = true.
Proof.
  induction s as [|d s IH]; simpl; [done|].
  destruct (isForbidden d) eqn:Hd; simpl.
  - intros [? ->]%IH. by rewrite orb_true_r.
  - intros [Heq%Ascii.eqb_eq|[? ->]%IH]%orb_true_iff.
    + subst. by rewrite Ascii.eqb_refl.
    + by rewrite orb_true_r.
Qed.

Lemma removeForbidden_clean : ∀ s,
  (∀ c, includes c s = true → isForbidden c = false) → removeForbidden s = s.
Proof.
  induction s as [|d s IH]; simpl; [done|]. intros Hclean.
  rewrite (Hclean d) by (by rewrite Ascii.eqb_refl). f_equal. apply IH.
  intros c Hc. apply Hclean. by rewrite Hc, orb_true_r.
Qed.

(** X29.  The name under which [createStyledWorkbook] adds a sheet has at
    most 31 characters and none of the characters [/ \ ? * : [ ]]; a
    sheet name that already is like that is kept, and sanitising a
    sanitised name changes nothing. *)
Theorem sanitizedSheetName_is_clean sheetName :
  (String.length (sanitizedSheetName sheetName) ≤ 31)%nat
  ∧ (∀ c, includes c (sanitizedSheetName sheetName) = true →
          isForbidden c = false ∧ includes c sheetName = true)
  ∧ ((String.length sheetName ≤ 31)%nat →
     (∀ c, includes c sheetName = true → isForbidden c = false) →
     sanitizedSheetName sheetName = sheetName)
  ∧ sanitizedSheetName (sanitizedSheetName sheetName) = sanitizedSheetName sheetName.
Proof.
  assert (∀ c, includes c (sanitizedSheetName sheetName) = true →
               isForbidden c = false ∧ includes c sheetName = true) as Hclean.
  { intros c Hc. by apply substring_includes, removeForbidden_includes in Hc. }
  assert (∀ name, (String.length name ≤ 31)%nat →
            (∀ c, includes c name = true → isForbidden c = false) →
            sanitizedSheetName name = name) as Hkept.
  { intros name Hlen Hname. unfold sanitizedSheetName.
    rewrite removeForbidden_clean by done. by apply substring_short. }
  split_and!; [apply substring_length|done|apply Hkept|].
  apply Hkept; [apply substring_length|]. intros c Hc. by apply Hclean.
Qed.

End WorkbookFacts.
